(** * 3D-anime: animation retargeting, playback control and model loading

    A shallow embedding of the domain logic of [src/app/page.tsx]:

    - [boneMapping], the bone-name table, and [retargetAnimation];
    - [processExternalAnimations] and [playDanceAnimation], the playback
      controller exposed through the component's imperative handle;
    - [loadModels] with its module-level [isLoading] flag, as a resumable
      computation with one state per [await];
    - the mount effect, its cleanup and the render loop [animate];
    - [Home] with [handleModelLoad], its loading timer, [Controls] and
      [ErrorNotice];
    - [playDanceAnimation] of the second variant of the page.

    The component keeps its state in React refs that point to THREE objects.
    The embedding mirrors that: THREE objects live in a heap of [object]s
    addressed by location, refs are fields of a [world] record, and every
    function of the component is a computation in a state-and-exception
    monad over [world].  JavaScript numbers are binary64 floats. *)

From Stdlib Require Import Floats.PrimFloat Ascii.
From stdpp Require Import gmap strings list pretty.

Open Scope string_scope.
Open Scope nat_scope.
Open Scope list_scope.

(** * Part I: the program *)

(** ** JavaScript values, truthiness, string conversion, property lookup *)

Module JS.

(** The values a property read on the bone table can produce: a table entry
    (a string), [undefined], or a member inherited from [Object.prototype]
    (eleven built-in functions and the [__proto__] accessor, whose value is
    [Object.prototype] itself). *)
Inductive value :=
| Undefined
| Str (s : string)
| NativeFunction (name : string)
| PlainObject.

(** ToBoolean, as used by [if (boneMapping[boneName])]. *)
Definition truthy (v : value) : bool :=
  match v with
  | Undefined => false
  | Str s => negb (String.eqb s "")
  | NativeFunction _ => true
  | PlainObject => true
  end.

(** ToString, as used by a template literal's substitutions. *)
Definition toString (v : value) : string :=
  match v with
  | Undefined => "undefined"
  | Str s => s
  | NativeFunction f => "function " +:+ f +:+ "() { [native code] }"
  | PlainObject => "[object Object]"
  end.

(** The own properties of [Object.prototype] in a browser. *)
Definition ObjectPrototype : list (string * value) :=
  [ ("constructor", NativeFunction "Object");
    ("__defineGetter__", NativeFunction "__defineGetter__");
    ("__defineSetter__", NativeFunction "__defineSetter__");
    ("hasOwnProperty", NativeFunction "hasOwnProperty");
    ("__lookupGetter__", NativeFunction "__lookupGetter__");
    ("__lookupSetter__", NativeFunction "__lookupSetter__");
    ("isPrototypeOf", NativeFunction "isPrototypeOf");
    ("propertyIsEnumerable", NativeFunction "propertyIsEnumerable");
    ("toString", NativeFunction "toString");
    ("valueOf", NativeFunction "valueOf");
    ("__proto__", PlainObject);
    ("toLocaleString", NativeFunction "toLocaleString") ].

Fixpoint assoc (k : string) (ps : list (string * value)) : option value :=
  match ps with
  | [] => None
  | (k', v) :: ps' => if String.eqb k k' then Some v else assoc k ps'
  end.

Definition inherited (k : string) : bool :=
  match assoc k ObjectPrototype with Some _ => true | None => false end.

(** [obj[k]] on an object literal whose own properties are [own]: the own
    property when there is one, else the member of [Object.prototype] of that
    name, else [undefined]. *)
Definition get (own : gmap string string) (k : string) : value :=
  match own !! k with
  | Some s => Str s
  | None =>
      match assoc k ObjectPrototype with
      | Some v => v
      | None => Undefined
      end
  end.

(** [s.split(sep)] for a one-character separator: the pieces between the
    occurrences of [sep]; never an empty array. *)
Fixpoint split (sep : ascii) (s : string) : list string :=
  match s with
  | EmptyString => [EmptyString]
  | String c s' =>
      if Ascii.eqb c sep then EmptyString :: split sep s'
      else
        match split sep s' with
        | p :: ps => String c p :: ps
        | [] => [String c EmptyString]
        end
  end.

(** Array destructuring [const [a, b] = parts]: a missing element reads as
    [undefined]. *)
Definition element (parts : list string) (i : nat) : value :=
  match parts !! i with
  | Some p => Str p
  | None => Undefined
  end.

(** The text of a string before its first [c] (all of it when there is
    none). *)
Fixpoint before_first (c : ascii) (s : string) : string :=
  match s with
  | EmptyString => EmptyString
  | String a s' => if Ascii.eqb a c then EmptyString else String a (before_first c s')
  end.

(** [`${n}`] for a non-negative integer [n]: its decimal numeral. *)
Definition numeral (n : nat) : string := pretty n.

End JS.

(** ** The bone-name table (page.tsx, lines 43-109) *)

Definition dot : ascii := "."%char.

Definition boneMappingEntries : list (string * string) :=
  [ ("hips_JNT", "J_Bip_C_Hips");
    ("spine_JNT", "J_Bip_C_Spine");
    ("spine1_JNT", "J_Bip_C_Chest");
    ("spine2_JNT", "J_Bip_C_UpperChest");
    ("neck_JNT", "J_Bip_C_Neck");
    ("head_JNT", "J_Bip_C_Head");
    ("l_shoulder_JNT", "J_Bip_L_Shoulder");
    ("l_arm_JNT", "J_Bip_L_UpperArm");
    ("l_forearm_JNT", "J_Bip_L_LowerArm");
    ("l_hand_JNT", "J_Bip_L_Hand");
    ("r_shoulder_JNT", "J_Bip_R_Shoulder");
    ("r_arm_JNT", "J_Bip_R_UpperArm");
    ("r_forearm_JNT", "J_Bip_R_LowerArm");
    ("r_hand_JNT", "J_Bip_R_Hand");
    ("l_upleg_JNT", "J_Bip_L_UpperLeg");
    ("l_leg_JNT", "J_Bip_L_LowerLeg");
    ("l_foot_JNT", "J_Bip_L_Foot");
    ("l_toebase_JNT", "J_Bip_L_ToeBase");
    ("r_upleg_JNT", "J_Bip_R_UpperLeg");
    ("r_leg_JNT", "J_Bip_R_LowerLeg");
    ("r_foot_JNT", "J_Bip_R_Foot");
    ("r_toebase_JNT", "J_Bip_R_ToeBase");
    ("l_handThumb1_JNT", "J_Bip_L_Thumb1");
    ("l_handThumb2_JNT", "J_Bip_L_Thumb2");
    ("l_handThumb3_JNT", "J_Bip_L_Thumb3");
    ("l_handIndex1_JNT", "J_Bip_L_Index1");
    ("l_handIndex2_JNT", "J_Bip_L_Index2");
    ("l_handIndex3_JNT", "J_Bip_L_Index3");
    ("l_handMiddle1_JNT", "J_Bip_L_Middle1");
    ("l_handMiddle2_JNT", "J_Bip_L_Middle2");
    ("l_handMiddle3_JNT", "J_Bip_L_Middle3");
    ("l_handRing1_JNT", "J_Bip_L_Ring1");
    ("l_handRing2_JNT", "J_Bip_L_Ring2");
    ("l_handRing3_JNT", "J_Bip_L_Ring3");
    ("l_handPinky1_JNT", "J_Bip_L_Little1");
    ("l_handPinky2_JNT", "J_Bip_L_Little2");
    ("l_handPinky3_JNT", "J_Bip_L_Little3");
    ("r_handThumb1_JNT", "J_Bip_R_Thumb1");
    ("r_handThumb2_JNT", "J_Bip_R_Thumb2");
    ("r_handThumb3_JNT", "J_Bip_R_Thumb3");
    ("r_handIndex1_JNT", "J_Bip_R_Index1");
    ("r_handIndex2_JNT", "J_Bip_R_Index2");
    ("r_handIndex3_JNT", "J_Bip_R_Index3");
    ("r_handMiddle1_JNT", "J_Bip_R_Middle1");
    ("r_handMiddle2_JNT", "J_Bip_R_Middle2");
    ("r_handMiddle3_JNT", "J_Bip_R_Middle3");
    ("r_handRing1_JNT", "J_Bip_R_Ring1");
    ("r_handRing2_JNT", "J_Bip_R_Ring2");
    ("r_handRing3_JNT", "J_Bip_R_Ring3");
    ("r_handPinky1_JNT", "J_Bip_R_Little1");
    ("r_handPinky2_JNT", "J_Bip_R_Little2");
    ("r_handPinky3_JNT", "J_Bip_R_Little3") ].

Definition boneMapping : gmap string string := list_to_map boneMappingEntries.

Arguments boneMapping : simpl never.

(** ** THREE objects, the heap and the component's refs *)

Abbreviation loc := nat (only parsing).

Inductive LoopMode := LoopOnce | LoopRepeat | LoopPingPong.

(** A scheduled weight interpolation of an action ([fadeIn] / [fadeOut]). *)
Inductive fading := FadeIn (duration : float) | FadeOut (duration : float).

(** The fields of a [THREE.AnimationAction] that the controller's calls
    read or write: the mixer and the clip it was made for, and its playback
    state.  [a_active] says that the action is activated in its mixer
    ([play] activates, [stop] deactivates). *)
Record action := {
  a_mixer : loc;
  a_clip : loc;
  a_active : bool;
  a_paused : bool;
  a_enabled : bool;
  a_time : float;
  a_loop : LoopMode;
  a_repetitions : float;
  a_fading : option fading
}.

(** The objects the component allocates or receives.  A field that holds
    another object holds its location, so that two references to one object
    are one location: a track refers to its two sample arrays, a clip to
    the array of its tracks.  [Audio] keeps the source, the [loop] flag and
    how many times [play()] was called on the element. *)
Inductive object :=
| Float32Array (data : list float)
| JSArray (items : list loc)
| KeyframeTrack (name : string) (times values : loc)
| AnimationClip (name : string) (duration : float) (tracks : loc)
| AnimationAction (st : action)
| AnimationMixer (root : loc)
| Group
| Audio (src : string) (loop : bool) (plays : nat).

(** Console output. *)
Inductive entry :=
| ConsoleLog (msg : string)
| ConsoleWarn (msg : string)
| ConsoleError (msg : string).

(** The methods of an action that [playDanceAnimation] invokes. *)
Inductive method :=
| CallFadeOut (duration : float)
| CallStop
| CallReset
| CallFadeIn (duration : float)
| CallPlay
| CallSetLoop (mode : LoopMode) (repetitions : float).

(** Where an invocation of [loadModels] is suspended. *)
Inductive task := AwaitCharacter | AwaitDance.

(** The state the component's code reads and writes: the heap, what was
    written to the console, the calls made on actions (in order), the
    module-level flag [isLoading] (line 112), the invocations of
    [loadModels] suspended at an [await], the React refs of the component
    (each field is the ref's [current]), and the calls of
    [props.onModelLoaded] with their arguments. *)
Record world := {
  heap : list object;
  console : list entry;
  invoked : list (loc * method);
  isLoading : bool;
  pending : list task;
  audioRef : option loc;
  mixerRef : option loc;
  modelRef : option loc;
  actionsRef : gmap string loc;
  currentActionRef : option loc;
  danceAnimationsRef : list loc;
  modelLoaded : list (bool * option string)
}.

Definition set_heap (h : list object) (w : world) : world :=
  {| heap := h; console := console w; invoked := invoked w;
     isLoading := isLoading w; pending := pending w; audioRef := audioRef w;
     mixerRef := mixerRef w; modelRef := modelRef w;
     actionsRef := actionsRef w; currentActionRef := currentActionRef w;
     danceAnimationsRef := danceAnimationsRef w; modelLoaded := modelLoaded w |}.

Definition set_console (c : list entry) (w : world) : world :=
  {| heap := heap w; console := c; invoked := invoked w;
     isLoading := isLoading w; pending := pending w; audioRef := audioRef w;
     mixerRef := mixerRef w; modelRef := modelRef w;
     actionsRef := actionsRef w; currentActionRef := currentActionRef w;
     danceAnimationsRef := danceAnimationsRef w; modelLoaded := modelLoaded w |}.

Definition set_invoked (c : list (loc * method)) (w : world) : world :=
  {| heap := heap w; console := console w; invoked := c;
     isLoading := isLoading w; pending := pending w; audioRef := audioRef w;
     mixerRef := mixerRef w; modelRef := modelRef w;
     actionsRef := actionsRef w; currentActionRef := currentActionRef w;
     danceAnimationsRef := danceAnimationsRef w; modelLoaded := modelLoaded w |}.

Definition set_isLoading (b : bool) (w : world) : world :=
  {| heap := heap w; console := console w; invoked := invoked w;
     isLoading := b; pending := pending w; audioRef := audioRef w;
     mixerRef := mixerRef w; modelRef := modelRef w;
     actionsRef := actionsRef w; currentActionRef := currentActionRef w;
     danceAnimationsRef := danceAnimationsRef w; modelLoaded := modelLoaded w |}.

Definition set_pending (p : list task) (w : world) : world :=
  {| heap := heap w; console := console w; invoked := invoked w;
     isLoading := isLoading w; pending := p; audioRef := audioRef w;
     mixerRef := mixerRef w; modelRef := modelRef w;
     actionsRef := actionsRef w; currentActionRef := currentActionRef w;
     danceAnimationsRef := danceAnimationsRef w; modelLoaded := modelLoaded w |}.

Definition set_audioRef (a : option loc) (w : world) : world :=
  {| heap := heap w; console := console w; invoked := invoked w;
     isLoading := isLoading w; pending := pending w; audioRef := a;
     mixerRef := mixerRef w; modelRef := modelRef w;
     actionsRef := actionsRef w; currentActionRef := currentActionRef w;
     danceAnimationsRef := danceAnimationsRef w; modelLoaded := modelLoaded w |}.

Definition set_mixerRef (m : option loc) (w : world) : world :=
  {| heap := heap w; console := console w; invoked := invoked w;
     isLoading := isLoading w; pending := pending w; audioRef := audioRef w;
     mixerRef := m; modelRef := modelRef w;
     actionsRef := actionsRef w; currentActionRef := currentActionRef w;
     danceAnimationsRef := danceAnimationsRef w; modelLoaded := modelLoaded w |}.

Definition set_modelRef (m : option loc) (w : world) : world :=
  {| heap := heap w; console := console w; invoked := invoked w;
     isLoading := isLoading w; pending := pending w; audioRef := audioRef w;
     mixerRef := mixerRef w; modelRef := m;
     actionsRef := actionsRef w; currentActionRef := currentActionRef w;
     danceAnimationsRef := danceAnimationsRef w; modelLoaded := modelLoaded w |}.

Definition set_actionsRef (a : gmap string loc) (w : world) : world :=
  {| heap := heap w; console := console w; invoked := invoked w;
     isLoading := isLoading w; pending := pending w; audioRef := audioRef w;
     mixerRef := mixerRef w; modelRef := modelRef w;
     actionsRef := a; currentActionRef := currentActionRef w;
     danceAnimationsRef := danceAnimationsRef w; modelLoaded := modelLoaded w |}.

Definition set_currentActionRef (a : option loc) (w : world) : world :=
  {| heap := heap w; console := console w; invoked := invoked w;
     isLoading := isLoading w; pending := pending w; audioRef := audioRef w;
     mixerRef := mixerRef w; modelRef := modelRef w;
     actionsRef := actionsRef w; currentActionRef := a;
     danceAnimationsRef := danceAnimationsRef w; modelLoaded := modelLoaded w |}.

Definition set_danceAnimationsRef (a : list loc) (w : world) : world :=
  {| heap := heap w; console := console w; invoked := invoked w;
     isLoading := isLoading w; pending := pending w; audioRef := audioRef w;
     mixerRef := mixerRef w; modelRef := modelRef w;
     actionsRef := actionsRef w; currentActionRef := currentActionRef w;
     danceAnimationsRef := a; modelLoaded := modelLoaded w |}.

Definition set_modelLoaded (a : list (bool * option string)) (w : world) : world :=
  {| heap := heap w; console := console w; invoked := invoked w;
     isLoading := isLoading w; pending := pending w; audioRef := audioRef w;
     mixerRef := mixerRef w; modelRef := modelRef w;
     actionsRef := actionsRef w; currentActionRef := currentActionRef w;
     danceAnimationsRef := danceAnimationsRef w; modelLoaded := a |}.

(** The state of a freshly mounted component: empty heap, every ref at its
    initial value, [isLoading = false]. *)
Definition initial : world :=
  {| heap := []; console := []; invoked := []; isLoading := false;
     pending := []; audioRef := None; mixerRef := None; modelRef := None;
     actionsRef := ∅; currentActionRef := None; danceAnimationsRef := [];
     modelLoaded := [] |}.

(** ** Computations: state and exceptions *)

(** What the code can throw: reading a property or calling a method of
    [null], or of an object that has not got it. *)
Inductive exn :=
| TypeError (msg : string).

Inductive result (A : Type) :=
| Ok (a : A) (w : world)
| Throw (e : exn) (w : world).

Arguments Ok {A} a w.

Arguments Throw {A} e w.

Definition M (A : Type) : Type := world → result A.

Definition ret {A} (a : A) : M A := fun w => Ok a w.

Definition bind {A B} (m : M A) (k : A → M B) : M B :=
  fun w => match m w with
           | Ok a w' => k a w'
           | Throw e w' => Throw e w'
           end.

Definition throw {A} (e : exn) : M A := fun w => Throw e w.

(** [try { body } catch (e) { handler e }] *)
Definition try_catch {A} (body : M A) (handler : exn → M A) : M A :=
  fun w => match body w with
           | Ok a w' => Ok a w'
           | Throw e w' => handler e w'
           end.

(** [try { body } finally { cleanup }] *)
Definition try_finally {A} (body : M A) (cleanup : M unit) : M A :=
  fun w => match body w with
           | Ok a w' =>
               match cleanup w' with
               | Ok _ w'' => Ok a w''
               | Throw e w'' => Throw e w''
               end
           | Throw e w' =>
               match cleanup w' with
               | Ok _ w'' => Throw e w''
               | Throw e' w'' => Throw e' w''
               end
           end.

Definition gets {A} (f : world → A) : M A := fun w => Ok (f w) w.

Definition modify (f : world → world) : M unit := fun w => Ok tt (f w).

Declare Scope comp_scope.

Delimit Scope comp_scope with comp.

Notation "x <- m ;; k" := (bind m (fun x => k))
  (at level 100, m at next level, right associativity) : comp_scope.

Notation "m ;; k" := (bind m (fun _ => k))
  (at level 100, right associativity) : comp_scope.

Notation "'read' p 'from' m ;; k" := (bind m (fun p => k))
  (at level 100, p pattern, m at next level, right associativity) : comp_scope.

Open Scope comp_scope.

(** [xs.forEach((x, i) => body x i)] *)
Fixpoint forEachFrom {A} (i : nat) (xs : list A) (body : A → nat → M unit) : M unit :=
  match xs with
  | [] => ret tt
  | x :: xs' => body x i ;; forEachFrom (S i) xs' body
  end.

Definition forEach {A} (xs : list A) (body : A → nat → M unit) : M unit :=
  forEachFrom 0 xs body.

Definition console_log (msg : string) : M unit :=
  modify (fun w => set_console (console w ++ [ConsoleLog msg]) w).

Definition console_warn (msg : string) : M unit :=
  modify (fun w => set_console (console w ++ [ConsoleWarn msg]) w).

Definition console_error (msg : string) : M unit :=
  modify (fun w => set_console (console w ++ [ConsoleError msg]) w).

(** Heap access.  A new object gets the next free location; reading a
    location that holds an object of another kind is a [TypeError]. *)
Definition alloc (o : object) : M loc :=
  fun w => Ok (length (heap w)) (set_heap (heap w ++ [o]) w).

Definition store (l : loc) (o : object) : M unit :=
  modify (fun w => set_heap (<[l := o]> (heap w)) w).

Definition readFloats (l : loc) : M (list float) :=
  fun w => match heap w !! l with
           | Some (Float32Array d) => Ok d w
           | _ => Throw (TypeError "not a Float32Array") w
           end.

Definition readItems (l : loc) : M (list loc) :=
  fun w => match heap w !! l with
           | Some (JSArray items) => Ok items w
           | _ => Throw (TypeError "not an Array") w
           end.

Definition readTrack (l : loc) : M (string * loc * loc) :=
  fun w => match heap w !! l with
           | Some (KeyframeTrack n t v) => Ok (n, t, v) w
           | _ => Throw (TypeError "not a KeyframeTrack") w
           end.

Definition readClip (l : loc) : M (string * float * loc) :=
  fun w => match heap w !! l with
           | Some (AnimationClip n d t) => Ok (n, d, t) w
           | _ => Throw (TypeError "not an AnimationClip") w
           end.

Definition readAction (l : loc) : M action :=
  fun w => match heap w !! l with
           | Some (AnimationAction st) => Ok st w
           | _ => Throw (TypeError "not an AnimationAction") w
           end.

(** [array.push(x)] *)
Definition push (array : loc) (x : loc) : M unit :=
  items <- readItems array ;;
  store array (JSArray (items ++ [x])).

(** ** The THREE operations the component calls

    THREE itself is not part of the repository; its constructors and
    methods are modelled by what they do to valid arguments. *)

Module THREE.

(** [typedArray.slice()]: a new typed array with the same elements. *)
Definition slice (values : loc) : M loc :=
  d <- readFloats values ;;
  alloc (Float32Array d).

(** [new THREE.KeyframeTrack(name, times, values)] with typed arrays for
    [times] and [values]: the track keeps the two arrays it is given. *)
Definition newKeyframeTrack (name : string) (times values : loc) : M loc :=
  alloc (KeyframeTrack name times values).

(** [new THREE.AnimationClip(name, duration, tracks)]: the clip keeps the
    array it is given. *)
Definition newAnimationClip (name : string) (duration : float) (tracks : loc) : M loc :=
  alloc (AnimationClip name duration tracks).

(** One track through [KeyframeTrack.toJSON] and back: a new track over new
    arrays with the same name and the same samples. *)
Definition cloneTrack (track : loc) : M loc :=
  read (name, times, values) from readTrack track ;;
  ts <- readFloats times ;;
  vs <- readFloats values ;;
  times' <- alloc (Float32Array ts) ;;
  values' <- alloc (Float32Array vs) ;;
  alloc (KeyframeTrack name times' values').

Fixpoint cloneTracks (tracks : list loc) : M (list loc) :=
  match tracks with
  | [] => ret []
  | t :: ts =>
      t' <- cloneTrack t ;;
      ts' <- cloneTracks ts ;;
      ret (t' :: ts')
  end.

(** [THREE.AnimationClip.parse(THREE.AnimationClip.toJSON(clip))]: a deep
    copy of the clip. *)
Definition parse_toJSON (clip : loc) : M loc :=
  read (name, duration, tracks) from readClip clip ;;
  items <- readItems tracks ;;
  items' <- cloneTracks items ;;
  tracks' <- alloc (JSArray items') ;;
  alloc (AnimationClip name duration tracks').

End THREE.

(** Updates of one field of an action. *)
Definition with_active (b : bool) (st : action) : action :=
  {| a_mixer := a_mixer st; a_clip := a_clip st; a_active := b;
     a_paused := a_paused st; a_enabled := a_enabled st; a_time := a_time st;
     a_loop := a_loop st; a_repetitions := a_repetitions st;
     a_fading := a_fading st |}.

Definition with_time (t : float) (st : action) : action :=
  {| a_mixer := a_mixer st; a_clip := a_clip st; a_active := a_active st;
     a_paused := a_paused st; a_enabled := a_enabled st; a_time := t;
     a_loop := a_loop st; a_repetitions := a_repetitions st;
     a_fading := a_fading st |}.

Definition with_fading (f : option fading) (st : action) : action :=
  {| a_mixer := a_mixer st; a_clip := a_clip st; a_active := a_active st;
     a_paused := a_paused st; a_enabled := a_enabled st; a_time := a_time st;
     a_loop := a_loop st; a_repetitions := a_repetitions st; a_fading := f |}.

Definition with_loop (mode : LoopMode) (repetitions : float) (st : action) : action :=
  {| a_mixer := a_mixer st; a_clip := a_clip st; a_active := a_active st;
     a_paused := a_paused st; a_enabled := a_enabled st; a_time := a_time st;
     a_loop := mode; a_repetitions := repetitions; a_fading := a_fading st |}.

(** [action.reset()]: unpaused, enabled, at time zero, no fading. *)
Definition rewound (st : action) : action :=
  {| a_mixer := a_mixer st; a_clip := a_clip st; a_active := a_active st;
     a_paused := false; a_enabled := true; a_time := 0%float;
     a_loop := a_loop st; a_repetitions := a_repetitions st; a_fading := None |}.

(** An action as [mixer.clipAction] creates it. *)
Definition newAction (mixer clip : loc) : action :=
  {| a_mixer := mixer; a_clip := clip; a_active := false; a_paused := false;
     a_enabled := true; a_time := 0%float; a_loop := LoopRepeat;
     a_repetitions := infinity; a_fading := None |}.

Module Action.

(** A method call on the action at [a]: recorded in [invoked], then applied
    to the action's state. *)
Definition call (a : loc) (m : method) (f : action → action) : M unit :=
  st <- readAction a ;;
  modify (fun w => set_invoked (invoked w ++ [(a, m)]) w) ;;
  store a (AnimationAction (f st)).

Definition fadeOut (a : loc) (duration : float) : M unit :=
  call a (CallFadeOut duration) (with_fading (Some (FadeOut duration))).

(** [stop()] deactivates the action in its mixer and resets it. *)
Definition stop (a : loc) : M unit :=
  call a CallStop (fun st => rewound (with_active false st)).

Definition reset (a : loc) : M unit := call a CallReset rewound.

Definition fadeIn (a : loc) (duration : float) : M unit :=
  call a (CallFadeIn duration) (with_fading (Some (FadeIn duration))).

Definition play (a : loc) : M unit := call a CallPlay (with_active true).

Definition setLoop (a : loc) (mode : LoopMode) (repetitions : float) : M unit :=
  call a (CallSetLoop mode repetitions) (with_loop mode repetitions).

End Action.

(** [mixer.clipAction(clip)] for a clip not yet bound to the mixer: a new
    action.  (Every clip the component passes is a different object: a
    clip just built by [retargetAnimation], or one of the clips of a model
    just loaded.) *)
Definition clipAction (mixer : loc) (clip : loc) : M loc :=
  alloc (AnimationAction (newAction mixer clip)).

(** [mixer.update(delta)] in the render loop: the local time of every
    activated action moves on.  The mixer computes the new local time from
    [delta], the time scale, the clip's duration and the loop mode; the
    model leaves that computation open: [time] gives the new local time of
    each action, and a statement for every [time] holds for the times the
    mixer computes.  Actions that are not activated are not touched. *)
Definition advance (time : loc → float) (l : loc) (o : object) : object :=
  match o with
  | AnimationAction st =>
      if a_active st then AnimationAction (with_time (time l) st) else o
  | _ => o
  end.

Definition mixerUpdate (time : loc → float) (w : world) : world :=
  match mixerRef w with
  | Some _ => set_heap (imap (advance time) (heap w)) w
  | None => w
  end.

(** [mixer.stopAllAction()]: [stop()] on every activated action of the
    mixer. *)
Definition stopAll (mixer : loc) (o : object) : object :=
  match o with
  | AnimationAction st =>
      if a_active st && Nat.eqb (a_mixer st) mixer
      then AnimationAction (rewound (with_active false st))
      else o
  | _ => o
  end.

Definition stopAllAction (mixer : loc) : M unit :=
  modify (fun w => set_heap (map (stopAll mixer) (heap w)) w).

(** ** retargetAnimation (page.tsx, lines 139-156) *)

(** The body of [newClip.tracks.forEach(track => ...)]. *)
Definition retargetTrack (newTracks : loc) (track : loc) : M unit :=
  read (name, times, values) from readTrack track ;;
  let parts := JS.split dot name in
  let boneName := JS.toString (JS.element parts 0) in
  let property := JS.element parts 1 in
  if JS.truthy (JS.get boneMapping boneName) then
    values' <- THREE.slice values ;;
    newTrack <- THREE.newKeyframeTrack
                  (JS.toString (JS.get boneMapping boneName) +:+ "." +:+ JS.toString property)
                  times values' ;;
    push newTracks newTrack
  else ret tt.

Definition retargetAnimation (clip : loc) : M loc :=
  newClip <- THREE.parse_toJSON clip ;;
  newTracks <- alloc (JSArray []) ;;
  read (_, _, tracks) from readClip newClip ;;
  items <- readItems tracks ;;
  forEach items (fun track _ => retargetTrack newTracks track) ;;
  read (name, duration, _) from readClip clip ;;
  THREE.newAnimationClip name duration newTracks.

(** ** processExternalAnimations (page.tsx, lines 159-174) *)

Definition danceName (index : nat) : string := "dance_" +:+ JS.numeral index.

Definition originalName (index : nat) : string := "original_" +:+ JS.numeral index.

(** [error.message]. *)
Definition exn_message (e : exn) : string :=
  match e with
  | TypeError m => m
  end.

(** The two statements that end both [forEach] callbacks (lines 168-169
    and 201-202): [const action = mixerRef.current!.clipAction(clip)] and
    [actionsRef.current[name] = action].  The names stored in [actionsRef]
    are ["dance_N"] and ["original_N"] only. *)
Definition registerAction (name : string) (clip : loc) : M unit :=
  mixer <- gets mixerRef ;;
  match mixer with
  | Some mx =>
      action <- clipAction mx clip ;;
      modify (fun w => set_actionsRef (<[name := action]> (actionsRef w)) w)
  | None => throw (TypeError "mixerRef.current is null")
  end.

Definition processExternalAnimations : M unit :=
  clips <- gets danceAnimationsRef ;;
  model <- gets modelRef ;;
  mixer <- gets mixerRef ;;
  match clips, model, mixer with
  | _ :: _, Some _, Some _ =>
      try_catch
        (forEach clips (fun clip index =>
           retargetedClip <- retargetAnimation clip ;;
           registerAction (danceName index) retargetedClip))
        (fun error =>
           console_error ("外部アニメーションの処理に失敗しました: " +:+ exn_message error))
  | _, _, _ => console_warn "アニメーションの処理に必要なデータが不足しています"
  end.

(** ** playDanceAnimation (page.tsx, lines 373-403) *)

Definition DANCE_MUSIC : string := "/3d/idle.mp3".

Definition audio_play (a : loc) : M unit :=
  fun w => match heap w !! a with
           | Some (Audio src loop plays) => store a (Audio src loop (S plays)) w
           | _ => Throw (TypeError "not an Audio element") w
           end.

Definition audio_setLoop (a : loc) (b : bool) : M unit :=
  fun w => match heap w !! a with
           | Some (Audio src _ plays) => store a (Audio src b plays) w
           | _ => Throw (TypeError "not an Audio element") w
           end.

(** "Stop the existing animation" (lines 376-380). *)
Definition stopExisting : M unit :=
  current <- gets currentActionRef ;;
  match current with
  | Some a => Action.fadeOut a 0.5%float ;; Action.stop a
  | None => ret tt
  end.

(** "Play the music" (lines 382-389).  A rejection of the promise returned
    by [play()] is only logged, later, by the promise's [catch] handler. *)
Definition playMusic : M unit :=
  audio <- gets audioRef ;;
  match audio with
  | None =>
      a <- alloc (Audio DANCE_MUSIC false 0) ;;
      modify (set_audioRef (Some a)) ;;
      audio_setLoop a true
  | Some _ => ret tt
  end ;;
  audio <- gets audioRef ;;
  match audio with
  | Some a => audio_play a
  | None => throw (TypeError "audioRef.current is null")
  end.

(** "Play the dance animation of the given index" (lines 391-402). *)
Definition playSpecified (index : nat) : M unit :=
  let animationName := danceName index in
  mixer <- gets mixerRef ;;
  actions <- gets actionsRef ;;
  match mixer, actions !! animationName with
  | Some _, Some a =>
      modify (set_currentActionRef (Some a)) ;;
      Action.reset a ;;
      Action.fadeIn a 0.5%float ;;
      Action.play a ;;
      Action.setLoop a LoopRepeat infinity ;;
      console_log ("ダンスアニメーション " +:+ JS.numeral index +:+ " を再生します")
  | _, _ =>
      console_warn ("ダンスアニメーション " +:+ animationName +:+ " は見つかりません")
  end.

Definition playDanceAnimation (index : nat) : M unit :=
  console_log ("playDanceAnimation(" +:+ JS.numeral index +:+ ")が呼び出されました") ;;
  stopExisting ;;
  playMusic ;;
  playSpecified index.

(** ** The cleanup of the mount effect (page.tsx, lines 327-367) *)

(** The part of the effect's cleanup (lines 327-367) that touches the
    controller: all actions of the mixer are stopped, the audio element is
    paused and its source cleared. *)
Definition audio_release (a : loc) : M unit :=
  fun w => match heap w !! a with
           | Some (Audio _ loop plays) => store a (Audio "" loop plays) w
           | _ => Throw (TypeError "not an Audio element") w
           end.

Definition cleanup : M unit :=
  mixer <- gets mixerRef ;;
  match mixer with
  | Some mx => stopAllAction mx
  | None => ret tt
  end ;;
  audio <- gets audioRef ;;
  match audio with
  | Some a => audio_release a
  | None => ret tt
  end.

(** ** Clips as plain data

    What a clip holds, and the way a loader puts a clip into the heap. *)

Record track_data := {
  td_name : string;
  td_times : list float;
  td_values : list float
}.

Record clip_data := {
  cd_name : string;
  cd_duration : float;
  cd_tracks : list track_data
}.

Definition loadTrack (td : track_data) : M loc :=
  times <- alloc (Float32Array (td_times td)) ;;
  values <- alloc (Float32Array (td_values td)) ;;
  THREE.newKeyframeTrack (td_name td) times values.

Fixpoint loadTracks (tds : list track_data) : M (list loc) :=
  match tds with
  | [] => ret []
  | td :: tds' =>
      t <- loadTrack td ;;
      ts <- loadTracks tds' ;;
      ret (t :: ts)
  end.

Definition loadClip (cd : clip_data) : M loc :=
  items <- loadTracks (cd_tracks cd) ;;
  tracks <- alloc (JSArray items) ;;
  THREE.newAnimationClip (cd_name cd) (cd_duration cd) tracks.

(** ** loadModels (page.tsx, lines 177-226)

    An [async] function runs up to an [await], is suspended, and is resumed
    when the awaited promise settles.  [loadModels] is the part up to the
    first [await]; [resume] is the part from an [await] on. *)

(** What a model file holds, as far as the component uses it. *)
Record gltf := { g_animations : list clip_data }.

(** How a [loader.loadAsync] promise settles.  The message of a failure is
    [None] when the rejection value is not an [Error]. *)
Inductive outcome :=
| Loaded (g : gltf)
| Failed (message : option string).

Fixpoint loadClips (cds : list clip_data) : M (list loc) :=
  match cds with
  | [] => ret []
  | cd :: cds' =>
      c <- loadClip cd ;;
      cs <- loadClips cds' ;;
      ret (c :: cs)
  end.

(** The loader builds the scene and the clips of the file it has read. *)
Definition materialize (g : gltf) : M (loc * list loc) :=
  scene <- alloc Group ;;
  animations <- loadClips (g_animations g) ;;
  ret (scene, animations).

Definition props_onModelLoaded (loaded : bool) (error : option string) : M unit :=
  modify (fun w => set_modelLoaded (modelLoaded w ++ [(loaded, error)]) w).

(** A call of [loadModels()], up to its first [await] (lines 178-184): the
    invocation returns at once when [isLoading] is set; otherwise it sets the
    flag and is suspended awaiting the character file. *)
Definition loadModels : M unit :=
  busy <- gets isLoading ;;
  if busy then ret tt
  else
    modify (set_isLoading true) ;;
    modify (fun w => set_pending (pending w ++ [AwaitCharacter]) w).

(** From [await loader.loadAsync(modelPath)] to the next [await]. *)
Definition afterCharacter (g : gltf) : M unit :=
  read (scene, animations) from materialize g ;;
  modify (set_modelRef (Some scene)) ;;
  mixer <- alloc (AnimationMixer scene) ;;
  modify (set_mixerRef (Some mixer)) ;;
  match animations with
  | _ :: _ => forEach animations (fun clip index => registerAction (originalName index) clip)
  | [] => ret tt
  end.

(** From [await loader.loadAsync(dancePath)] to the end of the [try]. *)
Definition afterDance (g : gltf) : M unit :=
  read (_, animations) from materialize g ;;
  modify (set_danceAnimationsRef animations) ;;
  match animations with
  | _ :: _ => processExternalAnimations
  | [] => ret tt
  end ;;
  props_onModelLoaded true None.

(** The [catch] block; [message] is [error.message], or [None] when what
    was thrown is not an [Error]. *)
Definition catchBlock (message : option string) : M unit :=
  console_error ("モデルの読み込みに失敗しました: " +:+ default "" message) ;;
  props_onModelLoaded false (Some (default "不明なエラーが発生しました" message)).

(** The [finally] block. *)
Definition finallyBlock : M unit := modify (set_isLoading false).

(** The invocation suspended at [t] goes on when the awaited promise
    settles with [o], up to its next [await] or to its end.  A rejected
    promise, and an exception of the code after the [await], go to the
    [catch] block; the [finally] block runs when the invocation ends. *)
Definition resume (t : task) (o : outcome) : M unit :=
  match o with
  | Failed message => try_finally (catchBlock message) finallyBlock
  | Loaded g =>
      match t with
      | AwaitCharacter =>
          fun w =>
            match afterCharacter g w with
            | Ok _ w' => Ok tt (set_pending (pending w' ++ [AwaitDance]) w')
            | Throw e w' =>
                try_finally (catchBlock (Some (exn_message e))) finallyBlock w'
            end
      | AwaitDance =>
          try_finally
            (try_catch (afterDance g) (fun e => catchBlock (Some (exn_message e))))
            finallyBlock
      end
  end.

(** ** The component as a transition system *)

Inductive event :=
| Mount
| Unmount
| Settle (k : nat) (o : outcome)
| Click (index : nat)
| Frame (time : loc → float).

Definition after {A} (r : result A) : world :=
  match r with
  | Ok _ w => w
  | Throw _ w => w
  end.

(** [Mount]: the effect calls [loadModels()].  [Unmount]: the effect's
    cleanup runs.  [Settle k o]: the promise awaited by the [k]-th suspended
    invocation settles with [o].  [Click index]: the page calls
    [playDanceAnimation(index)].  [Frame time]: one turn of the render
    loop. *)
Definition handle (e : event) (w : world) : world :=
  match e with
  | Mount => after (loadModels w)
  | Unmount => after (cleanup w)
  | Settle k o =>
      match pending w !! k with
      | Some t => after (resume t o (set_pending (delete k (pending w)) w))
      | None => w
      end
  | Click index => after (playDanceAnimation index w)
  | Frame time => mixerUpdate time w
  end.

Definition run (es : list event) (w : world) : world := foldl (fun w e => handle e w) w es.

Inductive reachable : world → Prop :=
| reachable_initial : reachable initial
| reachable_step w e : reachable w → reachable (handle e w).

(** ** The page: Home, Controls and ErrorNotice (page.tsx, lines 414-601) *)

(** [text.startsWith(part)] and [text.includes(part)].  Strings are
    sequences of bytes here; for a [part] of ASCII characters, as in the
    one call of the page, a match on bytes is a match on characters. *)
Fixpoint startsWith (part text : string) : bool :=
  match part, text with
  | EmptyString, _ => true
  | String _ _, EmptyString => false
  | String a part', String b text' => Ascii.eqb a b && startsWith part' text'
  end.

Fixpoint includes (part text : string) : bool :=
  startsWith part text ||
  match text with
  | EmptyString => false
  | String _ text' => includes part text'
  end.

Module Home.

(** What [Home] writes to the console: a text, or the text
    ["モデルロード状態:"] followed by the object [{ loaded, error }]. *)
Inductive logged :=
| LogText (msg : string)
| LogLoadState (loaded : bool) (error : option string).

(** The state of [Home]: the three [useState] values, the [current] of the
    refs [isFirstLoad] and [loadStartTime] (milliseconds), what was logged,
    and the timer started by the effect of lines 537-547 if it has neither
    fired nor been cleared, with the values of [isModelLoaded] and
    [errorMessage] that its callback sees (those of the render that started
    it). *)
Record state := {
  isModelLoaded : bool;
  errorMessage : string;
  loadingStatus : string;
  isFirstLoad : bool;
  loadStartTime : Z;
  logs : list logged;
  loadingTimer : option (bool * string)
}.

(** An optional string argument as a JavaScript value. *)
Definition ofOption (error : option string) : JS.value :=
  match error with
  | Some e => JS.Str e
  | None => JS.Undefined
  end.

Definition notFoundMessage : string :=
  "モデルファイルが見つかりません。GLBファイルを '/public/3d/' に配置してください。".

(** [handleModelLoad(loaded, error)] (lines 510-534), called at time [now].
    [captured] is the value of [isModelLoaded] in the render that made the
    function; the refs are read as they are at the call.  Each [setState]
    call is written as the new value of the state. *)
Definition handleModelLoad (captured : bool) (now : Z) (loaded : bool)
    (error : option string) (s : state) : state :=
  let logs1 := logs s ++ [LogLoadState loaded error] in
  if captured && negb (JS.truthy (ofOption error)) && negb (isFirstLoad s) then
    {| isModelLoaded := isModelLoaded s; errorMessage := errorMessage s;
       loadingStatus := loadingStatus s; isFirstLoad := isFirstLoad s;
       loadStartTime := loadStartTime s;
       logs := logs1 ++ [LogText "モデルはすでにロード済みです"];
       loadingTimer := loadingTimer s |}
  else
    match error with
    | Some e =>
        if JS.truthy (JS.Str e) then
          {| isModelLoaded := isModelLoaded s;
             errorMessage := if includes "Not Found" e then notFoundMessage else e;
             loadingStatus := "モデル読み込みエラー"; isFirstLoad := false;
             loadStartTime := loadStartTime s; logs := logs1;
             loadingTimer := loadingTimer s |}
        else
          {| isModelLoaded := loaded; errorMessage := EmptyString;
             loadingStatus := EmptyString; isFirstLoad := false;
             loadStartTime := loadStartTime s;
             logs := logs1 ++
                     [LogText ("モデル読み込み完了時間: " +:+
                               pretty (now - loadStartTime s)%Z +:+ "ms")];
             loadingTimer := loadingTimer s |}
    | None =>
        {| isModelLoaded := loaded; errorMessage := EmptyString;
           loadingStatus := EmptyString; isFirstLoad := false;
           loadStartTime := loadStartTime s;
           logs := logs1 ++
                   [LogText ("モデル読み込み完了時間: " +:+
                             pretty (now - loadStartTime s)%Z +:+ "ms")];
           loadingTimer := loadingTimer s |}
    end.

(** The effect of lines 537-547, run at time [now]: it notes the time and
    starts the timer; the cleanup of the run before has cleared the timer
    of that run. *)
Definition startTimer (now : Z) (s : state) : state :=
  {| isModelLoaded := isModelLoaded s; errorMessage := errorMessage s;
     loadingStatus := loadingStatus s; isFirstLoad := isFirstLoad s;
     loadStartTime := now; logs := logs s;
     loadingTimer := Some (isModelLoaded s, errorMessage s) |}.

(** After a render React runs the effect again when one of its dependencies
    [isModelLoaded], [errorMessage] differs from the render before. *)
Definition commit (before : state) (now : Z) (s : state) : state :=
  if Bool.eqb (isModelLoaded before) (isModelLoaded s) &&
     String.eqb (errorMessage before) (errorMessage s)
  then s else startTimer now s.

(** The timer's callback (lines 541-545), three seconds after the effect
    ran. *)
Definition timerFires (s : state) : state :=
  match loadingTimer s with
  | Some (loaded, error) =>
      {| isModelLoaded := isModelLoaded s; errorMessage := errorMessage s;
         loadingStatus :=
           if negb loaded && negb (JS.truthy (JS.Str error))
           then "読み込み中...(少々お待ちください)" else loadingStatus s;
         isFirstLoad := isFirstLoad s; loadStartTime := loadStartTime s;
         logs := logs s; loadingTimer := None |}
  | None => s
  end.

(** [Home] once mounted, its effect having run at time [now]. *)
Definition initial (now : Z) : state :=
  {| isModelLoaded := false; errorMessage := EmptyString;
     loadingStatus := "読み込み中..."; isFirstLoad := true; loadStartTime := now;
     logs := []; loadingTimer := Some (false, EmptyString) |}.

(** What happens to [Home]: [ThreeScene] calls [props.onModelLoaded] at time
    [now] and the render that follows is committed at time [later], or the
    timer fires.  The [onModelLoaded] that [ThreeScene] calls is the
    [handleModelLoad] of the first render of [Home]: the effect that starts
    the load runs once, with the [props] of the first render, in which
    [isModelLoaded] is [false]. *)
Inductive event :=
| ModelLoad (now later : Z) (loaded : bool) (error : option string)
| TimerFires.

Definition step (e : event) (s : state) : state :=
  match e with
  | ModelLoad now later loaded error =>
      commit s later (handleModelLoad false now loaded error s)
  | TimerFires => timerFires s
  end.

Definition run (es : list event) (s : state) : state := foldl (fun s e => step e s) s es.

(** The calls of [onModelLoaded] in a history of [Home]. *)
Definition reports (es : list event) : list (bool * option string) :=
  omap (fun e => match e with
                 | ModelLoad _ _ loaded error => Some (loaded, error)
                 | TimerFires => None
                 end) es.

(** [ErrorNotice] (lines 472-491): nothing, the message, or the help text
    that names the two model files. *)
Inductive notice :=
| Message (text : string)
| Help.

Definition ErrorNotice (isVisible : bool) (message : string) : option notice :=
  if negb isVisible then None
  else Some (if JS.truthy (JS.Str message) then Message message else Help).

(** What [Home] shows (lines 574-600): the loading box with the status
    text, the error notice, and whether the dance button of [Controls] is
    disabled. *)
Record view := {
  loadingBox : option string;
  errorNotice : option notice;
  danceDisabled : bool
}.

Definition render (s : state) : view :=
  {| loadingBox :=
       if negb (isModelLoaded s) && negb (JS.truthy (JS.Str (errorMessage s)))
       then Some (loadingStatus s) else None;
     errorNotice := ErrorNotice (JS.truthy (JS.Str (errorMessage s))) (errorMessage s);
     danceDisabled := negb (isModelLoaded s) |}.


End Home.


(** ** The mount effect and the render loop (page.tsx, lines 229-368)

    [ThreeScene] beside its controller: the refs and browser resources that
    the effect, its cleanup and [animate] read and write.  The scene graph,
    the camera, the renderer and the orbit controls are THREE objects that
    the effect creates before anything here runs; drawing has no effect on
    this state. *)

Module Scene.

Record state := {
  controller : world;
  mountRef : bool;            (* [mountRef.current] is the [div] *)
  isComponentMounted : bool;  (* [isComponentMounted.current] *)
  animationRef : nat;         (* [animationRef.current] *)
  frames : list nat;          (* animation frames requested, not yet run or cancelled *)
  lastHandle : nat;           (* the last handle [requestAnimationFrame] returned *)
  canvases : nat;             (* canvas elements under the mount [div] *)
  resizeListeners : nat;      (* ["resize"] listeners on [window] *)
  cleanupPending : bool       (* the effect has returned its cleanup, not yet run *)
}.

(** [animate()] (lines 229-250).  [time] stands for what [mixer.update(delta)]
    computes.  [requestAnimationFrame] returns a new handle, never zero. *)
Definition animate (time : nat → float) (s : state) : state :=
  if negb (mountRef s) then s
  else
    {| controller := mixerUpdate time (controller s);
       mountRef := mountRef s; isComponentMounted := isComponentMounted s;
       animationRef := S (lastHandle s);
       frames := frames s ++ [S (lastHandle s)];
       lastHandle := S (lastHandle s);
       canvases := canvases s; resizeListeners := resizeListeners s;
       cleanupPending := cleanupPending s |}.

(** The effect (lines 253-325): after its guard it marks the component
    mounted, appends the renderer's canvas to the [div], calls
    [loadModels()] and [animate()], adds the resize listener, and returns
    its cleanup. *)
Definition effect (time : nat → float) (s : state) : state :=
  if negb (mountRef s) || isComponentMounted s then s
  else
    let s1 :=
      animate time
        {| controller := handle Mount (controller s);
           mountRef := mountRef s; isComponentMounted := true;
           animationRef := animationRef s; frames := frames s;
           lastHandle := lastHandle s;
           canvases := S (canvases s); resizeListeners := resizeListeners s;
           cleanupPending := cleanupPending s |} in
    {| controller := controller s1;
       mountRef := mountRef s1; isComponentMounted := isComponentMounted s1;
       animationRef := animationRef s1; frames := frames s1;
       lastHandle := lastHandle s1;
       canvases := canvases s1; resizeListeners := S (resizeListeners s1);
       cleanupPending := true |}.

(** The cleanup (lines 327-367): it removes the resize listener, cancels
    the frame whose handle is in [animationRef] unless that is zero, removes
    the canvas if the [div] is still there, runs the controller's part, and
    marks the component unmounted. *)
Definition cleanupEffect (s : state) : state :=
  {| controller := handle Unmount (controller s);
     mountRef := mountRef s; isComponentMounted := false;
     animationRef := animationRef s;
     frames :=
       if Nat.eqb (animationRef s) 0 then frames s
       else filter (λ h, h ≠ animationRef s) (frames s);
     lastHandle := lastHandle s;
     canvases := if mountRef s then pred (canvases s) else canvases s;
     resizeListeners := pred (resizeListeners s);
     cleanupPending := false |}.

(** What happens to the component.  React runs the effect, and later its
    cleanup if the effect returned one; React sets and clears [mountRef];
    the browser runs a requested frame; a load settles; the page calls
    [playDanceAnimation]. *)
Inductive event :=
| RunEffect (time : nat → float)
| RunCleanup
| Attach
| Detach
| AnimationFrame (handle : nat) (time : nat → float)
| Settled (k : nat) (o : outcome)
| Play (index : nat).

Definition with_controller (w : world) (s : state) : state :=
  {| controller := w;
     mountRef := mountRef s; isComponentMounted := isComponentMounted s;
     animationRef := animationRef s; frames := frames s; lastHandle := lastHandle s;
     canvases := canvases s; resizeListeners := resizeListeners s;
     cleanupPending := cleanupPending s |}.

Definition with_mountRef (b : bool) (s : state) : state :=
  {| controller := controller s;
     mountRef := b; isComponentMounted := isComponentMounted s;
     animationRef := animationRef s; frames := frames s; lastHandle := lastHandle s;
     canvases := canvases s; resizeListeners := resizeListeners s;
     cleanupPending := cleanupPending s |}.

Definition with_frames (fs : list nat) (s : state) : state :=
  {| controller := controller s;
     mountRef := mountRef s; isComponentMounted := isComponentMounted s;
     animationRef := animationRef s; frames := fs; lastHandle := lastHandle s;
     canvases := canvases s; resizeListeners := resizeListeners s;
     cleanupPending := cleanupPending s |}.

Definition step (e : event) (s : state) : state :=
  match e with
  | RunEffect time => if cleanupPending s then s else effect time s
  | RunCleanup => if cleanupPending s then cleanupEffect s else s
  | Attach => with_mountRef true s
  | Detach => with_mountRef false s
  | AnimationFrame h time =>
      if bool_decide (h ∈ frames s)
      then animate time (with_frames (filter (λ h', h' ≠ h) (frames s)) s)
      else s
  | Settled k o => with_controller (handle (Settle k o) (controller s)) s
  | Play index => with_controller (handle (Click index) (controller s)) s
  end.

Definition run (es : list event) (s : state) : state := foldl (fun s e => step e s) s es.

(** The component before its first effect: React has attached the [div]. *)
Definition fresh : state :=
  {| controller := initial; mountRef := true; isComponentMounted := false;
     animationRef := 0; frames := []; lastHandle := 0; canvases := 0;
     resizeListeners := 0; cleanupPending := false |}.

End Scene.

(** ** playDanceAnimation in the second variant of the page
       (page.tsx, lines 977-1009)

    The file holds a second variant of the page, in which the video's sound
    track replaces the music: the "play the music" part is commented out and
    the messages are in English. *)

Definition playSpecifiedV2 (index : nat) : M unit :=
  let animationName := danceName index in
  mixer <- gets mixerRef ;;
  actions <- gets actionsRef ;;
  match mixer, actions !! animationName with
  | Some _, Some a =>
      modify (set_currentActionRef (Some a)) ;;
      Action.reset a ;;
      Action.fadeIn a 0.5%float ;;
      Action.play a ;;
      Action.setLoop a LoopRepeat infinity ;;
      console_log ("Playing dance animation " +:+ JS.numeral index)
  | _, _ =>
      console_warn ("Dance animation " +:+ animationName +:+ " not found")
  end.

Definition playDanceAnimationV2 (index : nat) : M unit :=
  console_log ("playDanceAnimation(" +:+ JS.numeral index +:+ ") called") ;;
  stopExisting ;;
  playSpecifiedV2 index.

(** * Part II: the vocabulary of the properties *)

(** ** Reading the heap *)

Definition view_floats (h : list object) (l : loc) : option (list float) :=
  match h !! l with
  | Some (Float32Array d) => Some d
  | _ => None
  end.

Definition view_track (h : list object) (l : loc) : option track_data :=
  match h !! l with
  | Some (KeyframeTrack n t v) =>
      match view_floats h t, view_floats h v with
      | Some ts, Some vs => Some {| td_name := n; td_times := ts; td_values := vs |}
      | _, _ => None
      end
  | _ => None
  end.

Definition view_tracks (h : list object) (l : loc) : option (list track_data) :=
  match h !! l with
  | Some (JSArray items) => mapM (view_track h) items
  | _ => None
  end.

Definition view_clip (h : list object) (l : loc) : option clip_data :=
  match h !! l with
  | Some (AnimationClip n d t) =>
      match view_tracks h t with
      | Some tds => Some {| cd_name := n; cd_duration := d; cd_tracks := tds |}
      | None => None
      end
  | _ => None
  end.

(** The track objects of a clip, and the sample arrays (times and values)
    of its tracks. *)
Definition track_locs (h : list object) (clip : loc) : list loc :=
  match h !! clip with
  | Some (AnimationClip _ _ t) =>
      match h !! t with
      | Some (JSArray items) => items
      | _ => []
      end
  | _ => []
  end.

Definition arrays_of_track (h : list object) (track : loc) : list loc :=
  match h !! track with
  | Some (KeyframeTrack _ t v) => [t; v]
  | _ => []
  end.

Definition sample_arrays (h : list object) (clip : loc) : list loc :=
  concat (map (arrays_of_track h) (track_locs h clip)).

Definition action_in (h : list object) (l : loc) : option action :=
  match h !! l with
  | Some (AnimationAction st) => Some st
  | _ => None
  end.

Definition audio_in (h : list object) (l : loc) : option (string * bool * nat) :=
  match h !! l with
  | Some (Audio src loop plays) => Some (src, loop, plays)
  | _ => None
  end.

Definition action_at (w : world) (l : loc) : option action := action_in (heap w) l.

Definition audio_at (w : world) (l : loc) : option (string * bool * nat) :=
  audio_in (heap w) l.

Definition is_active (w : world) (l : loc) : option bool := a_active <$> action_at w l.

Definition is_action (w : world) (l : loc) : Prop :=
  ∃ st, heap w !! l = Some (AnimationAction st).

Definition is_audio (w : world) (l : loc) : Prop :=
  ∃ src loop plays, heap w !! l = Some (Audio src loop plays).

(** ** Bone names and renaming *)

(** The name under which the loop body emits a track named [name], if it
    emits one. *)
Definition renamed (name : string) : option string :=
  let parts := JS.split dot name in
  let boneName := JS.toString (JS.element parts 0) in
  let property := JS.element parts 1 in
  if JS.truthy (JS.get boneMapping boneName)
  then Some (JS.toString (JS.get boneMapping boneName) +:+ "." +:+ JS.toString property)
  else None.

Definition retarget_data (td : track_data) : option track_data :=
  match renamed (td_name td) with
  | Some n => Some {| td_name := n; td_times := td_times td; td_values := td_values td |}
  | None => None
  end.

Arguments renamed : simpl never.

Arguments retarget_data : simpl never.

(** The bone name of a track: the part of its name before the first dot. *)
Definition boneNameOf (name : string) : string := JS.before_first dot name.

Definition is_key (b : string) : bool := bool_decide (is_Some (boneMapping !! b)).

Definition is_value (v : string) : bool := bool_decide (v ∈ boneMappingEntries.*2).

(** Whether the loop's test [if (boneMapping[boneName])] succeeds for a
    bone name. *)
Definition mappable (boneName : string) : bool := JS.truthy (JS.get boneMapping boneName).

Arguments mappable : simpl never.

(** What the claim C1 says the output is: one renamed track for each source
    track whose bone name is a key of the table, none for the others. *)
Definition retarget_by_key (td : track_data) : option track_data :=
  match boneMapping !! boneNameOf (td_name td) with
  | Some v =>
      Some {| td_name := v +:+ "." +:+ JS.toString (JS.element (JS.split dot (td_name td)) 1);
              td_times := td_times td; td_values := td_values td |}
  | None => None
  end.

Arguments retarget_by_key : simpl never.

Definition key_tracks (d : clip_data) : list track_data :=
  filter (λ td, is_key (boneNameOf (td_name td)) = true) (cd_tracks d).

(** ** Heap growth *)

(** [grows x h h']: [h'] is at least as long as [h] and holds the same
    object as [h] at every location of [h] other than [x]. *)
Definition grows (x : loc) (h h' : list object) : Prop :=
  length h ≤ length h' ∧ ∀ l, l < length h → l ≠ x → h' !! l = h !! l.

(** [keeps h h']: every object of [h] that is not an [Array] is still there
    in [h'].  Allocation and [push] both keep the heap in this sense. *)
Definition keeps (h h' : list object) : Prop :=
  ∀ l o, h !! l = Some o → (∀ items, o ≠ JSArray items) → h' !! l = Some o.

(** [holds n h t td]: location [t] holds a track with content [td], and
    neither the track nor its sample arrays lie below location [n]. *)
Definition holds (n : nat) (h : list object) (t : loc) (td : track_data) : Prop :=
  view_track h t = Some td ∧ n ≤ t ∧ Forall (λ a, n ≤ a) (arrays_of_track h t).

(** ** Invariants *)

(** [preserves P m]: when [P] holds before [m], it holds after it, whether
    [m] returns or throws. *)
Definition preserves {A} (P : world → Prop) (m : M A) : Prop :=
  ∀ w, P w → P (after (m w)).

Definition loader_is (b : bool) (p : list task) (w : world) : Prop :=
  isLoading w = b ∧ pending w = p.

(** [steady m]: [m] changes neither [isLoading] nor the suspended
    invocations. *)
Definition steady {A} (m : M A) : Prop := ∀ b p, preserves (loader_is b p) m.

(** Either no invocation of [loadModels] is suspended and the flag is
    clear, or exactly one is and the flag is set. *)
Definition loader_inv (w : world) : Prop :=
  (isLoading w = false ∧ pending w = []) ∨
  (isLoading w = true ∧ ∃ t, pending w = [t]).

(** The refs of the controller point to objects of the right kind; actions
    are registered only once a mixer exists; different names are bound to
    different actions; and an action that is activated is the current
    one. *)
Record controller_inv (w : world) : Prop := {
  ci_current : ∀ a, currentActionRef w = Some a → is_action w a;
  ci_actions : ∀ k a, actionsRef w !! k = Some a → is_action w a;
  ci_audio : ∀ a, audioRef w = Some a → is_audio w a;
  ci_registered : ∀ k a, actionsRef w !! k = Some a → is_Some (mixerRef w);
  ci_distinct : ∀ k1 k2 a,
    actionsRef w !! k1 = Some a → actionsRef w !! k2 = Some a → k1 = k2;
  ci_single : ∀ l st,
    heap w !! l = Some (AnimationAction st) → a_active st = true →
    currentActionRef w = Some l
}.

(** Not an activated action. *)
Definition inactive (o : object) : bool :=
  match o with
  | AnimationAction st => negb (a_active st)
  | _ => true
  end.

(** No action is activated. *)
Definition idle (w : world) : Prop :=
  ∀ l st, action_at w l = Some st → a_active st = false.

(** ** The world after [playDanceAnimation] *)

(** The state of an action after [fadeOut(0.5)] and [stop()], and after
    [reset()], [fadeIn(0.5)], [play()] and [setLoop(LoopRepeat, Infinity)]. *)
Definition stopped (st : action) : action :=
  rewound (with_active false (with_fading (Some (FadeOut 0.5%float)) st)).

Definition started (st : action) : action :=
  with_loop LoopRepeat infinity
    (with_active true (with_fading (Some (FadeIn 0.5%float)) (rewound st))).

(** The world after each of the three parts of [playDanceAnimation]. *)
Definition stop_world (w : world) : world :=
  match currentActionRef w with
  | Some a =>
      match action_at w a with
      | Some st =>
          set_heap (<[a := AnimationAction (stopped st)]> (heap w))
            (set_invoked (invoked w ++ [(a, CallFadeOut 0.5%float); (a, CallStop)]) w)
      | None => w
      end
  | None => w
  end.

Definition music_world (w : world) : world :=
  match audioRef w with
  | Some a =>
      match audio_at w a with
      | Some (src, loop, plays) => set_heap (<[a := Audio src loop (S plays)]> (heap w)) w
      | None => w
      end
  | None =>
      set_heap (heap w ++ [Audio DANCE_MUSIC true 1]) (set_audioRef (Some (length (heap w))) w)
  end.

Definition found (index : nat) (w : world) : option loc :=
  match mixerRef w with
  | Some _ => actionsRef w !! danceName index
  | None => None
  end.

Definition start_calls (a : loc) : list (loc * method) :=
  [(a, CallReset); (a, CallFadeIn 0.5%float); (a, CallPlay);
   (a, CallSetLoop LoopRepeat infinity)].

Definition start_world (index : nat) (w : world) : world :=
  match found index w with
  | Some a =>
      match action_at w a with
      | Some st =>
          set_console
            (console w ++
               [ConsoleLog ("ダンスアニメーション " +:+ JS.numeral index +:+ " を再生します")])
            (set_heap (<[a := AnimationAction (started st)]> (heap w))
               (set_invoked (invoked w ++ start_calls a)
                  (set_currentActionRef (Some a) w)))
      | None => w
      end
  | None =>
      set_console
        (console w ++
           [ConsoleWarn ("ダンスアニメーション " +:+ danceName index +:+ " は見つかりません")]) w
  end.

Definition called_world (index : nat) (w : world) : world :=
  set_console
    (console w ++
       [ConsoleLog ("playDanceAnimation(" +:+ JS.numeral index +:+ ")が呼び出されました")]) w.

Definition played (index : nat) (w : world) : world :=
  start_world index (music_world (stop_world (called_world index w))).

(** The state of the action at [l] once the current action has been
    stopped. *)
Definition after_stop (w : world) (l : loc) : option action :=
  if decide (currentActionRef w = Some l) then stopped <$> action_at w l
  else action_at w l.

Definition stop_calls (w : world) : list (loc * method) :=
  match currentActionRef w with
  | Some a => [(a, CallFadeOut 0.5%float); (a, CallStop)]
  | None => []
  end.

(** ** Concrete clips and states *)

Definition scenario : clip_data :=
  {| cd_name := "dance"; cd_duration := 2%float;
     cd_tracks :=
       [ {| td_name := "hips_JNT.position"; td_times := [0%float; 1%float];
            td_values := [0%float; 0%float; 0%float; 1%float; 2%float; 3%float] |};
         {| td_name := "tail_JNT.rotation"; td_times := [0%float];
            td_values := [0%float; 0%float; 0%float; 1%float] |} ] |}.

Definition sample (name : string) : track_data :=
  {| td_name := name; td_times := [0%float; 1%float];
     td_values := [0%float; 0%float; 0%float; 1%float; 2%float; 3%float] |}.

Definition dance (names : list string) : clip_data :=
  {| cd_name := "dance"; cd_duration := 1%float; cd_tracks := map sample names |}.

Definition malformed : clip_data :=
  dance ["hips_JNT"; "spine_JNT.position"; "head_JNT.rotation.x"].

(** The world and the clip location after loading [d] into [initial]. *)
Definition loaded (d : clip_data) : world * loc :=
  match loadClip d initial with
  | Ok clip w => (w, clip)
  | Throw _ w => (w, 0)
  end.

(** Load [d] into the heap of a freshly mounted component, retarget it,
    and read back the result and the console. *)
Definition retargeted (d : clip_data) : option (clip_data * list entry) :=
  match loadClip d initial with
  | Ok clip w =>
      match retargetAnimation clip w with
      | Ok clip' w' =>
          match view_clip (heap w') clip' with
          | Some out => Some (out, console w')
          | None => None
          end
      | Throw _ _ => None
      end
  | Throw _ _ => None
  end.

Definition retargeted_names (d : clip_data) : option (list string) :=
  match retargeted d with
  | Some (out, _) => Some (map td_name (cd_tracks out))
  | None => None
  end.

(** A component whose character file (no clips of its own) and dance file
    (two clips) have both been loaded. *)
Definition loaded_world : world :=
  run [Mount; Settle 0 (Loaded {| g_animations := [] |});
       Settle 0 (Loaded {| g_animations := [scenario; scenario] |})] initial.

Definition loading_world : world := run [Mount] initial.

(** ** The table as a property read sees it *)

(** Every name for which [boneMapping[name]] is not [undefined], with the
    value read: the table's own entries, then the members that the object
    literal inherits. *)
Definition lookup_table : list (string * JS.value) :=
  map (λ kv, (kv.1, JS.Str kv.2)) boneMappingEntries ++ JS.ObjectPrototype.

(** [parts.join(".")] *)
Fixpoint join (parts : list string) : string :=
  match parts with
  | [] => EmptyString
  | p :: ps =>
      match ps with
      | [] => p
      | _ :: _ => p +:+ "." +:+ join ps
      end
  end.

(** A track name of the usual form [bone.property]: exactly one dot. *)
Definition two_parts (name : string) : Prop := length (JS.split dot name) = 2.

(** The content of the clip that [retargetAnimation] returns for a clip of
    content [d]. *)
Definition retarget_clip (d : clip_data) : clip_data :=
  {| cd_name := cd_name d; cd_duration := cd_duration d;
     cd_tracks := omap retarget_data (cd_tracks d) |}.

(** ** Registered actions *)


(** The content of the clip that the action registered under [name] was
    made for. *)
Definition clip_of (w : world) (name : string) : option clip_data :=
  match actionsRef w !! name with
  | Some a =>
      match action_at w a with
      | Some st => view_clip (heap w) (a_clip st)
      | None => None
      end
  | None => None
  end.



(** ** What no event undoes *)

(** Objects that hold animation data or structure, as opposed to the
    playback state of an action or of the audio element. *)
Definition is_data (o : object) : bool :=
  match o with
  | AnimationAction _ => false
  | Audio _ _ _ => false
  | _ => true
  end.

(** [evolves w w']: [w'] can come after [w].  Data objects are the same;
    an action is still an action, for the same clip and mixer; an audio
    element is still one, with the same source or none, played at least as
    often; the console, the calls on actions and the calls of
    [onModelLoaded] have only grown; the mixer, the model, the audio element
    and the registered names are still there. *)
Record evolves (w w' : world) : Prop := {
  ev_data : ∀ l o, heap w !! l = Some o → is_data o = true → heap w' !! l = Some o;
  ev_action : ∀ l st,
    action_at w l = Some st →
    ∃ st', action_at w' l = Some st' ∧ a_clip st' = a_clip st ∧ a_mixer st' = a_mixer st;
  ev_audio : ∀ l src lp n,
    audio_at w l = Some (src, lp, n) →
    ∃ src' lp' n',
      audio_at w' l = Some (src', lp', n') ∧ (src' = src ∨ src' = EmptyString) ∧ n ≤ n';
  ev_console : console w `prefix_of` console w';
  ev_invoked : invoked w `prefix_of` invoked w';
  ev_modelLoaded : modelLoaded w `prefix_of` modelLoaded w';
  ev_mixerRef : is_Some (mixerRef w) → is_Some (mixerRef w');
  ev_modelRef : is_Some (modelRef w) → is_Some (modelRef w');
  ev_audioRef : ∀ a, audioRef w = Some a → audioRef w' = Some a;
  ev_actionsRef : ∀ name, is_Some (actionsRef w !! name) → is_Some (actionsRef w' !! name)
}.

(** [calm m]: running [m] undoes nothing. *)
Definition calm {A} (m : M A) : Prop := ∀ w, evolves w (after (m w)).

(** ** Ready to play *)



(** ** Home *)

(** The timer's callback sees the values that [Home] shows. *)
Definition timer_inv (s : Home.state) : Prop :=
  ∀ loaded error,
    Home.loadingTimer s = Some (loaded, error) →
    loaded = Home.isModelLoaded s ∧ error = Home.errorMessage s.

(** ** The render loop *)

(** At most the frame whose handle is in [animationRef] is pending; outside
    an effect and its cleanup no frame is pending and no resize listener is
    left; [isComponentMounted] is set exactly between an effect and its
    cleanup; the controller is in a state that [reachable] describes. *)
Record scene_inv (s : Scene.state) : Prop := {
  si_frames :
    Scene.frames s = [] ∨
    (Scene.frames s = [Scene.animationRef s] ∧ Scene.animationRef s ≠ 0);
  si_idle :
    Scene.cleanupPending s = false → Scene.frames s = [] ∧ Scene.resizeListeners s = 0;
  si_mounted : Scene.cleanupPending s = true → Scene.resizeListeners s = 1;
  si_flag : Scene.isComponentMounted s = Scene.cleanupPending s;
  si_controller : reachable (Scene.controller s)
}.

(** While the [div] stays attached it holds the canvas of the running
    effect and no other. *)
Definition canvas_inv (s : Scene.state) : Prop :=
  Scene.mountRef s = true ∧
  Scene.canvases s = if Scene.cleanupPending s then 1 else 0.

(** The world after [playDanceAnimationV2]. *)
Definition called_worldV2 (index : nat) (w : world) : world :=
  set_console
    (console w ++ [ConsoleLog ("playDanceAnimation(" +:+ JS.numeral index +:+ ") called")]) w.

Definition start_worldV2 (index : nat) (w : world) : world :=
  match found index w with
  | Some a =>
      match action_at w a with
      | Some st =>
          set_console
            (console w ++ [ConsoleLog ("Playing dance animation " +:+ JS.numeral index)])
            (set_heap (<[a := AnimationAction (started st)]> (heap w))
               (set_invoked (invoked w ++ start_calls a)
                  (set_currentActionRef (Some a) w)))
      | None => w
      end
  | None =>
      set_console
        (console w ++ [ConsoleWarn ("Dance animation " +:+ danceName index +:+ " not found")])
        w
  end.

Definition playedV2 (index : nat) (w : world) : world :=
  start_worldV2 index (stop_world (called_worldV2 index w)).

(** * Part III: lemmas *)

(** ** Running computations *)

Lemma bind_Ok {A B} (m : M A) (k : A → M B) w a w' :
  m w = Ok a w' → bind m k w = k a w'.
Proof. intros H. unfold bind. by rewrite H. Qed.

Lemma alloc_run o w :
  alloc o w = Ok (length (heap w)) (set_heap (heap w ++ [o]) w).
Proof. reflexivity. Qed.

Lemma readFloats_run l d w :
  heap w !! l = Some (Float32Array d) → readFloats l w = Ok d w.
Proof. intros H. unfold readFloats. by rewrite H. Qed.

Lemma readItems_run l items w :
  heap w !! l = Some (JSArray items) → readItems l w = Ok items w.
Proof. intros H. unfold readItems. by rewrite H. Qed.

Lemma readTrack_run l n t v w :
  heap w !! l = Some (KeyframeTrack n t v) → readTrack l w = Ok (n, t, v) w.
Proof. intros H. unfold readTrack. by rewrite H. Qed.

Lemma readClip_run l n d t w :
  heap w !! l = Some (AnimationClip n d t) → readClip l w = Ok (n, d, t) w.
Proof. intros H. unfold readClip. by rewrite H. Qed.

Lemma readAction_run l st w :
  heap w !! l = Some (AnimationAction st) → readAction l w = Ok st w.
Proof. intros H. unfold readAction. by rewrite H. Qed.

Lemma lookup_snoc_new {A} (l : list A) (x : A) : (l ++ [x]) !! length l = Some x.
Proof. by apply list_lookup_middle. Qed.

(** ** Views and heap growth *)

Lemma view_floats_inv h l d :
  view_floats h l = Some d → h !! l = Some (Float32Array d).
Proof.
  unfold view_floats. destruct (h !! l) as [[]|]; try discriminate.
  by intros [= ->].
Qed.

Lemma view_track_inv h l td :
  view_track h l = Some td →
  ∃ t v, h !! l = Some (KeyframeTrack (td_name td) t v) ∧
         h !! t = Some (Float32Array (td_times td)) ∧
         h !! v = Some (Float32Array (td_values td)).
Proof.
  unfold view_track. destruct (h !! l) as [[]|] eqn:E; try discriminate.
  destruct (view_floats h times) eqn:Et; try discriminate.
  destruct (view_floats h values) eqn:Ev; try discriminate.
  intros [= <-]. simpl. exists times, values.
  split_and!; auto using view_floats_inv.
Qed.

Lemma view_track_intro h l n t v ts vs :
  h !! l = Some (KeyframeTrack n t v) →
  h !! t = Some (Float32Array ts) →
  h !! v = Some (Float32Array vs) →
  view_track h l = Some {| td_name := n; td_times := ts; td_values := vs |}.
Proof.
  intros Hl Ht Hv. unfold view_track, view_floats. by rewrite Hl, Ht, Hv.
Qed.

Lemma grows_refl x h : grows x h h.
Proof. split; [lia | done]. Qed.

Lemma grows_trans x h1 h2 h3 : grows x h1 h2 → grows x h2 h3 → grows x h1 h3.
Proof.
  intros [L1 K1] [L2 K2]. split; [lia |].
  intros l Hl Hx. rewrite K2 by (done || lia). by apply K1.
Qed.

Lemma grows_app x h k : grows x h (h ++ k).
Proof.
  split; [rewrite length_app; lia |].
  intros l Hl _. by apply lookup_app_l.
Qed.

Lemma grows_insert x h o : grows x h (<[x := o]> h).
Proof.
  split; [by rewrite length_insert |].
  intros l _ Hx. by apply list_lookup_insert_ne.
Qed.

Lemma grows_lookup x h h' l o :
  grows x h h' → h !! l = Some o → l ≠ x → h' !! l = Some o.
Proof.
  intros [_ K] Hl Hx. rewrite K; [done | | done]. by eapply lookup_lt_Some.
Qed.

Lemma view_track_app h k l td :
  view_track h l = Some td → view_track (h ++ k) l = Some td.
Proof.
  intros V. destruct (view_track_inv _ _ _ V) as (t & v & Hl & Ht & Hv).
  destruct td as [n ts vs]. simpl in *.
  apply view_track_intro with t v; by apply lookup_app_l_Some.
Qed.

(** A heap that grew without touching its first [n] locations is an
    extension of what it was. *)
Lemma grows_extension x h h' :
  grows x h h' → length h ≤ x → ∃ k, h' = h ++ k.
Proof.
  intros [L K] Hx. exists (drop (length h) h').
  rewrite <- (take_drop (length h) h') at 1. f_equal.
  apply list_eq. intros i. destruct (decide (i < length h)) as [Hi|Hi].
  - rewrite lookup_take_lt by done. apply K; lia.
  - rewrite lookup_take_ge by lia. symmetry. apply lookup_ge_None. lia.
Qed.

Lemma keeps_prefix h h' : h `prefix_of` h' → keeps h h'.
Proof. intros P l o Hl _. by eapply prefix_lookup_Some. Qed.

Lemma keeps_grows x items h h' :
  grows x h h' → h !! x = Some (JSArray items) → keeps h h'.
Proof.
  intros G Hx l o Hl Ho. eapply grows_lookup; [exact G | done |].
  intros E. rewrite E, Hx in Hl. injection Hl as <-. by eapply Ho.
Qed.

Lemma holds_keeps n h h' t td : keeps h h' → holds n h t td → holds n h' t td.
Proof.
  intros K (V & Ht & Ha).
  destruct (view_track_inv _ _ _ V) as (ti & va & Hl & Hti & Hva).
  destruct td as [name ts vs]; simpl in *.
  assert (h' !! t = Some (KeyframeTrack name ti va)) as Hl' by (apply K; done).
  assert (h' !! ti = Some (Float32Array ts)) as Hti' by (apply K; done).
  assert (h' !! va = Some (Float32Array vs)) as Hva' by (apply K; done).
  split_and!; [by eapply view_track_intro | done |].
  unfold arrays_of_track in *. by rewrite Hl in Ha; rewrite Hl'.
Qed.

Lemma holds_view n h ts tds :
  Forall2 (holds n h) ts tds → mapM (view_track h) ts = Some tds.
Proof.
  intros H. apply mapM_Some. eapply Forall2_impl; [exact H |].
  by intros t td (V & _).
Qed.

Lemma set_heap_twice h1 h2 w : set_heap h2 (set_heap h1 w) = set_heap h2 w.
Proof. reflexivity. Qed.

Lemma set_heap_same w : set_heap (heap w) w = w.
Proof. by destruct w. Qed.

(** ** The deep copy made by [parse(toJSON(clip))] *)

Lemma cloneTrack_spec n w t td :
  view_track (heap w) t = Some td → n ≤ length (heap w) →
  ∃ t' h',
    THREE.cloneTrack t w = Ok t' (set_heap h' w) ∧
    heap w `prefix_of` h' ∧ holds n h' t' td.
Proof.
  intros V Hn. destruct (view_track_inv _ _ _ V) as (ti & va & Hl & Hti & Hva).
  destruct td as [name ts vs]; simpl in *.
  pose (k := [Float32Array ts; Float32Array vs;
              KeyframeTrack name (length (heap w)) (length (heap w) + 1)]).
  exists (length (heap w) + 2), (heap w ++ k).
  assert (∀ j o, k !! j = Some o → (heap w ++ k) !! (length (heap w) + j) = Some o)
    as Hnew by (intros j o Hj; by rewrite lookup_app_r, Nat.add_comm, Nat.add_sub by lia).
  split_and!.
  - unfold THREE.cloneTrack.
    rewrite (bind_Ok _ _ _ _ _ (readTrack_run _ _ _ _ _ Hl)); cbv beta iota.
    rewrite (bind_Ok _ _ _ _ _ (readFloats_run _ _ _ Hti)).
    rewrite (bind_Ok _ _ _ _ _ (readFloats_run _ _ _ Hva)).
    rewrite (bind_Ok _ _ _ _ _ (alloc_run _ _)).
    rewrite (bind_Ok _ _ _ _ _ (alloc_run _ _)).
    rewrite alloc_run. cbn [heap set_heap].
    rewrite !length_app, <- !app_assoc. cbn [length app].
    rewrite !set_heap_twice.
    by replace (length (heap w) + 1 + 1) with (length (heap w) + 2) by lia.
  - by apply prefix_app_r.
  - split_and!.
    + apply view_track_intro with (length (heap w)) (length (heap w) + 1).
      * by apply (Hnew 2).
      * rewrite <- (Nat.add_0_r (length (heap w))) at 1. by apply (Hnew 0).
      * by apply (Hnew 1).
    + lia.
    + unfold arrays_of_track. rewrite (Hnew 2 _ eq_refl).
      repeat constructor; lia.
Qed.

Lemma cloneTracks_spec n ts : ∀ tds w,
  Forall2 (λ t td, view_track (heap w) t = Some td) ts tds →
  n ≤ length (heap w) →
  ∃ ts' h',
    THREE.cloneTracks ts w = Ok ts' (set_heap h' w) ∧
    heap w `prefix_of` h' ∧ Forall2 (holds n h') ts' tds.
Proof.
  induction ts as [|t ts IH]; intros tds w F Hn.
  - apply Forall2_nil_inv_l in F as ->. exists [], (heap w).
    split_and!; [by rewrite set_heap_same | done | constructor].
  - apply Forall2_cons_inv_l in F as (td & tds' & V & F & ->).
    destruct (cloneTrack_spec n w t td V Hn) as (t' & h1 & R1 & P1 & H1).
    destruct (IH tds' (set_heap h1 w)) as (ts' & h2 & R2 & P2 & H2).
    + simpl. eapply Forall2_impl; [exact F |].
      intros x y Vx. destruct (view_track_inv _ _ _ Vx) as (a & b & ? & ? & ?).
      destruct y; simpl in *.
      eapply view_track_intro; by eapply prefix_lookup_Some.
    + simpl. apply prefix_length in P1. lia.
    + simpl in *. exists (t' :: ts'), h2. split_and!.
      * simpl. rewrite (bind_Ok _ _ _ _ _ R1), (bind_Ok _ _ _ _ _ R2). done.
      * by etrans.
      * constructor; [| done]. eapply holds_keeps; [| exact H1]. by apply keeps_prefix.
Qed.

Lemma parse_toJSON_spec w c d :
  view_clip (heap w) c = Some d →
  ∃ c' tracks items h',
    THREE.parse_toJSON c w = Ok c' (set_heap h' w) ∧
    heap w `prefix_of` h' ∧
    h' !! c' = Some (AnimationClip (cd_name d) (cd_duration d) tracks) ∧
    h' !! tracks = Some (JSArray items) ∧
    Forall2 (holds (length (heap w)) h') items (cd_tracks d).
Proof.
  unfold view_clip, view_tracks.
  destruct (heap w !! c) as [[]|] eqn:Hc; try discriminate.
  destruct (heap w !! tracks) as [[]|] eqn:Ht; try discriminate.
  destruct (mapM _ items) as [tds|] eqn:Hm; try discriminate.
  intros [= <-]. simpl.
  apply mapM_Some in Hm.
  destruct (cloneTracks_spec (length (heap w)) items tds w Hm) as (ts' & h1 & R1 & P1 & H1);
    [lia |].
  exists (length h1 + 1), (length h1), ts',
    (h1 ++ [JSArray ts'; AnimationClip name duration (length h1)]).
  split_and!.
  - unfold THREE.parse_toJSON.
    rewrite (bind_Ok _ _ _ _ _ (readClip_run _ _ _ _ _ Hc)).
    rewrite (bind_Ok _ _ _ _ _ (readItems_run _ _ _ Ht)).
    rewrite (bind_Ok _ _ _ _ _ R1).
    unfold bind, alloc. simpl. rewrite length_app, <- app_assoc. done.
  - etrans; [exact P1 |]. by apply prefix_app_r.
  - rewrite lookup_app_r by lia. by replace (length h1 + 1 - length h1) with 1 by lia.
  - rewrite lookup_app_r by lia. by rewrite Nat.sub_diag.
  - eapply Forall2_impl; [exact H1 |]. intros t td. apply holds_keeps.
    apply keeps_prefix. by apply prefix_app_r.
Qed.

(** ** The retargeting loop *)

Lemma renamed_truthy name :
  renamed name =
    if JS.truthy (JS.get boneMapping (JS.toString (JS.element (JS.split dot name) 0)))
    then Some (JS.toString (JS.get boneMapping (JS.toString (JS.element (JS.split dot name) 0)))
               +:+ "." +:+ JS.toString (JS.element (JS.split dot name) 1))
    else None.
Proof. reflexivity. Qed.

Lemma retargetTrack_spec n w nt acc t td :
  heap w !! nt = Some (JSArray acc) →
  holds n (heap w) t td →
  n ≤ length (heap w) →
  ∃ h' new,
    retargetTrack nt t w = Ok tt (set_heap h' w) ∧
    grows nt (heap w) h' ∧
    h' !! nt = Some (JSArray (acc ++ new)) ∧
    Forall2 (holds n h') new (option_list (retarget_data td)).
Proof.
  intros Hnt (V & Ht & Ha) Hn.
  destruct (view_track_inv _ _ _ V) as (ti & va & Hl & Hti & Hva).
  destruct td as [name ts vs]; cbn [td_name td_times td_values] in *.
  unfold retargetTrack, retarget_data; cbn [td_name td_times td_values].
  rewrite (bind_Ok _ _ _ _ _ (readTrack_run _ _ _ _ _ Hl)); cbv beta iota zeta.
  rewrite renamed_truthy.
  destruct (JS.truthy _) eqn:Htruthy.
  - set (name' := _ +:+ "." +:+ _).
    pose (h1 := heap w ++ [Float32Array vs; KeyframeTrack name' ti (length (heap w))]).
    assert (nt < length (heap w)) as Hlt by (by eapply lookup_lt_Some).
    assert (nt < length h1) as Hlt1 by (unfold h1; rewrite length_app; lia).
    exists (<[nt := JSArray (acc ++ [length (heap w) + 1])]> h1), [length (heap w) + 1].
    assert (grows nt (heap w) (<[nt := JSArray (acc ++ [length (heap w) + 1])]> h1)) as G.
    { eapply grows_trans; [apply grows_app | apply grows_insert]. }
    assert (h1 !! (length (heap w)) = Some (Float32Array vs)) as Hvs.
    { unfold h1. rewrite lookup_app_r by lia. by rewrite Nat.sub_diag. }
    assert (h1 !! (length (heap w) + 1) = Some (KeyframeTrack name' ti (length (heap w)))) as Hnew.
    { unfold h1. rewrite lookup_app_r by lia.
      by replace (length (heap w) + 1 - length (heap w)) with 1 by lia. }
    split_and!.
    + unfold THREE.newKeyframeTrack, push.
      erewrite (bind_Ok (THREE.slice va)).
      2:{ unfold THREE.slice.
          rewrite (bind_Ok _ _ _ _ _ (readFloats_run _ _ _ Hva)). apply alloc_run. }
      rewrite (bind_Ok _ _ _ _ _ (alloc_run _ _)). cbn [heap set_heap].
      rewrite set_heap_twice.
      erewrite bind_Ok.
      2:{ apply readItems_run. cbn [heap set_heap].
          rewrite <- app_assoc. by apply lookup_app_l_Some. }
      unfold store, modify. cbn [heap set_heap]. rewrite set_heap_twice.
      rewrite length_app, <- app_assoc. done.
    + done.
    + by apply list_lookup_insert_eq.
    + constructor; [| constructor]. split_and!.
      * apply view_track_intro with ti (length (heap w)).
        -- rewrite list_lookup_insert_ne by lia. done.
        -- rewrite list_lookup_insert_ne by (intros ->; congruence).
           unfold h1. by apply lookup_app_l_Some.
        -- rewrite list_lookup_insert_ne by lia. done.
      * lia.
      * unfold arrays_of_track. rewrite list_lookup_insert_ne by lia. rewrite Hnew.
        unfold arrays_of_track in Ha. rewrite Hl in Ha.
        apply Forall_cons in Ha as [Hti' _].
        repeat constructor; lia.
  - exists (heap w), []. split_and!.
    + by rewrite set_heap_same.
    + apply grows_refl.
    + by rewrite app_nil_r.
    + constructor.
Qed.

Lemma omap_cons_app {A B} (f : A → option B) x xs :
  omap f (x :: xs) = option_list (f x) ++ omap f xs.
Proof. simpl. by destruct (f x). Qed.

Lemma retarget_loop n nt items : ∀ tds i w acc,
  heap w !! nt = Some (JSArray acc) →
  Forall2 (holds n (heap w)) items tds →
  n ≤ length (heap w) →
  ∃ h' new,
    forEachFrom i items (λ track _, retargetTrack nt track) w = Ok tt (set_heap h' w) ∧
    grows nt (heap w) h' ∧
    h' !! nt = Some (JSArray (acc ++ new)) ∧
    Forall2 (holds n h') new (omap retarget_data tds).
Proof.
  induction items as [|t items IH]; intros tds i w acc Hnt F Hn.
  - apply Forall2_nil_inv_l in F as ->. exists (heap w), [].
    split_and!; [by rewrite set_heap_same | apply grows_refl | by rewrite app_nil_r | constructor].
  - apply Forall2_cons_inv_l in F as (td & tds' & H & F & ->).
    destruct (retargetTrack_spec n w nt acc t td Hnt H Hn) as (h1 & new1 & R1 & G1 & N1 & F1).
    assert (keeps (heap w) h1) as K1 by (by eapply keeps_grows).
    destruct (IH tds' (S i) (set_heap h1 w) (acc ++ new1)) as (h2 & new2 & R2 & G2 & N2 & F2).
    + exact N1.
    + cbn [heap set_heap]. eapply Forall2_impl; [exact F |]. intros ? ?. by apply holds_keeps.
    + cbn [heap set_heap]. destruct G1. lia.
    + cbn [heap set_heap] in *. rewrite set_heap_twice in R2.
      exists h2, (new1 ++ new2). split_and!.
      * cbn [forEachFrom]. rewrite (bind_Ok _ _ _ _ _ R1). exact R2.
      * by eapply grows_trans.
      * rewrite app_assoc. exact N2.
      * rewrite omap_cons_app. apply Forall2_app; [| exact F2].
        eapply Forall2_impl; [exact F1 |]. intros ? ?. apply holds_keeps.
        by eapply keeps_grows.
Qed.

(** What [retargetAnimation] does on a heap where [clip] is a clip with
    content [d]: it returns normally; the heap is the old heap followed by
    new objects, and nothing else of the world changes; the returned
    location holds a clip with the name and duration of [d], whose tracks
    are the renamed source tracks for which [renamed] gives a name, in
    source order; the new clip, its tracks and their sample arrays are all
    new objects. *)
Lemma retargetAnimation_spec w clip d :
  view_clip (heap w) clip = Some d →
  ∃ clip' k,
    retargetAnimation clip w = Ok clip' (set_heap (heap w ++ k) w) ∧
    view_clip (heap w ++ k) clip' =
      Some {| cd_name := cd_name d; cd_duration := cd_duration d;
              cd_tracks := omap retarget_data (cd_tracks d) |} ∧
    length (heap w) ≤ clip' ∧
    Forall (λ t, length (heap w) ≤ t) (track_locs (heap w ++ k) clip') ∧
    Forall (λ a, length (heap w) ≤ a) (sample_arrays (heap w ++ k) clip').
Proof.
  intros V.
  destruct (parse_toJSON_spec w clip d V) as (c1 & tr1 & items & h1 & R1 & P1 & Hc1 & Htr1 & F1).
  pose proof (prefix_length _ _ P1) as L1.
  assert (heap w !! clip = Some (AnimationClip (cd_name d) (cd_duration d)
            (match heap w !! clip with Some (AnimationClip _ _ t) => t | _ => 0 end))) as Hclip.
  { unfold view_clip in V. destruct (heap w !! clip) as [[]|]; try discriminate.
    destruct (view_tracks _ _); try discriminate. by injection V as <-. }
  set (tr0 := match heap w !! clip with Some (AnimationClip _ _ t) => t | _ => 0 end) in Hclip.
  assert (clip < length (heap w)) as Hclip_lt by (by eapply lookup_lt_Some).
  pose (nt := length h1).
  pose (h2 := h1 ++ [JSArray []]).
  assert (h2 !! nt = Some (JSArray [])) as Hnt by apply lookup_snoc_new.
  assert (keeps h1 h2) as K12 by (apply keeps_prefix; by apply prefix_app_r).
  destruct (retarget_loop (length (heap w)) nt items (cd_tracks d) 0 (set_heap h2 w) [])
    as (h3 & new & R3 & G3 & N3 & F3).
  { exact Hnt. }
  { cbn [heap set_heap]. eapply Forall2_impl; [exact F1 |]. intros ? ?. by apply holds_keeps. }
  { cbn [heap set_heap]. unfold h2. rewrite length_app. lia. }
  cbn [heap set_heap] in *. rewrite set_heap_twice in R3.
  assert (length h2 ≤ length h3) as L3 by (by destruct G3).
  assert (length h2 = S (length h1)) as L2 by (unfold h2; rewrite length_app; simpl; lia).
  pose (h4 := h3 ++ [AnimationClip (cd_name d) (cd_duration d) nt]).
  assert (grows nt (heap w) h4) as G4.
  { eapply grows_trans; [| apply grows_app].
    eapply grows_trans; [| exact G3].
    destruct P1 as [k1 ->]. unfold h2. rewrite <- app_assoc. apply grows_app. }
  destruct (grows_extension nt (heap w) h4 G4) as [k Hk]; [unfold nt; lia |].
  exists (length h3), k. rewrite <- Hk.
  assert (h4 !! nt = Some (JSArray new)) as Hnt4.
  { unfold h4. apply lookup_app_l_Some. done. }
  assert (h4 !! length h3 = Some (AnimationClip (cd_name d) (cd_duration d) nt)) as Hc4
    by apply lookup_snoc_new.
  assert (Forall2 (holds (length (heap w)) h4) new (omap retarget_data (cd_tracks d))) as F4.
  { eapply Forall2_impl; [exact F3 |]. intros ? ?. apply holds_keeps.
    apply keeps_prefix. by apply prefix_app_r. }
  split_and!.
  - unfold retargetAnimation.
    rewrite (bind_Ok _ _ _ _ _ R1).
    rewrite (bind_Ok _ _ _ _ _ (alloc_run _ _)). cbn [heap set_heap].
    rewrite set_heap_twice. fold h2. fold nt.
    erewrite bind_Ok.
    2:{ apply readClip_run. cbn [heap set_heap]. unfold h2. by apply lookup_app_l_Some. }
    cbv beta iota.
    erewrite bind_Ok.
    2:{ apply readItems_run. cbn [heap set_heap]. unfold h2. by apply lookup_app_l_Some. }
    unfold forEach. rewrite (bind_Ok _ _ _ _ _ R3).
    erewrite bind_Ok.
    2:{ apply readClip_run. cbn [heap set_heap].
        eapply grows_lookup; [exact G3 | | unfold nt; lia].
        unfold h2. apply lookup_app_l_Some. by eapply prefix_lookup_Some. }
    cbv beta iota. unfold THREE.newAnimationClip. rewrite alloc_run.
    cbn [heap set_heap]. by rewrite set_heap_twice.
  - unfold view_clip, view_tracks. rewrite Hc4, Hnt4.
    by rewrite (holds_view _ _ _ _ F4).
  - lia.
  - unfold track_locs. rewrite Hc4, Hnt4.
    apply Forall_forall. intros t Ht.
    apply list_elem_of_lookup in Ht as [j Hj].
    destruct (Forall2_lookup_l _ _ _ _ _ F4 Hj) as (td & _ & (_ & Hle & _)). done.
  - unfold sample_arrays, track_locs. rewrite Hc4, Hnt4.
    apply Forall_concat, Forall_fmap, Forall_forall. intros t Ht. simpl.
    apply list_elem_of_lookup in Ht as [j Hj].
    destruct (Forall2_lookup_l _ _ _ _ _ F4 Hj) as (td & _ & (_ & _ & Harr)). done.
Qed.

(** ** Bone names and the table *)

Lemma split_nonempty sep s : JS.split sep s ≠ [].
Proof. destruct s as [|c s]; simpl; [done |]. destruct (Ascii.eqb c sep); [done |]. by destruct (JS.split sep s). Qed.

Lemma split_first sep s :
  JS.toString (JS.element (JS.split sep s) 0) = JS.before_first sep s.
Proof.
  induction s as [|c s IH]; simpl; [done |].
  destruct (Ascii.eqb c sep); [done |].
  unfold JS.element in *.
  destruct (JS.split sep s) as [|p ps] eqn:E; [by apply split_nonempty in E |].
  simpl in *. by rewrite IH.
Qed.

Lemma boneMapping_entry k v : boneMapping !! k = Some v → (k, v) ∈ boneMappingEntries.
Proof. intros H. by apply elem_of_list_to_map_2 in H. Qed.

Lemma boneMapping_values_truthy :
  Forall (λ kv, JS.truthy (JS.Str kv.2) = true) boneMappingEntries.
Proof. repeat constructor. Qed.

Lemma boneMapping_values_dotless :
  Forall (λ kv, JS.before_first dot kv.2 = kv.2) boneMappingEntries.
Proof. repeat constructor. Qed.

(** A bone name that is a key of the table passes the loop's test, and the
    emitted name is the table entry, a dot, and the second piece. *)
Lemma renamed_key name v :
  boneMapping !! boneNameOf name = Some v →
  renamed name = Some (v +:+ "." +:+ JS.toString (JS.element (JS.split dot name) 1)).
Proof.
  intros H. rewrite renamed_truthy, split_first. unfold JS.get.
  unfold boneNameOf in H. rewrite H.
  apply boneMapping_entry in H.
  pose proof (proj1 (Forall_forall _ _) boneMapping_values_truthy _ H) as T.
  change (JS.truthy (JS.Str v) = true) in T. by rewrite T.
Qed.

(** A bone name that is neither a key of the table nor the name of a member
    of [Object.prototype] fails the loop's test. *)
Lemma renamed_unmapped name :
  boneMapping !! boneNameOf name = None →
  JS.inherited (boneNameOf name) = false →
  renamed name = None.
Proof.
  intros H I. rewrite renamed_truthy, split_first. unfold JS.get.
  unfold boneNameOf, JS.inherited in *. rewrite H.
  by destruct (JS.assoc _ _).
Qed.

Lemma sample_arrays_bound h clip d :
  view_clip h clip = Some d → Forall (λ a, a < length h) (sample_arrays h clip).
Proof.
  unfold view_clip, view_tracks, sample_arrays, track_locs.
  destruct (h !! clip) as [[]|] eqn:Hc; try discriminate.
  destruct (h !! tracks) as [[]|] eqn:Ht; try discriminate.
  destruct (mapM _ items) as [tds|] eqn:Hm; try discriminate.
  intros _. apply mapM_Some in Hm.
  apply Forall_concat, Forall_fmap, Forall_forall. intros t Hin. simpl.
  apply list_elem_of_lookup in Hin as [j Hj].
  destruct (Forall2_lookup_l _ _ _ _ _ Hm Hj) as (td & _ & V).
  destruct (view_track_inv _ _ _ V) as (ti & va & Hl & Hti & Hva).
  unfold arrays_of_track. rewrite Hl.
  repeat constructor; by eapply lookup_lt_Some.
Qed.

Lemma view_clip_app h k clip d :
  view_clip h clip = Some d → view_clip (h ++ k) clip = Some d.
Proof.
  unfold view_clip, view_tracks.
  destruct (h !! clip) as [[]|] eqn:Hc; try discriminate.
  destruct (h !! tracks) as [[]|] eqn:Ht; try discriminate.
  destruct (mapM _ items) as [tds|] eqn:Hm; try discriminate.
  intros [= <-].
  rewrite (lookup_app_l_Some _ _ _ _ Hc), (lookup_app_l_Some _ _ _ _ Ht).
  apply mapM_Some in Hm.
  assert (mapM (view_track (h ++ k)) items = Some tds) as ->; [| done].
  apply mapM_Some. eapply Forall2_impl; [exact Hm |].
  intros t td V. by apply view_track_app.
Qed.

Lemma track_locs_app h k clip d :
  view_clip h clip = Some d → track_locs (h ++ k) clip = track_locs h clip.
Proof.
  unfold view_clip, view_tracks, track_locs.
  destruct (h !! clip) as [[]|] eqn:Hc; try discriminate.
  destruct (h !! tracks) as [[]|] eqn:Ht; try discriminate.
  intros _.
  by rewrite (lookup_app_l_Some _ _ _ _ Hc), (lookup_app_l_Some _ _ _ _ Ht).
Qed.

Lemma sample_arrays_app h k clip d :
  view_clip h clip = Some d → sample_arrays (h ++ k) clip = sample_arrays h clip.
Proof.
  intros V. unfold sample_arrays. rewrite (track_locs_app h k clip d V).
  f_equal. apply map_ext_in. intros t Hin.
  revert V Hin. unfold view_clip, view_tracks, track_locs.
  destruct (h !! clip) as [[]|] eqn:Hc; try discriminate.
  destruct (h !! tracks) as [[]|] eqn:Ht; try discriminate.
  destruct (mapM _ items) as [tds|] eqn:Hm; try discriminate.
  intros _ Hin. apply mapM_Some in Hm.
  apply list_elem_of_In, list_elem_of_lookup in Hin as [j Hj].
  destruct (Forall2_lookup_l _ _ _ _ _ Hm Hj) as (td & _ & V).
  destruct (view_track_inv _ _ _ V) as (ti & va & Hl & _).
  unfold arrays_of_track. by rewrite (lookup_app_l_Some _ _ _ _ Hl), Hl.
Qed.



Lemma retarget_data_by_key td :
  JS.inherited (boneNameOf (td_name td)) = false →
  retarget_data td = retarget_by_key td.
Proof.
  intros I. unfold retarget_data, retarget_by_key.
  destruct (boneMapping !! boneNameOf (td_name td)) as [v|] eqn:E.
  - by rewrite (renamed_key _ v E).
  - by rewrite (renamed_unmapped _ E I).
Qed.

Lemma omap_by_key_length tds :
  length (omap retarget_by_key tds) =
  length (filter (λ td, is_key (boneNameOf (td_name td)) = true) tds).
Proof.
  induction tds as [|td tds IH]; [done |].
  cbn [omap list_omap]. rewrite filter_cons. unfold retarget_by_key at 1.
  destruct (boneMapping !! boneNameOf (td_name td)) as [v|] eqn:E.
  - rewrite decide_True; [simpl; by rewrite IH |]. unfold is_key. by rewrite E.
  - rewrite decide_False; [done |]. unfold is_key. by rewrite E.
Qed.

Lemma before_first_app c v rest :
  JS.before_first c v = v →
  JS.before_first c (v +:+ String c rest) = v.
Proof.
  induction v as [|a v IH]; simpl.
  - by rewrite Ascii.eqb_refl.
  - destruct (Ascii.eqb a c); [done |]. intros [= E]. by rewrite IH.
Qed.

Lemma retarget_by_key_prefix td td' :
  retarget_by_key td = Some td' → is_value (boneNameOf (td_name td')) = true.
Proof.
  unfold retarget_by_key.
  destruct (boneMapping !! boneNameOf (td_name td)) as [v|] eqn:E; [| done].
  intros [= <-]. cbn [td_name]. apply boneMapping_entry in E.
  pose proof (proj1 (Forall_forall _ _) boneMapping_values_dotless _ E) as Hd.
  cbn [snd] in Hd. unfold boneNameOf.
  change ("." +:+ ?r) with (String dot r).
  rewrite (before_first_app dot v _ Hd).
  unfold is_value. apply bool_decide_eq_true.
  apply list_elem_of_fmap. by exists (boneNameOf (td_name td), v).
Qed.

Lemma omap_Forall {A B} (f : A → option B) (P : B → Prop) xs :
  (∀ x y, f x = Some y → P y) → Forall P (omap f xs).
Proof.
  intros H. induction xs as [|x xs IH]; simpl; [constructor |].
  destruct (f x) eqn:E; [constructor; eauto | done].
Qed.

Lemma omap_ext_Forall {A B} (f g : A → option B) xs :
  Forall (λ x, f x = g x) xs → omap f xs = omap g xs.
Proof.
  induction 1 as [|x xs Hx _ IH]; [done |].
  cbn [omap list_omap]. rewrite Hx. fold (omap f xs) (omap g xs). by rewrite IH.
Qed.

(** ** Invariants of computations *)

Section Preserves.
Context (P : world → Prop).

Lemma preserves_ret {A} (a : A) : preserves P (ret a).
Proof. by intros w H. Qed.

Lemma preserves_throw {A} e : preserves P (@throw A e).
Proof. by intros w H. Qed.

Lemma preserves_gets {A} (f : world → A) : preserves P (gets f).
Proof. by intros w H. Qed.

Lemma preserves_bind {A B} (m : M A) (k : A → M B) :
  preserves P m → (∀ a, preserves P (k a)) → preserves P (bind m k).
Proof.
  intros Hm Hk w H. unfold bind. specialize (Hm w H).
  destruct (m w) as [a w'|e w']; simpl in *; [by apply Hk | done].
Qed.

Lemma preserves_try_catch {A} (m : M A) (h : exn → M A) :
  preserves P m → (∀ e, preserves P (h e)) → preserves P (try_catch m h).
Proof.
  intros Hm Hh w H. unfold try_catch. specialize (Hm w H).
  destruct (m w) as [a w'|e w']; simpl in *; [done | by apply Hh].
Qed.

Lemma preserves_try_finally {A} (m : M A) (c : M unit) :
  preserves P m → preserves P c → preserves P (try_finally m c).
Proof.
  intros Hm Hc w H. unfold try_finally. specialize (Hm w H).
  destruct (m w) as [a w'|e w']; simpl in *; specialize (Hc w' Hm);
    by destruct (c w').
Qed.

Lemma preserves_forEachFrom {A} (xs : list A) (body : A → nat → M unit) : ∀ i,
  (∀ x j, preserves P (body x j)) → preserves P (forEachFrom i xs body).
Proof.
  induction xs as [|x xs IH]; intros i Hb; simpl.
  - apply preserves_ret.
  - apply preserves_bind; [apply Hb | intros _; by apply IH].
Qed.

Lemma preserves_forEach {A} (xs : list A) (body : A → nat → M unit) :
  (∀ x j, preserves P (body x j)) → preserves P (forEach xs body).
Proof. apply preserves_forEachFrom. Qed.

(** A computation that only reads. *)
Lemma preserves_reader {A} (m : M A) :
  (∀ w, after (m w) = w) → preserves P m.
Proof. intros Hm w H. by rewrite Hm. Qed.

End Preserves.

Lemma readFloats_after l w : after (readFloats l w) = w.
Proof. unfold readFloats. by destruct (heap w !! l) as [[]|]. Qed.

Lemma readItems_after l w : after (readItems l w) = w.
Proof. unfold readItems. by destruct (heap w !! l) as [[]|]. Qed.

Lemma readTrack_after l w : after (readTrack l w) = w.
Proof. unfold readTrack. by destruct (heap w !! l) as [[]|]. Qed.

Lemma readClip_after l w : after (readClip l w) = w.
Proof. unfold readClip. by destruct (heap w !! l) as [[]|]. Qed.

Lemma readAction_after l w : after (readAction l w) = w.
Proof. unfold readAction. by destruct (heap w !! l) as [[]|]. Qed.

Ltac preserves_step :=
  lazymatch goal with
  | |- preserves _ (bind _ _) => apply preserves_bind; [| intros ?]
  | |- preserves _ (ret _) => apply preserves_ret
  | |- preserves _ (throw _) => apply preserves_throw
  | |- preserves _ (gets _) => apply preserves_gets
  | |- preserves _ (readFloats _) => apply preserves_reader, readFloats_after
  | |- preserves _ (readItems _) => apply preserves_reader, readItems_after
  | |- preserves _ (readTrack _) => apply preserves_reader, readTrack_after
  | |- preserves _ (readClip _) => apply preserves_reader, readClip_after
  | |- preserves _ (readAction _) => apply preserves_reader, readAction_after
  | |- preserves _ (forEach _ _) => apply preserves_forEach; intros ? ?
  | |- preserves _ (try_catch _ _) => apply preserves_try_catch; [| intros ?]
  | |- preserves _ (try_finally _ _) => apply preserves_try_finally
  | |- preserves _ (match ?x with _ => _ end) => destruct x
  end.

(** ** The loader's state is touched by the loader only *)

(** Leaves that do not write [isLoading] or [pending]. *)
Ltac steady_leaf := try (intros ? [? ?]; by split).

Lemma steady_push a x : steady (push a x).
Proof. intros b p. unfold push, store. repeat preserves_step; steady_leaf. Qed.

Lemma steady_cloneTracks ts : steady (THREE.cloneTracks ts).
Proof.
  intros b p. induction ts as [|t ts IH]; simpl; [repeat preserves_step |].
  unfold THREE.cloneTrack. repeat preserves_step; steady_leaf. exact IH.
Qed.

Lemma steady_retargetTrack nt t : steady (retargetTrack nt t).
Proof.
  intros b p. unfold retargetTrack, THREE.slice, THREE.newKeyframeTrack.
  repeat preserves_step; steady_leaf. apply steady_push.
Qed.

Lemma steady_retargetAnimation clip : steady (retargetAnimation clip).
Proof.
  intros b p. unfold retargetAnimation, THREE.parse_toJSON, THREE.newAnimationClip.
  repeat preserves_step; steady_leaf;
    try apply steady_cloneTracks; try apply steady_retargetTrack.
Qed.

Lemma steady_loadClips cds : steady (loadClips cds).
Proof.
  intros b p. induction cds as [|cd cds IH]; simpl; [repeat preserves_step |].
  unfold loadClip, THREE.newAnimationClip. repeat preserves_step; steady_leaf; [| exact IH].
  induction (cd_tracks cd) as [|td tds IHt]; simpl; [repeat preserves_step |].
  unfold loadTrack, THREE.newKeyframeTrack. repeat preserves_step; steady_leaf. exact IHt.
Qed.

Lemma steady_materialize g : steady (materialize g).
Proof.
  intros b p. unfold materialize. repeat preserves_step; steady_leaf.
  apply steady_loadClips.
Qed.

Lemma steady_registerAction name clip : steady (registerAction name clip).
Proof.
  intros b p. unfold registerAction, clipAction. repeat preserves_step; steady_leaf.
Qed.

Lemma steady_processExternalAnimations : steady processExternalAnimations.
Proof.
  intros b p. unfold processExternalAnimations, console_error, console_warn.
  repeat preserves_step; steady_leaf;
    try apply steady_retargetAnimation; try apply steady_registerAction.
Qed.

Lemma steady_afterCharacter g : steady (afterCharacter g).
Proof.
  intros b p. unfold afterCharacter.
  repeat preserves_step; steady_leaf;
    try apply steady_materialize; try apply steady_registerAction.
Qed.

Lemma steady_afterDance g : steady (afterDance g).
Proof.
  intros b p. unfold afterDance, props_onModelLoaded.
  repeat preserves_step; steady_leaf;
    try apply steady_materialize; try apply steady_processExternalAnimations.
Qed.

Lemma steady_catchBlock message : steady (catchBlock message).
Proof.
  intros b p. unfold catchBlock, console_error, props_onModelLoaded.
  repeat preserves_step; steady_leaf.
Qed.

Lemma steady_call a m f : steady (Action.call a m f).
Proof.
  intros b p. unfold Action.call, store. repeat preserves_step; steady_leaf.
Qed.

Lemma steady_audio_play a : steady (audio_play a).
Proof.
  intros b p w H. unfold audio_play. by destruct (heap w !! a) as [[]|].
Qed.

Lemma steady_audio_setLoop a l : steady (audio_setLoop a l).
Proof.
  intros b p w H. unfold audio_setLoop. by destruct (heap w !! a) as [[]|].
Qed.

Lemma steady_playDanceAnimation index : steady (playDanceAnimation index).
Proof.
  intros b p.
  unfold playDanceAnimation, stopExisting, playMusic, playSpecified,
    console_log, console_warn,
    Action.fadeOut, Action.stop, Action.reset, Action.fadeIn, Action.play, Action.setLoop.
  repeat preserves_step; steady_leaf;
    try apply steady_call; try apply steady_audio_play; try apply steady_audio_setLoop.
Qed.

Lemma steady_cleanup : steady cleanup.
Proof.
  intros b p. unfold cleanup, stopAllAction. repeat preserves_step; steady_leaf.
  intros w H. unfold audio_release. by destruct (heap w !! n) as [[]|].
Qed.

(** ** At most one load in flight *)

Lemma loadModels_busy w : isLoading w = true → loadModels w = Ok tt w.
Proof. intros H. unfold loadModels, bind, gets. by rewrite H. Qed.

Lemma loadModels_idle w :
  isLoading w = false →
  loadModels w = Ok tt (set_pending (pending w ++ [AwaitCharacter]) (set_isLoading true w)).
Proof. intros H. unfold loadModels, bind, gets. by rewrite H. Qed.

Lemma try_finally_loader {A} (m : M A) p w :
  loader_is true p (after (m w)) →
  loader_is false p (after (try_finally m finallyBlock w)).
Proof.
  unfold try_finally, finallyBlock, modify.
  destruct (m w) as [a w'|e w']; intros [? ?]; by split.
Qed.

(** A resumed invocation ends, clearing the flag, unless it was resumed
    with the character model: then it is suspended once more. *)
Lemma resume_loader t o w :
  loader_is true [] w →
  loader_is false [] (after (resume t o w)) ∨
  (t = AwaitCharacter ∧ (∃ g, o = Loaded g) ∧
   loader_is true [AwaitDance] (after (resume t o w))).
Proof.
  intros H. destruct o as [g|message].
  - destruct t; cbn [resume].
    + pose proof (steady_afterCharacter g true [] w H) as H1.
      destruct (afterCharacter g w) as [[] w1|e w1]; cbn [after] in H1.
      * right. split_and!; [done | by eexists |]. destruct H1 as [? Hp].
        split; [done |]. cbn. by rewrite Hp.
      * left. apply try_finally_loader. by apply steady_catchBlock.
    + left. apply try_finally_loader.
      apply preserves_try_catch;
        [apply steady_afterDance | intros e; apply steady_catchBlock | done].
  - left. cbn [resume]. apply try_finally_loader. by apply steady_catchBlock.
Qed.

Lemma loader_inv_handle e w : loader_inv w → loader_inv (handle e w).
Proof.
  intros H. destruct e as [| |k o|index|time]; simpl.
  - destruct H as [[Hf Hp]|[Hf Hp]].
    + rewrite (loadModels_idle w Hf). right. simpl. rewrite Hp. eauto.
    + rewrite (loadModels_busy w Hf). by right.
  - destruct H as [[Hf Hp]|[Hf [t Hp]]].
    + left. by apply (steady_cleanup false [] w).
    + right. destruct (steady_cleanup true [t] w) as [? ?]; [done | eauto].
  - destruct (pending w !! k) as [t|] eqn:Hk; [| done].
    destruct H as [[Hf Hp]|[Hf [t' Hp]]]; [by rewrite Hp in Hk |].
    rewrite Hp in Hk. destruct k; [| done]. injection Hk as ->.
    rewrite Hp. simpl.
    destruct (resume_loader t o (set_pending [] w)) as [[? ?]|(_ & _ & [? ?])];
      [done | by left | right; eauto].
  - destruct H as [[Hf Hp]|[Hf [t Hp]]].
    + left. by apply (steady_playDanceAnimation index false [] w).
    + right. destruct (steady_playDanceAnimation index true [t] w) as [? ?]; [done | eauto].
  - unfold mixerUpdate. by destruct (mixerRef w).
Qed.

Lemma reachable_loader_inv w : reachable w → loader_inv w.
Proof.
  induction 1 as [|w e _ IH]; [by left | by apply loader_inv_handle].
Qed.

Lemma reachable_run es : ∀ w, reachable w → reachable (run es w).
Proof.
  induction es as [|e es IH]; intros w H; simpl; [done |].
  apply IH. by constructor.
Qed.

(** ** The playback controller's invariant *)

Lemma controller_inv_frame w w' :
  controller_inv w →
  currentActionRef w' = currentActionRef w →
  actionsRef w' = actionsRef w →
  audioRef w' = audioRef w →
  (is_Some (mixerRef w) → is_Some (mixerRef w')) →
  (∀ l st, heap w !! l = Some (AnimationAction st) →
           heap w' !! l = Some (AnimationAction st)) →
  (∀ l, is_audio w l → is_audio w' l) →
  (∀ l st, heap w' !! l = Some (AnimationAction st) → a_active st = true →
           heap w !! l = Some (AnimationAction st)) →
  controller_inv w'.
Proof.
  intros [C A U R D S] Hc Ha Hu Hm Hkeep Haud Hnew.
  split; rewrite ?Hc, ?Ha, ?Hu.
  - intros a E. destruct (C a E) as [st Hst]. exists st. by apply Hkeep.
  - intros k a E. destruct (A k a E) as [st Hst]. exists st. by apply Hkeep.
  - intros a E. by apply Haud, U.
  - intros k a E. apply Hm. by eapply R.
  - exact D.
  - intros l st E Hact. eapply S; [by apply Hnew | done].
Qed.

Lemma ci_alloc o : inactive o = true → preserves controller_inv (alloc o).
Proof.
  intros Ho w H. apply (controller_inv_frame w); try done.
  - intros l o' E. simpl. by apply lookup_app_l_Some.
  - intros l (src & lp & n & E). exists src, lp, n. simpl. by apply lookup_app_l_Some.
  - intros l st E Hact. simpl in E.
    destruct (decide (l < length (heap w))) as [Hl|Hl].
    + by rewrite lookup_app_l in E.
    + rewrite lookup_app_r in E by lia.
      destruct (l - length (heap w)) as [|n]; simpl in E; [| done].
      injection E as ->. simpl in Ho. by rewrite Hact in Ho.
Qed.

Lemma ci_push a x : preserves controller_inv (push a x).
Proof.
  intros w H. unfold push, bind, readItems.
  destruct (heap w !! a) as [[]|] eqn:Ha; try done.
  apply (controller_inv_frame w); try done; simpl.
  - intros l o E. rewrite list_lookup_insert_ne; [done |].
    intros ->. rewrite Ha in E. done.
  - intros l (src & lp & n & E). exists src, lp, n. simpl.
    rewrite list_lookup_insert_ne; [done |]. intros ->. rewrite Ha in E. done.
  - intros l st E Hact. destruct (decide (a = l)) as [->|Hne].
    + rewrite list_lookup_insert_eq in E by (by eapply lookup_lt_Some). done.
    + by rewrite list_lookup_insert_ne in E.
Qed.

Lemma ci_modify (f : world → world) :
  (∀ w, heap (f w) = heap w) →
  (∀ w, currentActionRef (f w) = currentActionRef w) →
  (∀ w, actionsRef (f w) = actionsRef w) →
  (∀ w, audioRef (f w) = audioRef w) →
  (∀ w, is_Some (mixerRef w) → is_Some (mixerRef (f w))) →
  preserves controller_inv (modify f).
Proof.
  intros Hh Hc Ha Hu Hm w H. simpl.
  apply (controller_inv_frame w); try done.
  - apply Hm.
  - intros l o. by rewrite Hh.
  - intros l. unfold is_audio. by rewrite Hh.
  - intros l st. by rewrite Hh.
Qed.

(** Leaves that allocate data or write refs outside the controller. *)
Ltac ci_leaf :=
  try (apply ci_alloc; reflexivity);
  try apply ci_push;
  try (apply ci_modify; solve [done | intros; eauto]).

Lemma ci_cloneTracks ts : preserves controller_inv (THREE.cloneTracks ts).
Proof.
  induction ts as [|t ts IH]; simpl; [repeat preserves_step |].
  unfold THREE.cloneTrack. repeat preserves_step; ci_leaf. exact IH.
Qed.

Lemma ci_retargetAnimation clip : preserves controller_inv (retargetAnimation clip).
Proof.
  unfold retargetAnimation, THREE.parse_toJSON, THREE.newAnimationClip,
    retargetTrack, THREE.slice, THREE.newKeyframeTrack.
  repeat preserves_step; ci_leaf. apply ci_cloneTracks.
Qed.

Lemma ci_loadClips cds : preserves controller_inv (loadClips cds).
Proof.
  induction cds as [|cd cds IH]; simpl; [repeat preserves_step |].
  unfold loadClip, THREE.newAnimationClip. repeat preserves_step; ci_leaf; [| exact IH].
  induction (cd_tracks cd) as [|td tds IHt]; simpl; [repeat preserves_step |].
  unfold loadTrack, THREE.newKeyframeTrack. repeat preserves_step; ci_leaf. exact IHt.
Qed.

Lemma ci_materialize g : preserves controller_inv (materialize g).
Proof.
  unfold materialize. repeat preserves_step; ci_leaf. apply ci_loadClips.
Qed.

(** Registering an action: the new action is a new object, so the name is
    bound to an action no other name is bound to. *)
Lemma ci_registerAction name clip : preserves controller_inv (registerAction name clip).
Proof.
  intros w H. unfold registerAction, bind, gets.
  destruct (mixerRef w) as [mx|] eqn:Hm; [| done].
  destruct H as [C A U R D S]. simpl.
  assert (∀ l o, heap w !! l = Some o →
            (heap w ++ [AnimationAction (newAction mx clip)]) !! l = Some o) as Hkeep
    by (intros; by apply lookup_app_l_Some).
  split; simpl.
  - intros a E. destruct (C a E) as [st Hst]. exists st. by apply Hkeep.
  - intros k a E. destruct (decide (name = k)) as [->|Hne].
    + rewrite lookup_insert_eq in E. injection E as <-.
      eexists. apply lookup_snoc_new.
    + rewrite lookup_insert_ne in E by done.
      destruct (A k a E) as [st Hst]. exists st. by apply Hkeep.
  - intros a E. destruct (U a E) as (src & lp & n & Hst). exists src, lp, n. by apply Hkeep.
  - intros _ _ _. by rewrite Hm.
  - intros k1 k2 a E1 E2.
    assert (∀ k, actionsRef w !! k = Some (length (heap w)) → False) as Hfresh.
    { intros k E. destruct (A k _ E) as [st Hst]. apply lookup_lt_Some in Hst. lia. }
    destruct (decide (name = k1)) as [Q1|N1]; destruct (decide (name = k2)) as [Q2|N2].
    + congruence.
    + subst k1. rewrite lookup_insert_eq in E1. rewrite lookup_insert_ne in E2 by done.
      injection E1 as <-. by destruct (Hfresh k2).
    + subst k2. rewrite lookup_insert_eq in E2. rewrite lookup_insert_ne in E1 by done.
      injection E2 as <-. by destruct (Hfresh k1).
    + rewrite lookup_insert_ne in E1, E2 by done. by eapply D.
  - intros l st E Hact. apply (S l st); [| done].
    destruct (decide (l < length (heap w))) as [Hl|Hl].
    + by rewrite lookup_app_l in E.
    + rewrite lookup_app_r in E by lia.
      destruct (l - length (heap w)) as [|n]; simpl in E; [| done].
      injection E as <-. done.
Qed.

Lemma ci_processExternalAnimations : preserves controller_inv processExternalAnimations.
Proof.
  unfold processExternalAnimations, console_error, console_warn.
  repeat preserves_step; ci_leaf;
    try apply ci_retargetAnimation; try apply ci_registerAction.
Qed.

Lemma ci_afterCharacter g : preserves controller_inv (afterCharacter g).
Proof.
  unfold afterCharacter.
  repeat preserves_step; ci_leaf;
    try apply ci_materialize; try apply ci_registerAction.
Qed.

Lemma ci_afterDance g : preserves controller_inv (afterDance g).
Proof.
  unfold afterDance, props_onModelLoaded.
  repeat preserves_step; ci_leaf;
    try apply ci_materialize; try apply ci_processExternalAnimations.
Qed.

Lemma ci_catchBlock message : preserves controller_inv (catchBlock message).
Proof.
  unfold catchBlock, console_error, props_onModelLoaded.
  repeat preserves_step; ci_leaf.
Qed.

Lemma ci_finallyBlock : preserves controller_inv finallyBlock.
Proof. unfold finallyBlock. ci_leaf. Qed.

Lemma ci_loadModels : preserves controller_inv loadModels.
Proof. unfold loadModels. repeat preserves_step; ci_leaf. Qed.

Lemma ci_resume t o : preserves controller_inv (resume t o).
Proof.
  destruct o as [g|message]; [destruct t |]; cbn [resume].
  - intros w H. pose proof (ci_afterCharacter g w H) as H1.
    destruct (afterCharacter g w) as [[] w1|e w1]; cbn [after] in *.
    + revert H1. apply (ci_modify (fun w => set_pending (pending w ++ [AwaitDance]) w)); done.
    + revert H1. apply preserves_try_finally; [apply ci_catchBlock | apply ci_finallyBlock].
  - repeat preserves_step; try apply ci_afterDance; try apply ci_catchBlock;
      apply ci_finallyBlock.
  - apply preserves_try_finally; [apply ci_catchBlock | apply ci_finallyBlock].
Qed.

(** ** Running [playDanceAnimation] *)

Lemma action_at_Some w l st :
  action_at w l = Some st ↔ heap w !! l = Some (AnimationAction st).
Proof.
  unfold action_at, action_in. destruct (heap w !! l) as [[]|]; split; intros H; by simplify_eq.
Qed.

Lemma call_run a m f st w :
  heap w !! a = Some (AnimationAction st) →
  Action.call a m f w =
    Ok tt (set_heap (<[a := AnimationAction (f st)]> (heap w))
             (set_invoked (invoked w ++ [(a, m)]) w)).
Proof.
  intros H. unfold Action.call.
  rewrite (bind_Ok _ _ _ _ _ (readAction_run _ _ _ H)). reflexivity.
Qed.

Lemma call_twice a m1 f1 m2 f2 st w :
  heap w !! a = Some (AnimationAction st) →
  bind (Action.call a m1 f1) (fun _ => Action.call a m2 f2) w =
    Ok tt (set_heap (<[a := AnimationAction (f2 (f1 st))]> (heap w))
             (set_invoked (invoked w ++ [(a, m1); (a, m2)]) w)).
Proof.
  intros H. rewrite (bind_Ok _ _ _ _ _ (call_run a m1 f1 st w H)).
  erewrite call_run.
  2:{ cbn [heap set_heap set_invoked]. apply list_lookup_insert_eq. by eapply lookup_lt_Some. }
  cbn [heap set_heap set_invoked invoked].
  by rewrite list_insert_insert_eq, <- app_assoc.
Qed.

Lemma stopExisting_run w :
  (∀ a, currentActionRef w = Some a → is_action w a) →
  stopExisting w = Ok tt (stop_world w).
Proof.
  intros C. unfold stopExisting, stop_world, bind at 1, gets.
  destruct (currentActionRef w) as [a|] eqn:E; [| done].
  destruct (C a eq_refl) as [st Hst].
  rewrite (proj2 (action_at_Some w a st) Hst).
  unfold Action.fadeOut, Action.stop. by rewrite (call_twice _ _ _ _ _ st).
Qed.

Lemma insert_snoc {A} (l : list A) (x y : A) : <[length l := y]> (l ++ [x]) = l ++ [y].
Proof. rewrite insert_app_r_alt by lia. by rewrite Nat.sub_diag. Qed.

Lemma playMusic_run w :
  (∀ a, audioRef w = Some a → is_audio w a) →
  playMusic w = Ok tt (music_world w).
Proof.
  intros U. unfold playMusic, music_world, bind at 1, bind at 1, gets.
  destruct (audioRef w) as [a|] eqn:E.
  - destruct (U a eq_refl) as (src & lp & n & Ha).
    unfold ret, bind, gets. rewrite E.
    unfold audio_play, audio_at, audio_in. by rewrite Ha.
  - unfold bind, alloc, modify, audio_setLoop, gets, audio_play, store, modify.
    cbn [heap set_heap set_audioRef audioRef].
    rewrite lookup_snoc_new. cbn [heap set_heap set_audioRef audioRef].
    rewrite insert_snoc, lookup_snoc_new. cbn [heap set_heap set_audioRef audioRef].
    by rewrite insert_snoc.
Qed.

Lemma playSpecified_run index w :
  (∀ k a, actionsRef w !! k = Some a → is_action w a) →
  playSpecified index w = Ok tt (start_world index w).
Proof.
  intros A. unfold playSpecified, start_world, found, bind at 1, bind at 1, gets.
  destruct (mixerRef w) as [mx|] eqn:Em; [| done].
  destruct (actionsRef w !! danceName index) as [a|] eqn:Ea; [| done].
  destruct (A _ a Ea) as [st Hst].
  rewrite (proj2 (action_at_Some w a st) Hst).
  unfold Action.reset, Action.fadeIn, Action.play, Action.setLoop.
  unfold bind at 1, modify.
  erewrite (bind_Ok (Action.call a CallReset rewound)); [| by apply call_run].
  erewrite (bind_Ok (Action.call a (CallFadeIn _) _)).
  2:{ apply call_run. cbn [heap set_heap set_invoked set_currentActionRef].
      apply list_lookup_insert_eq. by eapply lookup_lt_Some. }
  erewrite (bind_Ok (Action.call a CallPlay _)).
  2:{ apply call_run. cbn [heap set_heap set_invoked set_currentActionRef].
      apply list_lookup_insert_eq. rewrite length_insert. by eapply lookup_lt_Some. }
  erewrite (bind_Ok (Action.call a (CallSetLoop _ _) _)).
  2:{ apply call_run. cbn [heap set_heap set_invoked set_currentActionRef].
      apply list_lookup_insert_eq. rewrite !length_insert. by eapply lookup_lt_Some. }
  unfold console_log, modify.
  cbn [heap set_heap set_invoked set_currentActionRef invoked console set_console].
  rewrite !list_insert_insert_eq, <- !app_assoc. reflexivity.
Qed.

Lemma audio_at_Some w l src lp n :
  audio_at w l = Some (src, lp, n) ↔ heap w !! l = Some (Audio src lp n).
Proof.
  unfold audio_at, audio_in. destruct (heap w !! l) as [[]|]; split; intros H; by simplify_eq.
Qed.

Lemma action_in_insert h a st' l :
  a < length h →
  action_in (<[a := AnimationAction st']> h) l =
    if decide (l = a) then Some st' else action_in h l.
Proof.
  intros Ha. unfold action_in. destruct (decide (l = a)) as [->|Hne].
  - by rewrite list_lookup_insert_eq.
  - by rewrite list_lookup_insert_ne.
Qed.

Lemma audio_in_insert h a src lp n l :
  a < length h →
  audio_in (<[a := Audio src lp n]> h) l =
    if decide (l = a) then Some (src, lp, n) else audio_in h l.
Proof.
  intros Ha. unfold audio_in. destruct (decide (l = a)) as [->|Hne].
  - by rewrite list_lookup_insert_eq.
  - by rewrite list_lookup_insert_ne.
Qed.

Lemma action_in_insert_audio h a src lp n l :
  is_Some (audio_in h a) →
  action_in (<[a := Audio src lp n]> h) l = action_in h l.
Proof.
  intros [x Hx]. unfold action_in, audio_in in *. destruct (decide (l = a)) as [->|Hne].
  - destruct (h !! a) as [[]|] eqn:E; try done.
    rewrite list_lookup_insert_eq by (by eapply lookup_lt_Some). done.
  - by rewrite list_lookup_insert_ne.
Qed.

Lemma audio_in_insert_action h a st' l :
  is_Some (action_in h a) →
  audio_in (<[a := AnimationAction st']> h) l = audio_in h l.
Proof.
  intros [x Hx]. unfold action_in, audio_in in *. destruct (decide (l = a)) as [->|Hne].
  - destruct (h !! a) as [[]|] eqn:E; try done.
    rewrite list_lookup_insert_eq by (by eapply lookup_lt_Some). done.
  - by rewrite list_lookup_insert_ne.
Qed.

Lemma action_in_snoc_audio h src lp n l :
  action_in (h ++ [Audio src lp n]) l = action_in h l.
Proof.
  unfold action_in. destruct (decide (l < length h)) as [Hl|Hl].
  - by rewrite lookup_app_l.
  - rewrite lookup_app_r by lia. rewrite (proj2 (lookup_ge_None h l)) by lia.
    by destruct (l - length h) as [|[|]].
Qed.

Lemma action_in_lt h l st : action_in h l = Some st → l < length h.
Proof.
  unfold action_in. destruct (h !! l) eqn:E; [| done]. intros _. by eapply lookup_lt_Some.
Qed.

Lemma audio_in_lt h l x : audio_in h l = Some x → l < length h.
Proof.
  unfold audio_in. destruct (h !! l) eqn:E; [| done]. intros _. by eapply lookup_lt_Some.
Qed.

(** The invariant, read through [action_at] and [audio_at]. *)
Lemma controller_inv_view w :
  controller_inv w ↔
  (∀ a, currentActionRef w = Some a → is_Some (action_at w a)) ∧
  (∀ k a, actionsRef w !! k = Some a → is_Some (action_at w a)) ∧
  (∀ a, audioRef w = Some a → is_Some (audio_at w a)) ∧
  (∀ k a, actionsRef w !! k = Some a → is_Some (mixerRef w)) ∧
  (∀ k1 k2 a, actionsRef w !! k1 = Some a → actionsRef w !! k2 = Some a → k1 = k2) ∧
  (∀ l st, action_at w l = Some st → a_active st = true → currentActionRef w = Some l).
Proof.
  assert (∀ l, is_action w l ↔ is_Some (action_at w l)) as HA.
  { intros l. split; intros [st H]; exists st; by apply action_at_Some. }
  assert (∀ l, is_audio w l ↔ is_Some (audio_at w l)) as HU.
  { intros l. split.
    - intros (s & b & n & H). exists (s, b, n). by apply audio_at_Some.
    - intros [[[s b] n] H]. exists s, b, n. by apply audio_at_Some. }
  split.
  - intros [C A U R D S]. split_and!; try done.
    + intros a E. by apply HA, C.
    + intros k a E. apply HA. by eapply A.
    + intros a E. by apply HU, U.
    + intros l st E. apply S. by apply action_at_Some.
  - intros (C & A & U & R & D & S). split; try done.
    + intros a E. by apply HA, C.
    + intros k a E. apply HA. by eapply A.
    + intros a E. by apply HU, U.
    + intros l st E. apply S. by apply action_at_Some.
Qed.

Lemma stop_world_action w l :
  action_at (stop_world w) l =
    if decide (currentActionRef w = Some l) then stopped <$> action_at w l
    else action_at w l.
Proof.
  unfold stop_world. destruct (currentActionRef w) as [a|] eqn:E.
  - destruct (action_at w a) as [st|] eqn:Ea.
    + unfold action_at in *. cbn [heap set_heap set_invoked].
      rewrite action_in_insert by (by eapply action_in_lt).
      destruct (decide (l = a)) as [->|Hne].
      * rewrite decide_True by done. by rewrite Ea.
      * rewrite decide_False by congruence. done.
    + destruct (decide (Some a = Some l)) as [[= ->]|]; [| done]. by rewrite Ea.
  - by rewrite decide_False.
Qed.

Lemma stop_world_audio w l : audio_at (stop_world w) l = audio_at w l.
Proof.
  unfold stop_world. destruct (currentActionRef w) as [a|]; [| done].
  destruct (action_at w a) as [st|] eqn:Ea; [| done].
  unfold audio_at, action_at in *. cbn [heap set_heap set_invoked].
  by apply audio_in_insert_action.
Qed.

Lemma stop_world_refs w :
  currentActionRef (stop_world w) = currentActionRef w ∧
  actionsRef (stop_world w) = actionsRef w ∧
  audioRef (stop_world w) = audioRef w ∧
  mixerRef (stop_world w) = mixerRef w ∧
  console (stop_world w) = console w.
Proof.
  unfold stop_world. destruct (currentActionRef w) as [a|] eqn:E; [| by rewrite E].
  destruct (action_at w a); cbn; by rewrite ?E.
Qed.

Lemma stop_world_invoked w a :
  controller_inv w → currentActionRef w = Some a →
  invoked (stop_world w) = invoked w ++ [(a, CallFadeOut 0.5%float); (a, CallStop)].
Proof.
  intros H E. apply controller_inv_view in H as (C & _).
  unfold stop_world. rewrite E. by destruct (C a E) as [st ->].
Qed.

Lemma stop_world_inv w :
  controller_inv w → controller_inv (stop_world w) ∧ idle (stop_world w).
Proof.
  intros H. apply controller_inv_view in H as (C & A & U & R & D & S).
  destruct (stop_world_refs w) as (Ec & Ea & Eu & Em & _).
  split.
  - apply controller_inv_view. rewrite Ec, Ea, Eu, Em. split_and!; try done.
    + intros a E. rewrite stop_world_action, decide_True by done.
      by apply fmap_is_Some, C.
    + intros k a E. rewrite stop_world_action. case_decide.
      * apply fmap_is_Some. by eapply A.
      * by eapply A.
    + intros a E. rewrite stop_world_audio. by apply U.
    + intros l st. rewrite stop_world_action. case_decide; [| by apply S].
      destruct (action_at w l); [| done]. by intros [= <-].
  - intros l st. rewrite stop_world_action. case_decide as Hc.
    + destruct (action_at w l); [| done]. by intros [= <-].
    + intros E. destruct (a_active st) eqn:Hact; [| done].
      destruct Hc. by eapply S.
Qed.

Lemma music_world_action w l :
  controller_inv w → action_at (music_world w) l = action_at w l.
Proof.
  intros H. apply controller_inv_view in H as (_ & _ & U & _).
  unfold music_world. destruct (audioRef w) as [a|] eqn:E.
  - destruct (U a eq_refl) as [[[src lp] n] Ha]. rewrite Ha.
    unfold action_at, audio_at in *. cbn [heap set_heap]. apply action_in_insert_audio. by eexists.
  - unfold action_at. cbn [heap set_heap set_audioRef]. apply action_in_snoc_audio.
Qed.

Lemma music_world_refs w :
  currentActionRef (music_world w) = currentActionRef w ∧
  actionsRef (music_world w) = actionsRef w ∧
  mixerRef (music_world w) = mixerRef w ∧
  console (music_world w) = console w ∧
  invoked (music_world w) = invoked w.
Proof.
  unfold music_world. destruct (audioRef w) as [a|] eqn:E; [| done].
  by destruct (audio_at w a) as [[[] ]|].
Qed.

(** After the music part there is an audio element, and it has been played
    once more than before (once, with [loop] set, when it is new). *)
Lemma music_world_audio w :
  controller_inv w →
  ∃ a src lp n,
    audioRef (music_world w) = Some a ∧
    audio_at (music_world w) a = Some (src, lp, S n) ∧
    match audioRef w with
    | Some a0 => a = a0 ∧ audio_at w a0 = Some (src, lp, n)
    | None => a = length (heap w) ∧ src = DANCE_MUSIC ∧ lp = true ∧ n = 0
    end.
Proof.
  intros H. apply controller_inv_view in H as (_ & _ & U & _).
  unfold music_world. destruct (audioRef w) as [a|] eqn:E.
  - destruct (U a eq_refl) as [[[src lp] n] Ha]. rewrite Ha.
    exists a, src, lp, n. split_and!; try done.
    unfold audio_at in *. cbn [heap set_heap].
    rewrite audio_in_insert by (by eapply audio_in_lt). by rewrite decide_True.
  - exists (length (heap w)), DANCE_MUSIC, true, 0. split_and!; try done.
    unfold audio_at, audio_in. cbn [heap set_heap set_audioRef].
    by rewrite lookup_snoc_new.
Qed.

Lemma music_world_inv w :
  controller_inv w → idle w → controller_inv (music_world w) ∧ idle (music_world w).
Proof.
  intros H I. pose proof (music_world_audio w H) as (a & src & lp & n & Ea & Ha & _).
  pose proof (music_world_action w) as HA.
  apply controller_inv_view in H as (C & A & U & R & D & S).
  destruct (music_world_refs w) as (Ec & Eac & Em & _).
  split.
  - apply controller_inv_view. rewrite Ec, Eac, Em. split_and!; try done.
    + intros ? ?. rewrite HA by (by apply controller_inv_view). by apply C.
    + intros ? ? ?. rewrite HA by (by apply controller_inv_view). by eapply A.
    + intros a' E'. rewrite Ea in E'. injection E' as <-. by rewrite Ha.
    + intros l st. rewrite HA by (by apply controller_inv_view). apply S.
  - intros l st. rewrite HA by (by apply controller_inv_view). apply I.
Qed.

Lemma found_Some index w a :
  found index w = Some a ↔ is_Some (mixerRef w) ∧ actionsRef w !! danceName index = Some a.
Proof.
  unfold found. destruct (mixerRef w); split; try done.
  - by intros [_ ?].
  - intros [[? ?] _]. done.
Qed.

Lemma found_None index w :
  found index w = None ↔ mixerRef w = None ∨ actionsRef w !! danceName index = None.
Proof.
  unfold found. destruct (mixerRef w); split; try done; eauto.
  by intros [?|?].
Qed.

Lemma start_world_missing index w :
  found index w = None →
  start_world index w =
    set_console
      (console w ++
         [ConsoleWarn ("ダンスアニメーション " +:+ danceName index +:+ " は見つかりません")]) w.
Proof. intros H. unfold start_world. by rewrite H. Qed.

Lemma start_world_found index w a st :
  found index w = Some a → action_at w a = Some st →
  start_world index w =
    set_console
      (console w ++
         [ConsoleLog ("ダンスアニメーション " +:+ JS.numeral index +:+ " を再生します")])
      (set_heap (<[a := AnimationAction (started st)]> (heap w))
         (set_invoked (invoked w ++ start_calls a)
            (set_currentActionRef (Some a) w))).
Proof. intros H E. unfold start_world. by rewrite H, E. Qed.

Lemma start_world_action index w a l :
  controller_inv w → found index w = Some a →
  action_at (start_world index w) l =
    if decide (l = a) then started <$> action_at w a else action_at w l.
Proof.
  intros H F. apply controller_inv_view in H as (_ & A & _).
  destruct (A _ a (proj2 (proj1 (found_Some _ _ _) F))) as [st Hst].
  rewrite (start_world_found index w a st F Hst).
  unfold action_at in *. cbn [heap set_heap set_console set_invoked set_currentActionRef].
  rewrite action_in_insert by (by eapply action_in_lt). by rewrite Hst.
Qed.

Lemma start_world_audio index w l :
  audio_at (start_world index w) l = audio_at w l.
Proof.
  unfold start_world. destruct (found index w) as [a|]; [| done].
  destruct (action_at w a) as [st|] eqn:E; [| done].
  unfold audio_at, action_at in *. cbn [heap set_heap set_console set_invoked set_currentActionRef].
  by apply audio_in_insert_action.
Qed.

Lemma start_world_refs index w :
  actionsRef (start_world index w) = actionsRef w ∧
  audioRef (start_world index w) = audioRef w ∧
  mixerRef (start_world index w) = mixerRef w.
Proof.
  unfold start_world. destruct (found index w) as [a|]; [| done].
  by destruct (action_at w a).
Qed.

Lemma start_world_current index w :
  controller_inv w →
  currentActionRef (start_world index w) =
    match found index w with
    | Some a => Some a
    | None => currentActionRef w
    end.
Proof.
  intros H. apply controller_inv_view in H as (_ & A & _).
  unfold start_world. destruct (found index w) as [a|] eqn:F; [| done].
  by destruct (A _ a (proj2 (proj1 (found_Some _ _ _) F))) as [st ->].
Qed.

Lemma start_world_inv index w :
  controller_inv w → idle w → controller_inv (start_world index w).
Proof.
  intros H I.
  pose proof (start_world_current index w H) as Ec.
  pose proof (start_world_action index w) as HA.
  destruct (start_world_refs index w) as (Ea & Eu & Em).
  pose proof H as (C & A & U & R & D & S)%controller_inv_view.
  apply controller_inv_view. rewrite Ec, Ea, Eu, Em.
  destruct (found index w) as [a|] eqn:F.
  - specialize (HA a). pose proof (proj1 (found_Some _ _ _) F) as [_ Hk].
    split_and!; try done.
    + intros ? [= <-]. rewrite HA, decide_True by done. apply fmap_is_Some. by eapply A.
    + intros k a' E. rewrite HA by done. case_decide as Hd.
      * apply fmap_is_Some. by eapply A.
      * by eapply A.
    + intros ? ?. rewrite start_world_audio. by apply U.
    + intros l st. rewrite HA by done. case_decide as Hd; [by subst |].
      intros E Hact. by rewrite (I l st E) in Hact.
  - rewrite (start_world_missing index w F).
    split_and!; try done.
Qed.

Lemma playDanceAnimation_run index w :
  controller_inv w → playDanceAnimation index w = Ok tt (played index w).
Proof.
  intros H. unfold playDanceAnimation, played.
  assert (controller_inv (called_world index w)) as H1.
  { revert H. apply (ci_modify (fun w => called_world index w)); done. }
  destruct (stop_world_inv _ H1) as [H2 I2].
  destruct (music_world_inv _ H2 I2) as [H3 I3].
  rewrite (bind_Ok _ _ _ tt (called_world index w)) by done.
  rewrite (bind_Ok _ _ _ _ _ (stopExisting_run _ (ci_current _ H1))).
  rewrite (bind_Ok _ _ _ _ _ (playMusic_run _ (ci_audio _ H2))).
  apply playSpecified_run, (ci_actions _ H3).
Qed.

Lemma played_inv index w : controller_inv w → controller_inv (played index w).
Proof.
  intros H. unfold played.
  assert (controller_inv (called_world index w)) as H1.
  { revert H. apply (ci_modify (fun w => called_world index w)); done. }
  destruct (stop_world_inv _ H1) as [H2 I2].
  destruct (music_world_inv _ H2 I2) as [H3 I3].
  by apply start_world_inv.
Qed.

Lemma advance_action time h l :
  action_in (imap (advance time) h) l =
    (fun st => if a_active st then with_time (time l) st else st) <$> action_in h l.
Proof.
  unfold action_in. rewrite list_lookup_imap.
  destruct (h !! l) as [[]|]; simpl; try done. by destruct (a_active st).
Qed.

Lemma advance_audio time h l : audio_in (imap (advance time) h) l = audio_in h l.
Proof.
  unfold audio_in. rewrite list_lookup_imap.
  destruct (h !! l) as [[]|]; simpl; try done. by destruct (a_active st).
Qed.

Lemma mixerUpdate_inv time w : controller_inv w → controller_inv (mixerUpdate time w).
Proof.
  intros H. unfold mixerUpdate. destruct (mixerRef w) as [mx|] eqn:Em; [| done].
  pose proof H as (C & A & U & R & D & S)%controller_inv_view.
  apply controller_inv_view. unfold action_at, audio_at in *.
  cbn [heap set_heap currentActionRef actionsRef audioRef mixerRef].
  split_and!; try done.
  - intros a E. rewrite advance_action. apply fmap_is_Some. by apply C.
  - intros k a E. rewrite advance_action. apply fmap_is_Some. by eapply A.
  - intros a E. rewrite advance_audio. by apply U.
  - intros l st. rewrite advance_action.
    destruct (action_in (heap w) l) as [st0|] eqn:E0; [| done].
    intros [= <-] Hact. apply (S l st0 E0).
    destruct (a_active st0) eqn:E1; [done | by rewrite E1 in Hact].
Qed.

Lemma stopAll_action mx h l :
  action_in (map (stopAll mx) h) l =
    (fun st => if a_active st && Nat.eqb (a_mixer st) mx
               then rewound (with_active false st) else st) <$> action_in h l.
Proof.
  unfold action_in. rewrite list_lookup_fmap.
  destruct (h !! l) as [[]|]; cbn; try done.
  by destruct (a_active st && Nat.eqb (a_mixer st) mx).
Qed.

Lemma stopAll_audio mx h l : audio_in (map (stopAll mx) h) l = audio_in h l.
Proof.
  unfold audio_in. rewrite list_lookup_fmap.
  destruct (h !! l) as [[]|]; cbn; try done.
  by destruct (a_active st && Nat.eqb (a_mixer st) mx).
Qed.

Lemma ci_stopAllAction mx : preserves controller_inv (stopAllAction mx).
Proof.
  intros w H. pose proof H as (C & A & U & R & D & S)%controller_inv_view.
  apply controller_inv_view. unfold action_at, audio_at in *.
  cbn [stopAllAction modify after heap set_heap currentActionRef actionsRef audioRef mixerRef].
  split_and!; try done.
  - intros a E. rewrite stopAll_action. apply fmap_is_Some. by apply C.
  - intros k a E. rewrite stopAll_action. apply fmap_is_Some. by eapply A.
  - intros a E. rewrite stopAll_audio. by apply U.
  - intros l st. rewrite stopAll_action.
    destruct (action_in (heap w) l) as [st0|] eqn:E0; [| done].
    cbn. intros [= <-] Hact. apply (S l st0 E0).
    destruct (a_active st0) eqn:E1; [done |]. cbn in Hact. by rewrite E1 in Hact.
Qed.

Lemma ci_audio_release a : preserves controller_inv (audio_release a).
Proof.
  intros w H. unfold audio_release.
  destruct (heap w !! a) as [[]|] eqn:Ha; try done.
  pose proof H as (C & A & U & R & D & S)%controller_inv_view.
  assert (is_Some (audio_in (heap w) a)) as Hau by (unfold audio_in; rewrite Ha; by eexists).
  apply controller_inv_view. unfold action_at, audio_at in *.
  cbn [store modify after heap set_heap currentActionRef actionsRef audioRef mixerRef].
  split_and!; try done.
  - intros ? ?. rewrite action_in_insert_audio by done. by apply C.
  - intros ? ? ?. rewrite action_in_insert_audio by done. by eapply A.
  - intros a' E. rewrite audio_in_insert by (by eapply lookup_lt_Some).
    case_decide; [done | by apply U].
  - intros l st. rewrite action_in_insert_audio by done. apply S.
Qed.

Lemma ci_cleanup : preserves controller_inv cleanup.
Proof.
  unfold cleanup. repeat preserves_step;
    try apply ci_stopAllAction; try apply ci_audio_release.
Qed.

Lemma controller_inv_initial : controller_inv initial.
Proof. by split. Qed.

Lemma controller_inv_handle e w : controller_inv w → controller_inv (handle e w).
Proof.
  intros H. destruct e as [| |k o|index|time]; cbn [handle].
  - by apply ci_loadModels.
  - by apply ci_cleanup.
  - destruct (pending w !! k) as [t|]; [| done].
    apply ci_resume. revert H.
    apply (ci_modify (fun w => set_pending (delete k (pending w)) w)); done.
  - rewrite (playDanceAnimation_run index w H). by apply played_inv.
  - by apply mixerUpdate_inv.
Qed.

Lemma reachable_controller_inv w : reachable w → controller_inv w.
Proof.
  induction 1 as [|w e _ IH]; [apply controller_inv_initial | by apply controller_inv_handle].
Qed.

Section Played.
Context (index : nat) (w : world) (Hinv : controller_inv w).

Let w1 := called_world index w.
Let w2 := stop_world w1.
Let w3 := music_world w2.

Lemma played_stages :
  controller_inv w1 ∧ controller_inv w2 ∧ idle w2 ∧ controller_inv w3 ∧ idle w3.
Proof.
  assert (controller_inv w1) as H1.
  { generalize Hinv. apply (ci_modify (fun w => called_world index w)); done. }
  destruct (stop_world_inv _ H1) as [H2 I2].
  destruct (music_world_inv _ H2 I2) as [H3 I3]. done.
Qed.

Lemma played_found : found index w3 = found index w.
Proof.
  unfold found, w3, w2.
  destruct (music_world_refs (stop_world w1)) as (_ & -> & -> & _).
  destruct (stop_world_refs w1) as (_ & -> & _ & -> & _). done.
Qed.

Lemma played_middle_action l : action_at w3 l = after_stop w l.
Proof.
  destruct played_stages as (H1 & H2 & _).
  unfold w3. rewrite music_world_action by done.
  unfold w2. by rewrite stop_world_action.
Qed.

Lemma played_refs :
  actionsRef (played index w) = actionsRef w ∧ mixerRef (played index w) = mixerRef w.
Proof.
  unfold played. fold w1 w2 w3.
  destruct (start_world_refs index w3) as (-> & _ & ->).
  unfold w3, w2.
  destruct (music_world_refs (stop_world w1)) as (_ & -> & -> & _).
  destruct (stop_world_refs w1) as (_ & -> & _ & -> & _). done.
Qed.

Lemma played_current :
  currentActionRef (played index w) =
    match found index w with
    | Some a => Some a
    | None => currentActionRef w
    end.
Proof.
  destruct played_stages as (_ & _ & _ & H3 & _).
  unfold played. fold w1 w2 w3. rewrite (start_world_current index w3 H3), played_found.
  destruct (found index w); [done |]. unfold w3, w2.
  destruct (music_world_refs (stop_world w1)) as (-> & _).
  by destruct (stop_world_refs w1) as (-> & _).
Qed.

Lemma played_action l :
  action_at (played index w) l =
    match found index w with
    | Some a => if decide (l = a) then started <$> after_stop w a else after_stop w l
    | None => after_stop w l
    end.
Proof.
  destruct played_stages as (_ & _ & _ & H3 & _).
  unfold played. fold w1 w2 w3.
  destruct (found index w) as [a|] eqn:F.
  - rewrite (start_world_action index w3 a l H3) by (by rewrite played_found).
    by rewrite !played_middle_action.
  - rewrite start_world_missing by (by rewrite played_found).
    apply played_middle_action.
Qed.

Lemma played_invoked :
  invoked (played index w) =
    invoked w ++ stop_calls w ++
    match found index w with
    | Some a => start_calls a
    | None => []
    end.
Proof.
  destruct played_stages as (H1 & _ & _ & H3 & _).
  assert (invoked w3 = invoked w ++ stop_calls w) as E3.
  { unfold w3. destruct (music_world_refs w2) as (_ & _ & _ & _ & ->).
    unfold w2, stop_calls. destruct (currentActionRef w) as [c|] eqn:Ec.
    - by rewrite (stop_world_invoked w1 c H1 Ec).
    - unfold stop_world. change (currentActionRef w1) with (currentActionRef w).
      rewrite Ec. by rewrite app_nil_r. }
  unfold played. fold w1 w2 w3.
  destruct (found index w) as [a|] eqn:F.
  - pose proof H3 as (_ & A & _)%controller_inv_view.
    rewrite <- played_found in F.
    destruct (A _ a (proj2 (proj1 (found_Some _ _ _) F))) as [st Hst].
    rewrite (start_world_found index w3 a st F Hst). cbn. by rewrite E3, <- app_assoc.
  - rewrite start_world_missing by (by rewrite played_found). cbn.
    by rewrite E3, app_nil_r.
Qed.

Lemma played_console :
  console (played index w) =
    console w ++
    [ConsoleLog ("playDanceAnimation(" +:+ JS.numeral index +:+ ")が呼び出されました");
     match found index w with
     | Some _ => ConsoleLog ("ダンスアニメーション " +:+ JS.numeral index +:+ " を再生します")
     | None => ConsoleWarn ("ダンスアニメーション " +:+ danceName index +:+ " は見つかりません")
     end].
Proof.
  destruct played_stages as (H1 & _ & _ & H3 & _).
  assert (console w3 = console w ++
    [ConsoleLog ("playDanceAnimation(" +:+ JS.numeral index +:+ ")が呼び出されました")]) as E3.
  { unfold w3. destruct (music_world_refs w2) as (_ & _ & _ & -> & _).
    unfold w2. by destruct (stop_world_refs w1) as (_ & _ & _ & _ & ->). }
  unfold played. fold w1 w2 w3.
  destruct (found index w) as [a|] eqn:F.
  - pose proof H3 as (_ & A & _)%controller_inv_view.
    rewrite <- played_found in F.
    destruct (A _ a (proj2 (proj1 (found_Some _ _ _) F))) as [st Hst].
    rewrite (start_world_found index w3 a st F Hst). cbn. by rewrite E3, <- app_assoc.
  - rewrite start_world_missing by (by rewrite played_found). cbn.
    by rewrite E3, <- app_assoc.
Qed.

Lemma played_audio :
  ∃ a src lp n,
    audioRef (played index w) = Some a ∧
    audio_at (played index w) a = Some (src, lp, S n) ∧
    match audioRef w with
    | Some a0 => a = a0 ∧ audio_at w a0 = Some (src, lp, n)
    | None => audio_at w a = None ∧ src = DANCE_MUSIC ∧ lp = true ∧ n = 0
    end.
Proof.
  destruct played_stages as (H1 & H2 & _).
  destruct (music_world_audio w2 H2) as (a & src & lp & n & Ea & Ha & Hold).
  exists a, src, lp, n. unfold played. fold w1 w2 w3.
  destruct (start_world_refs index w3) as (_ & -> & _).
  rewrite start_world_audio. split_and!; [done | done |].
  assert (audioRef w2 = audioRef w) as Eu.
  { unfold w2. by destruct (stop_world_refs w1) as (_ & _ & -> & _). }
  assert (∀ l, audio_at w2 l = audio_at w l) as Eat.
  { intros l. unfold w2. by rewrite stop_world_audio. }
  rewrite Eu in Hold. destruct (audioRef w) as [a0|].
  - by rewrite <- Eat.
  - destruct Hold as (-> & -> & -> & ->). split_and!; try done.
    rewrite <- Eat. unfold audio_at, audio_in.
    by rewrite (proj2 (lookup_ge_None _ _)) by lia.
Qed.

End Played.

Lemma reachable_loaded_world : reachable loaded_world.
Proof. apply reachable_run, reachable_initial. Qed.

Lemma danceName_inj i j : danceName i = danceName j → i = j.
Proof. unfold danceName, JS.numeral. intros H. by simplify_eq. Qed.

(** Turns of the render loop change the local times of activated actions
    and nothing else. *)
Lemma mixerUpdate_refs t w :
  actionsRef (mixerUpdate t w) = actionsRef w ∧
  mixerRef (mixerUpdate t w) = mixerRef w ∧
  currentActionRef (mixerUpdate t w) = currentActionRef w ∧
  invoked (mixerUpdate t w) = invoked w ∧
  ∀ l, is_active (mixerUpdate t w) l = is_active w l.
Proof.
  unfold mixerUpdate. destruct (mixerRef w) as [mx|] eqn:Em; [| by rewrite Em].
  cbn [actionsRef mixerRef currentActionRef invoked set_heap].
  split_and!; try done.
  intros l. unfold is_active, action_at. cbn [heap set_heap].
  rewrite advance_action. destruct (action_in (heap w) l) as [st|]; [| done].
  cbn. destruct (a_active st) eqn:E; cbn; by rewrite ?E.
Qed.

Lemma frames_refs times : ∀ w,
  actionsRef (run (map Frame times) w) = actionsRef w ∧
  mixerRef (run (map Frame times) w) = mixerRef w ∧
  currentActionRef (run (map Frame times) w) = currentActionRef w ∧
  invoked (run (map Frame times) w) = invoked w ∧
  ∀ l, is_active (run (map Frame times) w) l = is_active w l.
Proof.
  induction times as [|t times IH]; intros w; [done |].
  cbn [map run foldl handle]. fold (run (map Frame times) (mixerUpdate t w)).
  destruct (IH (mixerUpdate t w)) as (-> & -> & -> & -> & Hact).
  destruct (mixerUpdate_refs t w) as (-> & -> & -> & -> & Hact').
  split_and!; try done. intros l. by rewrite Hact.
Qed.

Lemma run_snoc es e w : run (es ++ [e]) w = handle e (run es w).
Proof. unfold run. by rewrite foldl_app. Qed.

Lemma frame_time t w l st :
  is_Some (mixerRef w) → action_at w l = Some st → a_active st = true →
  a_time <$> action_at (mixerUpdate t w) l = Some (t l).
Proof.
  intros [mx Em] E Hact. unfold mixerUpdate. rewrite Em.
  unfold action_at in *. cbn [heap set_heap]. rewrite advance_action, E. cbn.
  by rewrite Hact.
Qed.

(** ** The lookup table *)

Lemma assoc_elem k v ps : JS.assoc k ps = Some v → (k, v) ∈ ps.
Proof.
  induction ps as [|[k' v'] ps IH]; simpl; [done |].
  destruct (String.eqb k k') eqn:E.
  - apply String.eqb_eq in E as ->. intros [= ->]. left.
  - intros H. right. auto.
Qed.

Lemma mappable_in_table b :
  mappable b = true → (b, JS.get boneMapping b) ∈ lookup_table.
Proof.
  unfold mappable, JS.get, lookup_table. intros H. apply elem_of_app.
  destruct (boneMapping !! b) as [s|] eqn:E.
  - left. apply boneMapping_entry in E.
    apply list_elem_of_fmap. by exists (b, s).
  - right. destruct (JS.assoc b JS.ObjectPrototype) eqn:E'; [| done].
    by apply assoc_elem.
Qed.

Lemma lookup_table_injective :
  Forall (λ p1, Forall (λ p2, JS.toString p1.2 = JS.toString p2.2 → p1.1 = p2.1)
                  lookup_table) lookup_table.
Proof. compute_done. Qed.

Lemma lookup_table_dotless :
  Forall (λ p, JS.before_first dot (JS.toString p.2) = JS.toString p.2) lookup_table.
Proof. compute_done. Qed.


Lemma mappable_injective b1 b2 :
  mappable b1 = true → mappable b2 = true →
  JS.toString (JS.get boneMapping b1) = JS.toString (JS.get boneMapping b2) → b1 = b2.
Proof.
  intros H1%mappable_in_table H2%mappable_in_table E.
  pose proof (proj1 (Forall_forall _ _) lookup_table_injective _ H1) as F.
  exact (proj1 (Forall_forall _ _) F _ H2 E).
Qed.

Lemma mappable_dotless b :
  mappable b = true →
  JS.before_first dot (JS.toString (JS.get boneMapping b)) = JS.toString (JS.get boneMapping b).
Proof.
  intros H%mappable_in_table.
  exact (proj1 (Forall_forall _ _) lookup_table_dotless _ H).
Qed.


(** ** Splitting and joining names *)

Lemma join_split s : join (JS.split dot s) = s.
Proof.
  induction s as [|c s IH]; [done |]. cbn [JS.split].
  destruct (Ascii.eqb c dot) eqn:E.
  - apply Ascii.eqb_eq in E as ->. cbn [join].
    destruct (JS.split dot s) as [|p ps] eqn:Es; [by apply split_nonempty in Es |].
    by rewrite IH.
  - destruct (JS.split dot s) as [|p ps] eqn:Es; [by apply split_nonempty in Es |].
    cbn [join] in *. destruct ps; simpl; by rewrite <- IH.
Qed.

Lemma split_two name b p : JS.split dot name = [b; p] → name = b +:+ "." +:+ p.
Proof. intros E. by rewrite <- (join_split name), E. Qed.

Lemma append_inv_head (s t1 t2 : string) : s +:+ t1 = s +:+ t2 → t1 = t2.
Proof. induction s as [|c s IH]; simpl; [done |]. intros [= H]. auto. Qed.

Lemma if_Some {A} (c : bool) (x m : A) :
  (if c then Some x else None) = Some m → c = true ∧ m = x.
Proof. destruct c; [| discriminate]. intros [= ->]. by split. Qed.

Lemma renamed_Some name m :
  renamed name = Some m →
  ∃ b, b = JS.toString (JS.element (JS.split dot name) 0) ∧ mappable b = true ∧
       m = JS.toString (JS.get boneMapping b) +:+ "." +:+
           JS.toString (JS.element (JS.split dot name) 1).
Proof.
  rewrite renamed_truthy. intros H. eexists. split; [reflexivity |].
  exact (if_Some _ _ _ H).
Qed.


Lemma renamed_injective n1 n2 m :
  two_parts n1 → two_parts n2 →
  renamed n1 = Some m → renamed n2 = Some m → n1 = n2.
Proof.
  unfold two_parts. intros L1 L2 R1 R2.
  apply renamed_Some in R1 as (c1 & Ec1 & Hc1 & Hm1).
  apply renamed_Some in R2 as (c2 & Ec2 & Hc2 & Hm2).
  destruct (JS.split dot n1) as [|b1 [|p1 [|]]] eqn:E1; try discriminate L1.
  destruct (JS.split dot n2) as [|b2 [|p2 [|]]] eqn:E2; try discriminate L2.
  cbn in Ec1, Ec2, Hm1, Hm2. subst c1 c2.
  assert (JS.toString (JS.get boneMapping b1) = JS.toString (JS.get boneMapping b2)) as Eb.
  { rewrite <- (before_first_app dot _ p1 (mappable_dotless b1 Hc1)).
    rewrite <- (before_first_app dot _ p2 (mappable_dotless b2 Hc2)).
    change (String dot p1) with ("." +:+ p1). change (String dot p2) with ("." +:+ p2).
    rewrite <- Hm1, <- Hm2. reflexivity. }
  assert (b1 = b2) as Hb by (apply mappable_injective; assumption).
  subst b2. rewrite Hm1 in Hm2.
  do 2 apply append_inv_head in Hm2. subst p2.
  rewrite (split_two _ _ _ E1), (split_two _ _ _ E2). reflexivity.
Qed.

Lemma retarget_data_names tds :
  map td_name (omap retarget_data tds) = omap renamed (map td_name tds).
Proof.
  induction tds as [|td tds IH]; [done |]. cbn [omap list_omap map].
  fold (omap retarget_data tds) (omap renamed (map td_name tds)).
  unfold retarget_data at 1. destruct (renamed (td_name td)); cbn; by rewrite IH.
Qed.

Lemma NoDup_omap {A B} (f : A → option B) (xs : list A) :
  (∀ x y z, x ∈ xs → y ∈ xs → f x = Some z → f y = Some z → x = y) →
  NoDup xs → NoDup (omap f xs).
Proof.
  intros Hinj Hnd. induction Hnd as [|x xs Hx Hnd IH]; [constructor |].
  cbn [omap list_omap]. fold (omap f xs).
  assert (NoDup (omap f xs)) as IH'.
  { apply IH. intros a b z Ha Hb. apply Hinj; by right. }
  destruct (f x) as [z|] eqn:E; [| done].
  constructor; [| done].
  intros (y & Hy & Ey)%list_elem_of_omap.
  assert (x = y) as -> by (apply (Hinj x y z); [left | by right | done | done]).
  done.
Qed.


(** ** Loading clips into the heap *)

Lemma set_heap_app w k1 k2 :
  set_heap (heap (set_heap (heap w ++ k1) w) ++ k2) (set_heap (heap w ++ k1) w) =
  set_heap (heap w ++ (k1 ++ k2)) w.
Proof. cbn [heap set_heap]. rewrite set_heap_twice. by rewrite app_assoc. Qed.

Lemma loadTrack_spec td w :
  ∃ t k,
    loadTrack td w = Ok t (set_heap (heap w ++ k) w) ∧
    view_track (heap w ++ k) t = Some td.
Proof.
  exists (length (heap w) + 2),
    [Float32Array (td_times td); Float32Array (td_values td);
     KeyframeTrack (td_name td) (length (heap w)) (length (heap w) + 1)].
  split.
  - unfold loadTrack, THREE.newKeyframeTrack, bind, alloc. cbn [heap set_heap].
    rewrite !set_heap_twice, !length_app. cbn [length].
    rewrite <- !app_assoc. cbn [app].
    by replace (length (heap w) + 1 + 1) with (length (heap w) + 2) by lia.
  - destruct td as [n ts vs]. cbn [td_name td_times td_values].
    apply (view_track_intro _ _ _ (length (heap w)) (length (heap w) + 1)).
    + rewrite lookup_app_r by lia.
      by replace (length (heap w) + 2 - length (heap w)) with 2 by lia.
    + rewrite lookup_app_r by lia. by rewrite Nat.sub_diag.
    + rewrite lookup_app_r by lia.
      by replace (length (heap w) + 1 - length (heap w)) with 1 by lia.
Qed.

Lemma loadTracks_spec tds : ∀ w,
  ∃ ts k,
    loadTracks tds w = Ok ts (set_heap (heap w ++ k) w) ∧
    Forall2 (λ t td, view_track (heap w ++ k) t = Some td) ts tds.
Proof.
  induction tds as [|td tds IH]; intros w.
  - exists [], []. split; [| constructor].
    cbn. by rewrite app_nil_r, set_heap_same.
  - destruct (loadTrack_spec td w) as (t & k1 & R1 & V1).
    destruct (IH (set_heap (heap w ++ k1) w)) as (ts & k2 & R2 & V2).
    rewrite set_heap_app in R2. cbn [heap set_heap] in V2. rewrite <- app_assoc in V2.
    exists (t :: ts), (k1 ++ k2). split.
    + cbn [loadTracks]. rewrite (bind_Ok _ _ _ _ _ R1), (bind_Ok _ _ _ _ _ R2). done.
    + constructor; [| done]. rewrite app_assoc. by apply view_track_app.
Qed.

Lemma loadClip_spec cd w :
  ∃ c k,
    loadClip cd w = Ok c (set_heap (heap w ++ k) w) ∧
    view_clip (heap w ++ k) c = Some cd.
Proof.
  destruct (loadTracks_spec (cd_tracks cd) w) as (ts & k1 & R1 & V1).
  exists (length (heap w ++ k1) + 1),
    (k1 ++ [JSArray ts; AnimationClip (cd_name cd) (cd_duration cd) (length (heap w ++ k1))]).
  split.
  - unfold loadClip. rewrite (bind_Ok _ _ _ _ _ R1).
    unfold THREE.newAnimationClip, bind, alloc. cbn [heap set_heap].
    rewrite !set_heap_twice, !length_app. cbn [length].
    by rewrite <- !app_assoc.
  - rewrite app_assoc. unfold view_clip, view_tracks.
    rewrite lookup_app_r by lia.
    replace (length (heap w ++ k1) + 1 - length (heap w ++ k1)) with 1 by lia.
    cbn [lookup list_lookup]. rewrite lookup_app_r by lia. rewrite Nat.sub_diag.
    cbn [lookup list_lookup].
    assert (mapM (view_track ((heap w ++ k1) ++
              [JSArray ts;
               AnimationClip (cd_name cd) (cd_duration cd) (length (heap w ++ k1))])) ts
            = Some (cd_tracks cd)) as ->.
    { apply mapM_Some. eapply Forall2_impl; [exact V1 |].
      intros t td. apply view_track_app. }
    by destruct cd.
Qed.

Lemma loadClips_spec cds : ∀ w,
  ∃ cs k,
    loadClips cds w = Ok cs (set_heap (heap w ++ k) w) ∧
    Forall2 (λ c d, view_clip (heap w ++ k) c = Some d) cs cds.
Proof.
  induction cds as [|cd cds IH]; intros w.
  - exists [], []. split; [| constructor].
    cbn. by rewrite app_nil_r, set_heap_same.
  - destruct (loadClip_spec cd w) as (c & k1 & R1 & V1).
    destruct (IH (set_heap (heap w ++ k1) w)) as (cs & k2 & R2 & V2).
    rewrite set_heap_app in R2. cbn [heap set_heap] in V2. rewrite <- app_assoc in V2.
    exists (c :: cs), (k1 ++ k2). split.
    + cbn [loadClips]. rewrite (bind_Ok _ _ _ _ _ R1), (bind_Ok _ _ _ _ _ R2). done.
    + constructor; [| done]. rewrite app_assoc. by apply view_clip_app.
Qed.

Lemma materialize_spec g w :
  ∃ cs k,
    materialize g w = Ok (length (heap w), cs) (set_heap (heap w ++ Group :: k) w) ∧
    Forall2 (λ c d, view_clip (heap w ++ Group :: k) c = Some d) cs (g_animations g).
Proof.
  destruct (loadClips_spec (g_animations g) (set_heap (heap w ++ [Group]) w))
    as (cs & k & R & V).
  rewrite set_heap_app in R. cbn [heap set_heap] in V. rewrite <- app_assoc in V.
  exists cs, k. split; [| done].
  unfold materialize. rewrite (bind_Ok _ _ _ _ _ (alloc_run _ _)).
  by rewrite (bind_Ok _ _ _ _ _ R).
Qed.

(** ** Registering actions *)

Lemma originalName_inj i j : originalName i = originalName j → i = j.
Proof. unfold originalName, JS.numeral. intros H. by simplify_eq. Qed.

Lemma registerAction_run name clip mx w :
  mixerRef w = Some mx →
  registerAction name clip w =
    Ok tt (set_actionsRef (<[name := length (heap w)]> (actionsRef w))
             (set_heap (heap w ++ [AnimationAction (newAction mx clip)]) w)).
Proof. intros H. unfold registerAction, bind, gets. rewrite H. reflexivity. Qed.

Lemma forEachFrom_ext {A} (xs : list A) (body body' : A → nat → M unit) : ∀ i w,
  (∀ x j w, body x j w = body' x j w) →
  forEachFrom i xs body w = forEachFrom i xs body' w.
Proof.
  induction xs as [|x xs IH]; intros i w H; [done |].
  cbn [forEachFrom]. unfold bind. rewrite H.
  destruct (body' x i w); [| done]. by apply IH.
Qed.

Section Register.
Context (f : nat → M nat) (g : clip_data → clip_data) (nm : nat → string).
Context (f_spec : ∀ w c d,
  view_clip (heap w) c = Some d →
  ∃ c' k, f c w = Ok c' (set_heap (heap w ++ k) w) ∧
          view_clip (heap w ++ k) c' = Some (g d)).
Context (nm_inj : ∀ i j, nm i = nm j → i = j).

(** The loop [clips.forEach((clip, index) => { ... })] that makes an action
    for (the image under [f] of) each clip and registers it under
    [nm index]. *)
Lemma register_loop clips : ∀ ds i w mx,
  mixerRef w = Some mx →
  Forall2 (λ c d, view_clip (heap w) c = Some d) clips ds →
  ∃ k A,
    forEachFrom i clips (λ clip index, c' <- f clip ;; registerAction (nm index) c') w =
      Ok tt (set_actionsRef A (set_heap (heap w ++ k) w)) ∧
    (∀ j d, ds !! j = Some d →
       ∃ a c', A !! nm (i + j) = Some a ∧ length (heap w) ≤ a ∧
               (heap w ++ k) !! a = Some (AnimationAction (newAction mx c')) ∧
               view_clip (heap w ++ k) c' = Some (g d)) ∧
    (∀ name, (∀ j, j < length ds → name ≠ nm (i + j)) → A !! name = actionsRef w !! name).
Proof.
  induction clips as [|c clips IH]; intros ds i w mx Hm F.
  - apply Forall2_nil_inv_l in F as ->. exists [], (actionsRef w). split_and!.
    + cbn. rewrite app_nil_r. by destruct w.
    + intros j d Hj. by rewrite lookup_nil in Hj.
    + done.
  - apply Forall2_cons_inv_l in F as (d & ds' & Vc & F & ->).
    destruct (f_spec w c d Vc) as (c' & k1 & R1 & V1).
    pose (w1 := set_heap (heap w ++ k1) w).
    pose (act := AnimationAction (newAction mx c')).
    pose (w2 := set_actionsRef (<[nm i := length (heap w1)]> (actionsRef w1))
                  (set_heap (heap w1 ++ [act]) w1)).
    destruct (IH ds' (S i) w2 mx) as (k2 & A & R2 & L2 & O2).
    { done. }
    { eapply Forall2_impl; [exact F |]. intros c0 d0 V0. cbn [heap set_heap set_actionsRef w2 w1].
      by do 2 apply view_clip_app. }
    exists (k1 ++ [act] ++ k2), A.
    assert (heap w2 ++ k2 = heap w ++ k1 ++ [act] ++ k2) as Eh.
    { cbn [heap set_heap set_actionsRef w2 w1]. by rewrite <- !app_assoc. }
    split_and!.
    + cbn [forEachFrom]. unfold bind at 1. unfold bind at 1. rewrite R1.
      fold w1. rewrite (registerAction_run _ _ mx) by done. fold act. fold w2.
      rewrite R2. rewrite Eh. reflexivity.
    + intros [|j] d0 Hj.
      * injection Hj as <-. exists (length (heap w1)), c'. split_and!.
        -- rewrite Nat.add_0_r. rewrite O2.
           ++ cbn [actionsRef set_actionsRef w2]. apply lookup_insert_eq.
           ++ intros j _ E. apply nm_inj in E. lia.
        -- cbn [heap set_heap w1]. rewrite length_app. lia.
        -- cbn [heap set_heap w1]. rewrite (app_assoc _ k1).
           apply (list_lookup_middle (heap w ++ k1) k2 act). done.
        -- rewrite (app_assoc _ k1). by apply view_clip_app.
      * destruct (L2 j d0 Hj) as (a & c0 & Ea & La & Ha & Va).
        exists a, c0. rewrite Eh in Ha, Va.
        replace (i + S j) with (S i + j) by lia. split_and!; [done | | done | done].
        cbn [heap set_heap set_actionsRef w2 w1] in La. rewrite !length_app in La. lia.
    + intros name Hne. rewrite O2.
      * cbn [actionsRef set_actionsRef set_heap w2 w1]. apply lookup_insert_ne.
        intros E. apply (Hne 0); [cbn; lia |]. by rewrite Nat.add_0_r.
      * intros j Hj. replace (S i + j) with (i + S j) by lia. apply Hne. cbn. lia.
Qed.

End Register.

Lemma ret_spec w c d :
  view_clip (heap w) c = Some d →
  ∃ c' k, ret c w = Ok c' (set_heap (heap w ++ k) w) ∧
          view_clip (heap w ++ k) c' = Some (id d).
Proof.
  intros V. exists c, []. rewrite app_nil_r. split; [| done].
  unfold ret. by rewrite set_heap_same.
Qed.

Lemma retarget_spec w c d :
  view_clip (heap w) c = Some d →
  ∃ c' k, retargetAnimation c w = Ok c' (set_heap (heap w ++ k) w) ∧
          view_clip (heap w ++ k) c' = Some (retarget_clip d).
Proof.
  intros V. destruct (retargetAnimation_spec w c d V) as (c' & k & R & V' & _).
  by exists c', k.
Qed.

Lemma processExternalAnimations_spec w c clips scene mx ds :
  danceAnimationsRef w = c :: clips → modelRef w = Some scene → mixerRef w = Some mx →
  Forall2 (λ c d, view_clip (heap w) c = Some d) (c :: clips) ds →
  ∃ k A,
    processExternalAnimations w = Ok tt (set_actionsRef A (set_heap (heap w ++ k) w)) ∧
    (∀ j d, ds !! j = Some d →
       ∃ a c', A !! danceName j = Some a ∧ length (heap w) ≤ a ∧
               (heap w ++ k) !! a = Some (AnimationAction (newAction mx c')) ∧
               view_clip (heap w ++ k) c' = Some (retarget_clip d)) ∧
    (∀ name, (∀ j, j < length ds → name ≠ danceName j) → A !! name = actionsRef w !! name).
Proof.
  intros Hc Hs Hm F.
  destruct (register_loop retargetAnimation retarget_clip danceName retarget_spec
              danceName_inj (c :: clips) ds 0 w mx Hm F) as (k & A & R & L & O).
  exists k, A. split_and!; [| exact L | exact O].
  unfold processExternalAnimations, bind, gets. rewrite Hc, Hs, Hm.
  unfold bind in R. unfold try_catch, forEach. by rewrite R.
Qed.

Lemma processExternalAnimations_guard w :
  danceAnimationsRef w = [] ∨ modelRef w = None ∨ mixerRef w = None →
  processExternalAnimations w =
    Ok tt (set_console
             (console w ++ [ConsoleWarn "アニメーションの処理に必要なデータが不足しています"]) w).
Proof.
  intros H. unfold processExternalAnimations, bind, gets.
  destruct (danceAnimationsRef w), (modelRef w), (mixerRef w);
    try reflexivity; destruct H as [?|[?|?]]; discriminate.
Qed.

Lemma processExternalAnimations_returns w : ∃ w', processExternalAnimations w = Ok tt w'.
Proof.
  unfold processExternalAnimations, bind, gets.
  destruct (danceAnimationsRef w), (modelRef w), (mixerRef w);
    try (eexists; reflexivity).
  unfold try_catch. destruct (forEach _ _ w) as [[] w'|e w']; eexists; reflexivity.
Qed.

Lemma afterCharacter_spec g w :
  ∃ mx k A,
    afterCharacter g w =
      Ok tt (set_actionsRef A
               (set_mixerRef (Some mx)
                  (set_modelRef (Some (length (heap w))) (set_heap (heap w ++ k) w)))) ∧
    length (heap w) ≤ mx ∧
    (∀ j d, g_animations g !! j = Some d →
       ∃ a c', A !! originalName j = Some a ∧ length (heap w) ≤ a ∧
               (heap w ++ k) !! a = Some (AnimationAction (newAction mx c')) ∧
               view_clip (heap w ++ k) c' = Some d) ∧
    (∀ name, (∀ j, j < length (g_animations g) → name ≠ originalName j) →
             A !! name = actionsRef w !! name).
Proof.
  destruct (materialize_spec g w) as (cs & k1 & R1 & V1).
  pose (scene := length (heap w)).
  pose (mx := length (heap w ++ Group :: k1)).
  pose (w2 := set_mixerRef (Some mx)
                (set_modelRef (Some scene)
                   (set_heap (heap w ++ Group :: k1 ++ [AnimationMixer scene]) w))).
  assert (Forall2 (λ c d, view_clip (heap w2) c = Some d) cs (g_animations g)) as V2.
  { eapply Forall2_impl; [exact V1 |]. intros c d V. cbn [heap set_heap set_mixerRef set_modelRef w2].
    change (Group :: k1 ++ [AnimationMixer scene]) with ((Group :: k1) ++ [AnimationMixer scene]).
    rewrite app_assoc. by apply view_clip_app. }
  destruct (register_loop ret id originalName ret_spec originalName_inj
              cs (g_animations g) 0 w2 mx eq_refl V2) as (k2 & A & R2 & L2 & O2).
  exists mx, (Group :: k1 ++ [AnimationMixer scene] ++ k2), A.
  assert (heap w2 ++ k2 = heap w ++ Group :: k1 ++ [AnimationMixer scene] ++ k2) as Eh.
  { cbn [heap set_heap set_mixerRef set_modelRef w2]. rewrite <- app_assoc. cbn [app].
    by rewrite <- app_assoc. }
  split_and!.
  - unfold afterCharacter. rewrite (bind_Ok _ _ _ _ _ R1). cbv beta iota.
    unfold bind at 1, modify at 1. unfold bind at 1, alloc at 1.
    unfold bind at 1, modify at 1.
    cbn [heap set_heap set_modelRef set_mixerRef].
    fold scene. fold mx.
    transitivity (forEachFrom 0 cs
                    (λ clip index, c' <- ret clip ;; registerAction (originalName index) c') w2).
    + assert (set_mixerRef (Some mx)
                (set_heap ((heap w ++ Group :: k1) ++ [AnimationMixer scene])
                   (set_modelRef (Some scene) (set_heap (heap w ++ Group :: k1) w))) = w2)
        as -> by (unfold w2; rewrite <- app_assoc; reflexivity).
      destruct cs as [|c0 cs]; [reflexivity |].
      unfold forEach. apply forEachFrom_ext. reflexivity.
    + rewrite R2. rewrite Eh. reflexivity.
  - unfold mx. rewrite length_app. lia.
  - intros j d Hj. destruct (L2 j d Hj) as (a & c' & Ea & La & Ha & Va).
    rewrite Eh in Ha, Va. exists a, c'. split_and!; [done | | done | done].
    cbn [heap set_heap set_mixerRef set_modelRef w2] in La. rewrite length_app in La. lia.
  - intros name Hne. by rewrite O2.
Qed.

Lemma afterDance_spec g w :
  ∃ cs k A c,
    afterDance g w =
      Ok tt (set_modelLoaded (modelLoaded w ++ [(true, None)])
               (set_console c
                  (set_actionsRef A
                     (set_danceAnimationsRef cs (set_heap (heap w ++ k) w))))) ∧
    Forall2 (λ c d, view_clip (heap w ++ k) c = Some d) cs (g_animations g) ∧
    (∀ name, (∀ j, j < length (g_animations g) → name ≠ danceName j) →
             A !! name = actionsRef w !! name) ∧
    match mixerRef w, modelRef w with
    | Some mx, Some _ =>
        c = console w ∧
        ∀ j d, g_animations g !! j = Some d →
          ∃ a c', A !! danceName j = Some a ∧ length (heap w) ≤ a ∧
                  (heap w ++ k) !! a = Some (AnimationAction (newAction mx c')) ∧
                  view_clip (heap w ++ k) c' = Some (retarget_clip d)
    | _, _ =>
        A = actionsRef w ∧
        c = console w ++
            match g_animations g with
            | [] => []
            | _ :: _ => [ConsoleWarn "アニメーションの処理に必要なデータが不足しています"]
            end
    end.
Proof.
  destruct (materialize_spec g w) as (cs & k1 & R1 & V1).
  destruct cs as [|c0 cs].
  { apply Forall2_nil_inv_l in V1 as Eg.
    exists [], (Group :: k1), (actionsRef w), (console w). split_and!.
    - unfold afterDance. rewrite (bind_Ok _ _ _ _ _ R1). cbv beta iota.
      unfold bind, modify, ret, props_onModelLoaded. by destruct w.
    - done.
    - done.
    - rewrite Eg, app_nil_r. by destruct (mixerRef w), (modelRef w). }
  pose (w1 := set_danceAnimationsRef (c0 :: cs) (set_heap (heap w ++ Group :: k1) w)).
  assert (afterDance g w =
            bind processExternalAnimations (λ _, props_onModelLoaded true None) w1) as E.
  { unfold afterDance. rewrite (bind_Ok _ _ _ _ _ R1). cbv beta iota. reflexivity. }
  assert (∃ d0 ds, g_animations g = d0 :: ds) as (d0 & ds & Eg).
  { apply Forall2_cons_inv_l in V1 as (? & ? & _ & _ & ?). eauto. }
  destruct (mixerRef w) as [mx|] eqn:Hm; [destruct (modelRef w) as [scene|] eqn:Hs |].
  - destruct (processExternalAnimations_spec w1 c0 cs scene mx (g_animations g))
      as (k2 & A & R2 & L2 & O2); [done | done | done | done |].
    exists (c0 :: cs), ((Group :: k1) ++ k2), A, (console w).
    assert (heap w1 ++ k2 = heap w ++ (Group :: k1) ++ k2) as Eh
      by (cbn [heap set_heap set_danceAnimationsRef w1]; by rewrite <- app_assoc).
    rewrite Eh in *. split_and!.
    + rewrite E, (bind_Ok _ _ _ _ _ R2). unfold props_onModelLoaded, modify.
      unfold w1. by destruct w.
    + eapply Forall2_impl; [exact V1 |]. intros c d V. rewrite app_assoc.
      by apply view_clip_app.
    + intros name Hne. by rewrite O2.
    + done.
    + intros j d Hj. destruct (L2 j d Hj) as (a & c' & ? & La & ? & ?).
      exists a, c'. split_and!; [done | | done | done].
      cbn [heap set_heap set_danceAnimationsRef w1] in La. rewrite length_app in La. lia.
  - exists (c0 :: cs), (Group :: k1), (actionsRef w),
      (console w ++ [ConsoleWarn "アニメーションの処理に必要なデータが不足しています"]).
    split; [| split; [done | split; [done | by rewrite Eg]]].
    rewrite E. erewrite bind_Ok; [| apply processExternalAnimations_guard; by right; left].
    unfold props_onModelLoaded, modify. unfold w1. by destruct w.
  - exists (c0 :: cs), (Group :: k1), (actionsRef w),
      (console w ++ [ConsoleWarn "アニメーションの処理に必要なデータが不足しています"]).
    split; [| split; [done | split; [done | by rewrite Eg]]].
    rewrite E. erewrite bind_Ok; [| apply processExternalAnimations_guard; by right; right].
    unfold props_onModelLoaded, modify. unfold w1. by destruct w.
Qed.

(** ** The steps of a load *)







(** ** What no event undoes *)

Lemma evolves_refl w : evolves w w.
Proof.
  split; try done.
  - intros l st H. by exists st.
  - intros l src lp n H. exists src, lp, n. split_and!; [done | by left | lia].
Qed.

Lemma evolves_trans w1 w2 w3 : evolves w1 w2 → evolves w2 w3 → evolves w1 w3.
Proof.
  intros [D1 A1 U1 C1 I1 M1 X1 Y1 R1 N1] [D2 A2 U2 C2 I2 M2 X2 Y2 R2 N2]. split.
  - intros l o H Hd. apply D2; [by apply D1 | done].
  - intros l st H. destruct (A1 l st H) as (st' & H' & Ec & Em).
    destruct (A2 l st' H') as (st'' & H'' & Ec' & Em'). exists st''.
    split_and!; [done | congruence | congruence].
  - intros l src lp n H. destruct (U1 l src lp n H) as (s1 & l1 & n1 & H1 & Hs1 & Hn1).
    destruct (U2 l s1 l1 n1 H1) as (s2 & l2 & n2 & H2 & Hs2 & Hn2).
    exists s2, l2, n2. split_and!; [done | | lia].
    destruct Hs2 as [-> | ->]; [done | by right].
  - by etrans.
  - by etrans.
  - by etrans.
  - auto.
  - auto.
  - auto.
  - auto.
Qed.

(** The heap has grown at its end, or one playback object has been replaced
    by one that [evolves] allows; the other fields obey [evolves]. *)
Lemma evolves_heap w w' :
  (∀ l o, heap w !! l = Some o → is_data o = true → heap w' !! l = Some o) →
  (∀ l st, action_at w l = Some st →
     ∃ st', action_at w' l = Some st' ∧ a_clip st' = a_clip st ∧ a_mixer st' = a_mixer st) →
  (∀ l src lp n, audio_at w l = Some (src, lp, n) →
     ∃ src' lp' n',
       audio_at w' l = Some (src', lp', n') ∧ (src' = src ∨ src' = EmptyString) ∧ n ≤ n') →
  console w `prefix_of` console w' →
  invoked w `prefix_of` invoked w' →
  modelLoaded w `prefix_of` modelLoaded w' →
  (is_Some (mixerRef w) → is_Some (mixerRef w')) →
  (is_Some (modelRef w) → is_Some (modelRef w')) →
  (∀ a, audioRef w = Some a → audioRef w' = Some a) →
  (∀ name, is_Some (actionsRef w !! name) → is_Some (actionsRef w' !! name)) →
  evolves w w'.
Proof. intros. by split. Qed.

Lemma evolves_app w w' k :
  heap w' = heap w ++ k →
  console w `prefix_of` console w' →
  invoked w `prefix_of` invoked w' →
  modelLoaded w `prefix_of` modelLoaded w' →
  (is_Some (mixerRef w) → is_Some (mixerRef w')) →
  (is_Some (modelRef w) → is_Some (modelRef w')) →
  (∀ a, audioRef w = Some a → audioRef w' = Some a) →
  (∀ name, is_Some (actionsRef w !! name) → is_Some (actionsRef w' !! name)) →
  evolves w w'.
Proof.
  intros Hh ? ? ? ? ? ? ?. split; try done.
  - intros l o Hl _. rewrite Hh. by apply lookup_app_l_Some.
  - intros l st Hl. exists st. split_and!; [| done | done].
    apply action_at_Some in Hl. apply action_at_Some. rewrite Hh. by apply lookup_app_l_Some.
  - intros l src lp n Hl. exists src, lp, n. split_and!; [| by left | lia].
    apply audio_at_Some in Hl. apply audio_at_Some. rewrite Hh. by apply lookup_app_l_Some.
Qed.

Lemma calm_preserves {A} (m : M A) : calm m → ∀ w0, preserves (evolves w0) m.
Proof. intros H w0 w H0. eapply evolves_trans; [exact H0 | apply H]. Qed.

Lemma preserves_calm {A} (m : M A) : (∀ w0, preserves (evolves w0) m) → calm m.
Proof. intros H w. apply H, evolves_refl. Qed.

Lemma calm_alloc o : calm (alloc o).
Proof. intros w. cbn. by apply (evolves_app _ _ [o]). Qed.

Lemma calm_console c : calm (modify (fun w => set_console (console w ++ c) w)).
Proof.
  intros w. cbn. apply (evolves_app _ _ []); try done.
  - cbn. by rewrite app_nil_r.
  - by apply prefix_app_r.
Qed.

Lemma calm_currentActionRef x : calm (modify (set_currentActionRef x)).
Proof. intros w. cbn. apply (evolves_app _ _ []); try done. cbn. by rewrite app_nil_r. Qed.

Lemma lookup_insert_other {A} (h : list A) (a l : nat) (x y z : A) :
  h !! a = Some x → h !! l = Some z → z ≠ x → <[a := y]> h !! l = Some z.
Proof.
  intros Ha Hl Hne. rewrite list_lookup_insert_ne; [done |]. intros ->. congruence.
Qed.

Lemma calm_call a m f :
  (∀ st, a_clip (f st) = a_clip st ∧ a_mixer (f st) = a_mixer st) → calm (Action.call a m f).
Proof.
  intros Hf w. destruct (heap w !! a) as [o|] eqn:Ha.
  2:{ unfold Action.call, bind, readAction. rewrite Ha. apply evolves_refl. }
  destruct o as [| | | |st| | |];
    try (unfold Action.call, bind, readAction; rewrite Ha; apply evolves_refl).
  rewrite (call_run a m f st w Ha). cbn [after].
  assert (a < length (heap w)) as Hlt by (by eapply lookup_lt_Some).
  apply evolves_heap; cbn; try done.
  - intros l o Hl Hd. eapply lookup_insert_other; [done | done |]. intros ->. done.
  - intros l st0 Hl. unfold action_at in *. cbn. rewrite action_in_insert by done.
    case_decide as E; [subst l | by exists st0].
    apply action_at_Some in Hl. rewrite Ha in Hl. injection Hl as <-.
    exists (f st). by destruct (Hf st).
  - intros l src lp n Hl. exists src, lp, n. split_and!; [| by left | lia].
    unfold audio_at in *. cbn. rewrite audio_in_insert_action; [done |].
    unfold action_in. by rewrite Ha.
  - by apply prefix_app_r.
Qed.

Lemma calm_audio_store a (f : string → bool → nat → object) :
  (∀ src lp n, ∃ src' lp' n',
     f src lp n = Audio src' lp' n' ∧ (src' = src ∨ src' = EmptyString) ∧ n ≤ n') →
  ∀ w, evolves w
         (after (match heap w !! a with
                 | Some (Audio src lp n) => store a (f src lp n) w
                 | _ => Throw (TypeError "not an Audio element") w
                 end)).
Proof.
  intros Hf w. destruct (heap w !! a) as [[| | | | | | |src lp n]|] eqn:Ha;
    try apply evolves_refl.
  destruct (Hf src lp n) as (src' & lp' & n' & -> & Hs & Hn). cbn.
  assert (a < length (heap w)) as Hlt by (by eapply lookup_lt_Some).
  apply evolves_heap; cbn; try done.
  - intros l o Hl Hd. eapply lookup_insert_other; [done | done |]. intros ->. done.
  - intros l st0 Hl. exists st0. split_and!; [| done | done].
    unfold action_at in *. cbn. rewrite action_in_insert_audio; [done |].
    unfold audio_in. by rewrite Ha.
  - intros l s0 l0 n0 Hl. unfold audio_at in *. cbn. rewrite audio_in_insert by done.
    case_decide as E; [subst l | exists s0, l0, n0; split_and!; [done | by left | lia]].
    apply audio_at_Some in Hl. rewrite Ha in Hl. injection Hl as <- <- <-.
    by exists src', lp', n'.
Qed.

Lemma calm_audio_play a : calm (audio_play a).
Proof.
  intros w. unfold audio_play. revert w. apply (calm_audio_store a (fun src lp n => Audio src lp (S n))).
  intros src lp n. exists src, lp, (S n). split_and!; [done | by left | lia].
Qed.

Lemma calm_audio_setLoop a b : calm (audio_setLoop a b).
Proof.
  intros w. unfold audio_setLoop. revert w. apply (calm_audio_store a (fun src _ n => Audio src b n)).
  intros src lp n. exists src, b, n. split_and!; [done | by left | lia].
Qed.

Lemma calm_audio_release a : calm (audio_release a).
Proof.
  intros w. unfold audio_release. revert w. apply (calm_audio_store a (fun _ lp n => Audio EmptyString lp n)).
  intros src lp n. exists EmptyString, lp, n. split_and!; [done | by right | lia].
Qed.

Ltac calm_leaf :=
  first
    [ apply calm_preserves, calm_console
    | apply calm_preserves, calm_alloc
    | apply calm_preserves, calm_currentActionRef
    | apply calm_preserves, calm_audio_play
    | apply calm_preserves, calm_audio_setLoop
    | apply calm_preserves, calm_audio_release
    | apply calm_preserves, calm_call; intros st; by split ].

Lemma calm_playMusic : calm playMusic.
Proof.
  intros w. unfold playMusic. destruct (audioRef w) as [a|] eqn:E.
  - unfold bind at 1, gets at 1. rewrite E. unfold bind at 1, ret at 1.
    unfold bind, gets. rewrite E. apply calm_audio_play.
  - unfold bind at 1, gets at 1. rewrite E.
    unfold bind at 1. unfold bind at 1, alloc at 1. unfold bind at 1, modify at 1.
    set (w2 := set_audioRef _ _).
    apply (evolves_trans _ w2).
    + apply (evolves_app _ _ [Audio DANCE_MUSIC false 0]); try done.
      intros a Ha. congruence.
    + revert w2. generalize (length (heap w)). intros a w2.
      apply (preserves_calm
               (bind (audio_setLoop a true)
                  (λ _, audio <- gets audioRef ;;
                        match audio with
                        | Some a => audio_play a
                        | None => throw (TypeError "audioRef.current is null")
                        end))).
      intros w0. repeat preserves_step; calm_leaf.
Qed.

Lemma calm_playDanceAnimation index : calm (playDanceAnimation index).
Proof.
  apply preserves_calm. intros w0.
  unfold playDanceAnimation, stopExisting, playSpecified, console_log, console_warn,
    Action.fadeOut, Action.stop, Action.reset, Action.fadeIn, Action.play, Action.setLoop.
  repeat preserves_step; try calm_leaf.
  apply calm_preserves, calm_playMusic.
Qed.

Lemma is_data_advance time l o : is_data o = true → advance time l o = o.
Proof. by destruct o. Qed.

Lemma is_data_stopAll mx o : is_data o = true → stopAll mx o = o.
Proof. by destruct o. Qed.

Lemma evolves_mixerUpdate time w : evolves w (mixerUpdate time w).
Proof.
  unfold mixerUpdate. destruct (mixerRef w) as [mx|]; [| apply evolves_refl].
  apply evolves_heap; cbn; try done.
  - intros l o Hl Hd. rewrite list_lookup_imap, Hl. cbn. by rewrite is_data_advance.
  - intros l st Hl. unfold action_at in *. cbn. rewrite advance_action, Hl. cbn.
    eexists. split; [reflexivity |]. by destruct (a_active st).
  - intros l src lp n Hl. unfold audio_at in *. cbn. rewrite advance_audio, Hl.
    exists src, lp, n. split_and!; [done | by left | lia].
Qed.

Lemma calm_stopAllAction mx : calm (stopAllAction mx).
Proof.
  intros w. cbn. apply evolves_heap; cbn; try done.
  - intros l o Hl Hd. rewrite list_lookup_fmap, Hl. cbn. by rewrite is_data_stopAll.
  - intros l st Hl. unfold action_at in *. cbn. rewrite stopAll_action, Hl. cbn.
    eexists. split; [reflexivity |]. by destruct (a_active st && _).
  - intros l src lp n Hl. unfold audio_at in *. cbn. rewrite stopAll_audio, Hl.
    exists src, lp, n. split_and!; [done | by left | lia].
Qed.

Lemma calm_cleanup : calm cleanup.
Proof.
  apply preserves_calm. intros w0. unfold cleanup.
  repeat preserves_step; try calm_leaf.
  apply calm_preserves, calm_stopAllAction.
Qed.

Lemma calm_loadModels : calm loadModels.
Proof.
  intros w. unfold loadModels, bind, gets. destruct (isLoading w); [apply evolves_refl |].
  cbn. apply (evolves_app _ _ []); try done. cbn. by rewrite app_nil_r.
Qed.

Lemma name_cases (nm : nat → string) (n : nat) (name : string) :
  (∃ j, j < n ∧ name = nm j) ∨ (∀ j, j < n → name ≠ nm j).
Proof.
  induction n as [|n IH]; [right; lia |].
  destruct IH as [(j & Hj & ->)|IH]; [left; exists j; split; [lia | done] |].
  destruct (decide (name = nm n)) as [-> | Hne]; [left; exists n; split; [lia | done] |].
  right. intros j Hj. destruct (decide (j = n)) as [-> | ]; [done | apply IH; lia].
Qed.

Lemma calm_catch_finally message :
  calm (try_finally (catchBlock message) finallyBlock).
Proof.
  intros w. cbn. apply (evolves_app _ _ []); try done.
  - cbn. by rewrite app_nil_r.
  - by apply prefix_app_r.
  - by apply prefix_app_r.
Qed.

Lemma calm_resume t o : calm (resume t o).
Proof.
  intros w. destruct o as [g|message]; [| apply calm_catch_finally].
  destruct t; cbn [resume].
  - destruct (afterCharacter_spec g w) as (mx & k & A & -> & _ & L & O). cbn.
    apply (evolves_app _ _ k); try done.
    intros name Hn. cbn.
    destruct (name_cases originalName (length (g_animations g)) name) as [(j & Hj & ->)|Hne].
    + apply lookup_lt_is_Some_2 in Hj as [d Hd].
      destruct (L j d Hd) as (a & ? & -> & _). done.
    + by rewrite O.
  - destruct (afterDance_spec g w) as (cs & k & A & c & R & _ & O & H).
    unfold try_finally, try_catch. rewrite R. cbn.
    apply (evolves_app _ _ k); try done.
    + cbn. destruct (mixerRef w), (modelRef w); destruct H as [-> H]; try done;
        subst c; by apply prefix_app_r.
    + by apply prefix_app_r.
    + intros name Hn. cbn.
      destruct (mixerRef w) as [mx|], (modelRef w); try (by destruct H as [-> _]).
      destruct H as [_ L].
      destruct (name_cases danceName (length (g_animations g)) name) as [(j & Hj & ->)|Hne].
      * apply lookup_lt_is_Some_2 in Hj as [d Hd].
        destruct (L j d Hd) as (a & ? & -> & _). done.
      * by rewrite O.
Qed.

Lemma evolves_handle e w : evolves w (handle e w).
Proof.
  destruct e as [| |k o|index|time]; cbn [handle].
  - apply calm_loadModels.
  - apply calm_cleanup.
  - destruct (pending w !! k) as [t|]; [| apply evolves_refl].
    eapply evolves_trans; [| apply calm_resume].
    apply (evolves_app _ _ []); try done. cbn. by rewrite app_nil_r.
  - apply calm_playDanceAnimation.
  - apply evolves_mixerUpdate.
Qed.

Lemma evolves_run es : ∀ w, evolves w (run es w).
Proof.
  induction es as [|e es IH]; intros w; [apply evolves_refl |].
  unfold run. cbn [foldl]. eapply evolves_trans; [apply evolves_handle | apply IH].
Qed.

Lemma view_clip_data h h' c d :
  (∀ l o, h !! l = Some o → is_data o = true → h' !! l = Some o) →
  view_clip h c = Some d → view_clip h' c = Some d.
Proof.
  intros K. unfold view_clip, view_tracks.
  destruct (h !! c) as [[| |?|n du t| | | |]|] eqn:Hc; try discriminate.
  destruct (h !! t) as [[|items| | | | | |]|] eqn:Ht; try discriminate.
  destruct (mapM (view_track h) items) as [tds|] eqn:Hm; try discriminate.
  intros [= <-]. rewrite (K _ _ Hc eq_refl), (K _ _ Ht eq_refl).
  assert (mapM (view_track h') items = Some tds) as ->; [| done].
  apply mapM_Some. apply mapM_Some in Hm.
  eapply Forall2_impl; [exact Hm |]. intros tr td V.
  destruct (view_track_inv _ _ _ V) as (ts & vs & H1 & H2 & H3).
  destruct td as [n' ts' vs']. cbn in *.
  apply (view_track_intro _ _ _ ts vs); by apply K.
Qed.

(** ** Reported only by the loader *)

(** The controller's calls, the music and the cleanup do not call
    [onModelLoaded] and do not write [danceAnimationsRef]. *)
Lemma quiet_call a m f x y :
  preserves (λ w, modelLoaded w = x ∧ danceAnimationsRef w = y) (Action.call a m f).
Proof. unfold Action.call, store. repeat preserves_step; steady_leaf. Qed.

Lemma quiet_audio_store a (f : string → bool → nat → object) x y :
  preserves (λ w, modelLoaded w = x ∧ danceAnimationsRef w = y)
    (fun w => match heap w !! a with
              | Some (Audio src lp n) => store a (f src lp n) w
              | _ => Throw (TypeError "not an Audio element") w
              end).
Proof. intros w H. by destruct (heap w !! a) as [[]|]. Qed.

Lemma quiet_playDanceAnimation index x y :
  preserves (λ w, modelLoaded w = x ∧ danceAnimationsRef w = y) (playDanceAnimation index).
Proof.
  unfold playDanceAnimation, stopExisting, playMusic, playSpecified,
    console_log, console_warn,
    Action.fadeOut, Action.stop, Action.reset, Action.fadeIn, Action.play, Action.setLoop.
  repeat preserves_step; steady_leaf;
    try apply quiet_call;
    try apply (quiet_audio_store _ (fun src lp n => Audio src lp (S n)));
    try apply (quiet_audio_store _ (fun src _ n => Audio src true n)).
Qed.

Lemma quiet_cleanup x y :
  preserves (λ w, modelLoaded w = x ∧ danceAnimationsRef w = y) cleanup.
Proof.
  unfold cleanup, stopAllAction. repeat preserves_step; steady_leaf.
  apply (quiet_audio_store _ (fun _ lp n => Audio EmptyString lp n)).
Qed.





Lemma cleanup_audio w a src lp n :
  audioRef w = Some a → heap w !! a = Some (Audio src lp n) →
  audioRef (after (cleanup w)) = Some a ∧
  audio_at (after (cleanup w)) a = Some (EmptyString, lp, n).
Proof.
  intros Ha Hl.
  assert (a < length (heap w)) as Hlt by (by eapply lookup_lt_Some).
  unfold cleanup, bind, gets, ret, stopAllAction, modify, audio_release.
  destruct (mixerRef w) as [mx|]; cbn [audioRef heap set_heap]; rewrite Ha;
    cbn [audioRef heap set_heap].
  - rewrite list_lookup_fmap, Hl. cbn. split; [done |].
    unfold audio_at, audio_in. cbn. rewrite list_lookup_insert_eq; [done |].
    by rewrite length_fmap.
  - rewrite Hl. cbn. split; [done |].
    unfold audio_at, audio_in. cbn. by rewrite list_lookup_insert_eq.
Qed.

Lemma modelLoaded_handle e w :
  loader_inv w →
  (pending w ≠ [] ∧ pending (handle e w) = [] ∧
   ∃ r, modelLoaded (handle e w) = modelLoaded w ++ [r]) ∨
  ((pending w = [] ∨ pending (handle e w) ≠ []) ∧
   modelLoaded (handle e w) = modelLoaded w).
Proof.
  intros HL. destruct e as [| |k o|index|time]; cbn [handle].
  - right. destruct (isLoading w) eqn:Hf.
    + rewrite (loadModels_busy w Hf). cbn.
      destruct HL as [[? ?]|[_ [t ->]]]; [congruence |]. split; [by right | done].
    + rewrite (loadModels_idle w Hf). cbn. split; [right | done].
      by destruct (pending w).
  - right.
    destruct (steady_cleanup (isLoading w) (pending w) w) as [_ Hp]; [done |].
    destruct (quiet_cleanup (modelLoaded w) (danceAnimationsRef w) w) as [Hm _]; [done |].
    rewrite Hp, Hm. split; [| done]. destruct (pending w); [by left | by right].
  - destruct (pending w !! k) as [t|] eqn:Hk.
    2:{ right. split; [| done]. destruct (pending w); [by left | by right]. }
    destruct HL as [[_ Hp]|[Hf [t' Hp]]]; [by rewrite Hp in Hk |].
    rewrite Hp in Hk. destruct k; [| done]. injection Hk as ->.
    rewrite Hp. change (delete 0 [t]) with (@nil task).
    destruct o as [g|message].
    + destruct t; cbn [resume].
      * right. destruct (afterCharacter_spec g (set_pending [] w)) as (mx & k & A & -> & _).
        cbn. split; [by right | done].
      * left. destruct (afterDance_spec g (set_pending [] w)) as (cs & k & A & c & R & _).
        unfold try_finally, try_catch. rewrite R. cbn. split_and!; [done | done | by eexists].
    + left. split_and!; [done | done | by eexists].
  - right.
    destruct (steady_playDanceAnimation index (isLoading w) (pending w) w) as [_ Hp];
      [done |].
    destruct (quiet_playDanceAnimation index (modelLoaded w) (danceAnimationsRef w) w)
      as [Hm _]; [done |].
    rewrite Hp, Hm. split; [| done]. destruct (pending w); [by left | by right].
  - right. unfold mixerUpdate. destruct (mixerRef w); cbn;
      (split; [| done]); (destruct (pending w); [by left | by right]).
Qed.

(** ** Searching a string *)

Lemma startsWith_spec part : ∀ text,
  startsWith part text = true ↔ ∃ post, text = part +:+ post.
Proof.
  induction part as [|a part IH]; intros text.
  - split; [intros _; by exists text | done].
  - destruct text as [|b text]; cbn [startsWith].
    + split; [done | intros [post H]; discriminate H].
    + rewrite andb_true_iff, IH. split.
      * intros [E%Ascii.eqb_eq [post ->]]. subst b. by exists post.
      * intros [post H]. injection H as -> ->.
        split; [apply Ascii.eqb_refl | by exists post].
Qed.

Lemma includes_spec part : ∀ text,
  includes part text = true ↔ ∃ pre post, text = pre +:+ part +:+ post.
Proof.
  induction text as [|b text IH]; cbn [includes].
  - rewrite orb_false_r, startsWith_spec. split.
    + intros [post H]. by exists EmptyString, post.
    + intros (pre & post & H). destruct pre; [by exists post | discriminate H].
  - rewrite orb_true_iff, startsWith_spec, IH. split.
    + intros [[post H]|(pre & post & ->)].
      * by exists EmptyString, post.
      * by exists (String b pre), post.
    + intros (pre & post & H). destruct pre as [|c pre].
      * left. by exists post.
      * right. injection H as -> ->. by exists pre, post.
Qed.

(** ** Home *)

Lemma truthy_Str s : JS.truthy (JS.Str s) = true ↔ s ≠ EmptyString.
Proof.
  cbn. rewrite negb_true_iff. split.
  - intros H ->. discriminate H.
  - intros H. apply String.eqb_neq. done.
Qed.

Lemma handleModelLoad_error captured now loaded e s :
  e ≠ EmptyString →
  Home.handleModelLoad captured now loaded (Some e) s =
    {| Home.isModelLoaded := Home.isModelLoaded s;
       Home.errorMessage := if includes "Not Found" e then Home.notFoundMessage else e;
       Home.loadingStatus := "モデル読み込みエラー"; Home.isFirstLoad := false;
       Home.loadStartTime := Home.loadStartTime s;
       Home.logs := Home.logs s ++ [Home.LogLoadState loaded (Some e)];
       Home.loadingTimer := Home.loadingTimer s |}.
Proof.
  intros H%truthy_Str. unfold Home.handleModelLoad. cbn [Home.ofOption].
  rewrite H. cbn [negb andb]. by rewrite andb_false_r.
Qed.







Lemma timer_inv_step e s : timer_inv s → timer_inv (Home.step e s).
Proof.
  intros I. destruct e as [now later loaded error|]; cbn [Home.step].
  - unfold Home.commit.
    destruct (Bool.eqb _ _ && String.eqb _ _) eqn:E.
    + apply andb_true_iff in E as [E1%Bool.eqb_prop E2%String.eqb_eq].
      intros l e H. rewrite <- E1, <- E2. apply I.
      revert H. unfold Home.handleModelLoad. cbn [andb].
      destruct error as [e0|]; [destruct (JS.truthy (JS.Str e0)) |]; done.
    + intros l e [= <- <-]. done.
  - unfold Home.timerFires. destruct (Home.loadingTimer s) as [[? ?]|]; [| done].
    intros l e H. discriminate H.
Qed.

Lemma timer_inv_run es : ∀ s, timer_inv s → timer_inv (Home.run es s).
Proof.
  induction es as [|e es IH]; intros s I; [done |].
  apply IH, timer_inv_step, I.
Qed.

Lemma timer_inv_initial now : timer_inv (Home.initial now).
Proof. intros l e [= <- <-]. done. Qed.


(** ** The render loop *)

Lemma filter_ne_singleton (a : nat) : filter (λ h, h ≠ a) [a] = [].
Proof. unfold filter. cbn. by rewrite decide_False by (intros H; by apply H). Qed.

Lemma scene_inv_fresh : scene_inv Scene.fresh.
Proof.
  split; cbn; try done; [by left | apply reachable_initial].
Qed.

Lemma scene_inv_animate time s :
  Scene.frames s = [] → scene_inv s →
  (Scene.mountRef s = true → Scene.cleanupPending s = true) →
  scene_inv (Scene.animate time s).
Proof.
  intros Hf [F I M G C] Hp. unfold Scene.animate.
  destruct (Scene.mountRef s) eqn:Hm; cbn [negb]; [| by split].
  split; cbn.
  - right. by rewrite Hf.
  - intros H. rewrite Hp in H by done. discriminate H.
  - done.
  - done.
  - apply (reachable_step _ (Frame time)), C.
Qed.

Lemma scene_inv_step e s : scene_inv s → scene_inv (Scene.step e s).
Proof.
  intros H. pose proof H as [F I M G C].
  destruct e as [time| | | |h time|k o|index]; cbn [Scene.step].
  - destruct (Scene.cleanupPending s) eqn:Hp; [done |].
    destruct (I eq_refl) as [Hf Hl].
    unfold Scene.effect. rewrite G.
    destruct (Scene.mountRef s) eqn:Hm; cbn [negb orb]; [| done].
    unfold Scene.animate. cbn [Scene.mountRef negb].
    split; cbn.
    + right. by rewrite Hf.
    + done.
    + intros _. by rewrite Hl.
    + done.
    + apply (reachable_step _ (Frame time)), (reachable_step _ Mount), C.
  - destruct (Scene.cleanupPending s) eqn:Hp; [| done].
    split; cbn.
    + left. destruct F as [-> | [-> Hne]].
      * by destruct (Nat.eqb _ 0).
      * apply Nat.eqb_neq in Hne as ->. apply filter_ne_singleton.
    + intros _. split.
      * destruct F as [-> | [-> Hne]].
        -- by destruct (Nat.eqb _ 0).
        -- apply Nat.eqb_neq in Hne as ->. apply filter_ne_singleton.
      * by rewrite (M eq_refl).
    + done.
    + done.
    + apply (reachable_step _ Unmount), C.
  - by split.
  - by split.
  - case_bool_decide as Hin; [| done].
    assert (Scene.frames s = [h] ∧ Scene.cleanupPending s = true) as [Hf Hp].
    { destruct F as [E | [E Hne]]; [rewrite E in Hin; by apply elem_of_nil in Hin |].
      rewrite E in Hin. apply list_elem_of_singleton in Hin. subst h. split; [done |].
      destruct (Scene.cleanupPending s); [done |]. destruct (I eq_refl) as [E' _].
      rewrite E' in E. discriminate E. }
    apply scene_inv_animate.
    + cbn. rewrite Hf. apply filter_ne_singleton.
    + split; cbn; try done.
      * left. rewrite Hf. apply filter_ne_singleton.
      * intros E. rewrite Hp in E. discriminate E.
    + intros _. exact Hp.
  - split; cbn; try done. apply (reachable_step _ (Settle k o)), C.
  - split; cbn; try done. apply (reachable_step _ (Click index)), C.
Qed.

Lemma scene_inv_run es : ∀ s, scene_inv s → scene_inv (Scene.run es s).
Proof.
  induction es as [|e es IH]; intros s H; [done |].
  apply IH, scene_inv_step, H.
Qed.

Lemma canvas_inv_step e s :
  e ≠ Scene.Detach → scene_inv s → canvas_inv s → canvas_inv (Scene.step e s).
Proof.
  intros He H Hcv. pose proof Hcv as [Hm Hc]. pose proof H as [F I M G C].
  destruct e as [time| | | |h time|k o|index]; cbn [Scene.step]; try done.
  - destruct (Scene.cleanupPending s) eqn:Hp; [done |].
    unfold Scene.effect, Scene.animate. rewrite G, Hp, Hm. cbn.
    split; cbn; [done | by rewrite Hc].
  - destruct (Scene.cleanupPending s) eqn:Hp; [| done].
    split; cbn; [done |]. by rewrite Hm, Hc.
  - case_bool_decide; [| done]. unfold Scene.animate. cbn. rewrite Hm. cbn.
    split; cbn; done.
Qed.

Lemma canvas_inv_run es : ∀ s,
  Forall (λ e, e ≠ Scene.Detach) es → scene_inv s → canvas_inv s →
  canvas_inv (Scene.run es s).
Proof.
  induction es as [|e es IH]; intros s F H Hc; [done |].
  apply Forall_cons in F as [He F].
  apply IH; [done | by apply scene_inv_step | by apply canvas_inv_step].
Qed.

(** ** The second variant *)

Lemma playSpecifiedV2_run index w :
  (∀ k a, actionsRef w !! k = Some a → is_action w a) →
  playSpecifiedV2 index w = Ok tt (start_worldV2 index w).
Proof.
  intros A. unfold playSpecifiedV2, start_worldV2, found, bind at 1, bind at 1, gets.
  destruct (mixerRef w) as [mx|] eqn:Em; [| done].
  destruct (actionsRef w !! danceName index) as [a|] eqn:Ea; [| done].
  destruct (A _ a Ea) as [st Hst].
  rewrite (proj2 (action_at_Some w a st) Hst).
  unfold Action.reset, Action.fadeIn, Action.play, Action.setLoop.
  unfold bind at 1, modify.
  erewrite (bind_Ok (Action.call a CallReset rewound)); [| by apply call_run].
  erewrite (bind_Ok (Action.call a (CallFadeIn _) _)).
  2:{ apply call_run. cbn [heap set_heap set_invoked set_currentActionRef].
      apply list_lookup_insert_eq. by eapply lookup_lt_Some. }
  erewrite (bind_Ok (Action.call a CallPlay _)).
  2:{ apply call_run. cbn [heap set_heap set_invoked set_currentActionRef].
      apply list_lookup_insert_eq. rewrite length_insert. by eapply lookup_lt_Some. }
  erewrite (bind_Ok (Action.call a (CallSetLoop _ _) _)).
  2:{ apply call_run. cbn [heap set_heap set_invoked set_currentActionRef].
      apply list_lookup_insert_eq. rewrite !length_insert. by eapply lookup_lt_Some. }
  unfold console_log, modify.
  cbn [heap set_heap set_invoked set_currentActionRef invoked console set_console].
  rewrite !list_insert_insert_eq, <- !app_assoc. reflexivity.
Qed.

Lemma playDanceAnimationV2_run index w :
  controller_inv w → playDanceAnimationV2 index w = Ok tt (playedV2 index w).
Proof.
  intros H. unfold playDanceAnimationV2, playedV2.
  assert (controller_inv (called_worldV2 index w)) as H1.
  { revert H. apply (ci_modify (fun w => called_worldV2 index w)); done. }
  destruct (stop_world_inv _ H1) as [H2 I2].
  rewrite (bind_Ok _ _ _ tt (called_worldV2 index w)) by done.
  rewrite (bind_Ok _ _ _ _ _ (stopExisting_run _ (ci_current _ H1))).
  apply playSpecifiedV2_run, (ci_actions _ H2).
Qed.

(** The two variants of the last part differ in the console only. *)
Lemma start_worldV2_fields index w :
  controller_inv w →
  heap (start_worldV2 index w) = heap (start_world index w) ∧
  invoked (start_worldV2 index w) = invoked (start_world index w) ∧
  currentActionRef (start_worldV2 index w) = currentActionRef (start_world index w) ∧
  actionsRef (start_worldV2 index w) = actionsRef w ∧
  mixerRef (start_worldV2 index w) = mixerRef w ∧
  audioRef (start_worldV2 index w) = audioRef w ∧
  console (start_worldV2 index w) =
    console w ++
    [match found index w with
     | Some _ => ConsoleLog ("Playing dance animation " +:+ JS.numeral index)
     | None => ConsoleWarn ("Dance animation " +:+ danceName index +:+ " not found")
     end].
Proof.
  intros H. pose proof H as (_ & A & _)%controller_inv_view.
  unfold start_worldV2, start_world.
  destruct (found index w) as [a|] eqn:F; [| done].
  destruct (A _ a (proj2 (proj1 (found_Some _ _ _) F))) as [st ->]. done.
Qed.

Lemma stop_world_console c w :
  stop_world (set_console c w) = set_console c (stop_world w).
Proof.
  unfold stop_world. cbn [currentActionRef set_console].
  destruct (currentActionRef w) as [a|]; [| done].
  unfold action_at. cbn [heap set_console]. by destruct (action_in (heap w) a).
Qed.

(** * Part IV: the claims *)

(** C1, the code at a failing input.  A source clip has the tracks
    ["hips_JNT.position"] and ["constructor.position"].  Only the first bone
    name is a key of [boneMapping], so the claim allows one output track.
    The lookup [boneMapping["constructor"]] finds the [constructor] member
    that every object literal inherits from [Object.prototype], which is
    truthy: the returned clip has two tracks, the second one named after the
    text of that function. *)
Lemma retarget_emits_inherited_bone_name :
  map (λ n, is_key (boneNameOf n)) ["hips_JNT.position"; "constructor.position"]
    = [true; false] ∧
  length (key_tracks (dance ["hips_JNT.position"; "constructor.position"])) = 1 ∧
  retargeted_names (dance ["hips_JNT.position"; "constructor.position"]) =
    Some ["J_Bip_C_Hips.position"; "function Object() { [native code] }.position"].
Proof. split_and!; vm_compute; reflexivity. Qed.



(** C3.  [retargetAnimation] does not change the source clip: the heap
    after the call is the heap before it followed by new objects, so the
    source clip, its track list, its tracks and their time and value arrays
    are the same objects with the same content, and nothing else of the
    world changes; the returned clip is a new object, and none of its sample
    arrays is a sample array of the source clip. *)
Theorem retarget_leaves_source_untouched w clip d :
  view_clip (heap w) clip = Some d →
  ∃ clip' k,
    retargetAnimation clip w = Ok clip' (set_heap (heap w ++ k) w) ∧
    view_clip (heap w ++ k) clip = Some d ∧
    track_locs (heap w ++ k) clip = track_locs (heap w) clip ∧
    sample_arrays (heap w ++ k) clip = sample_arrays (heap w) clip ∧
    clip' ≠ clip ∧
    ∀ a, a ∈ sample_arrays (heap w ++ k) clip' → a ∉ sample_arrays (heap w) clip.
Proof.
  intros V.
  destruct (retargetAnimation_spec w clip d V) as (clip' & k & R & V' & Hc & _ & Hs).
  exists clip', k. split_and!.
  - exact R.
  - by apply view_clip_app.
  - by eapply track_locs_app.
  - by eapply sample_arrays_app.
  - assert (clip < length (heap w)); [| lia].
    unfold view_clip in V. destruct (heap w !! clip) eqn:E; [| done].
    by eapply lookup_lt_Some.
  - intros a Ha Ha'.
    pose proof (proj1 (Forall_forall _ _) Hs a Ha) as H1.
    pose proof (proj1 (Forall_forall _ _) (sample_arrays_bound _ _ _ V) a Ha') as H2.
    simpl in *. lia.
Qed.

Lemma retarget_leaves_source_untouched_witness :
  view_clip (heap (loaded scenario).1) (loaded scenario).2 = Some scenario ∧
  ∃ clip' k,
    retargetAnimation (loaded scenario).2 (loaded scenario).1 =
      Ok clip' (set_heap (heap (loaded scenario).1 ++ k) (loaded scenario).1) ∧
    view_clip (heap (loaded scenario).1 ++ k) (loaded scenario).2 = Some scenario ∧
    track_locs (heap (loaded scenario).1 ++ k) (loaded scenario).2 =
      track_locs (heap (loaded scenario).1) (loaded scenario).2 ∧
    sample_arrays (heap (loaded scenario).1 ++ k) (loaded scenario).2 =
      sample_arrays (heap (loaded scenario).1) (loaded scenario).2 ∧
    clip' ≠ (loaded scenario).2 ∧
    ∀ a, a ∈ sample_arrays (heap (loaded scenario).1 ++ k) clip' →
         a ∉ sample_arrays (heap (loaded scenario).1) (loaded scenario).2.
Proof.
  assert (view_clip (heap (loaded scenario).1) (loaded scenario).2 = Some scenario) as V
    by (vm_compute; reflexivity).
  split; [exact V |].
  exact (retarget_leaves_source_untouched (loaded scenario).1 (loaded scenario).2 scenario V).
Defined.

(** C4, counterexample.  The clip has the tracks ["hips_JNT"] (no dot),
    ["spine_JNT.position"] and ["head_JNT.rotation.x"] (two dots).  The two
    malformed tracks are not skipped: they come out as
    ["J_Bip_C_Hips.undefined"] and ["J_Bip_C_Head.rotation"]; and the console
    is empty after the call: nothing is logged. *)
Lemma retarget_malformed_name_not_skipped :
  retargeted_names (dance ["hips_JNT"; "spine_JNT.position"; "head_JNT.rotation.x"]) =
    Some ["J_Bip_C_Hips.undefined"; "J_Bip_C_Spine.position"; "J_Bip_C_Head.rotation"] ∧
  snd <$> retargeted (dance ["hips_JNT"; "spine_JNT.position"; "head_JNT.rotation.x"]) =
    Some [].
Proof. split; vm_compute; reflexivity. Qed.

(** C4, amended.  For every source clip, whatever its track names,
    [retargetAnimation] returns normally and writes nothing to the console.
    It does not tell malformed names apart: each track is handled on its own
    and in order ([omap]), its name split at every dot; a track whose first
    piece is a key of [boneMapping] is emitted with the source samples under
    the table entry, a dot, and the second piece, where a missing second
    piece reads ["undefined"] and pieces after the second are dropped. *)
Theorem retarget_handles_every_name w clip d :
  view_clip (heap w) clip = Some d →
  ∃ clip' w' out,
    retargetAnimation clip w = Ok clip' w' ∧
    console w' = console w ∧
    view_clip (heap w') clip' = Some out ∧
    cd_tracks out = omap retarget_data (cd_tracks d) ∧
    ∀ td v,
      td ∈ cd_tracks d →
      boneMapping !! boneNameOf (td_name td) = Some v →
      retarget_data td =
        Some {| td_name :=
                  v +:+ "." +:+ JS.toString (JS.element (JS.split dot (td_name td)) 1);
                td_times := td_times td; td_values := td_values td |}.
Proof.
  intros V. destruct (retargetAnimation_spec w clip d V) as (clip' & k & R & V' & _).
  eexists clip', _, _. split_and!; [exact R | done | exact V' | done |].
  intros td v _ E. unfold retarget_data. by rewrite (renamed_key _ v E).
Qed.

Lemma retarget_handles_every_name_witness :
  view_clip (heap (loaded malformed).1) (loaded malformed).2 = Some malformed ∧
  ∃ clip' w' out,
    retargetAnimation (loaded malformed).2 (loaded malformed).1 = Ok clip' w' ∧
    console w' = console (loaded malformed).1 ∧
    view_clip (heap w') clip' = Some out ∧
    cd_tracks out = omap retarget_data (cd_tracks malformed) ∧
    ∀ td v,
      td ∈ cd_tracks malformed →
      boneMapping !! boneNameOf (td_name td) = Some v →
      retarget_data td =
        Some {| td_name :=
                  v +:+ "." +:+ JS.toString (JS.element (JS.split dot (td_name td)) 1);
                td_times := td_times td; td_values := td_values td |}.
Proof.
  assert (view_clip (heap (loaded malformed).1) (loaded malformed).2 = Some malformed) as V
    by (vm_compute; reflexivity).
  split; [exact V |].
  exact (retarget_handles_every_name (loaded malformed).1 (loaded malformed).2 malformed V).
Defined.

(** C5, counterexample.  In [loaded_world] after [playDanceAnimation(0)] the
    action of ["dance_0"] (location 31) is current and activated, and no
    action is registered for index 7.  [playDanceAnimation(7)] is not a
    no-op there: it calls [fadeOut(0.5)] and [stop()] on the current action,
    which is deactivated, and it creates and plays the audio element. *)
Lemma play_missing_index_stops_current :
  found 7 (run [Click 0] loaded_world) = None ∧
  currentActionRef (run [Click 0] loaded_world) = Some 31 ∧
  is_active (run [Click 0] loaded_world) 31 = Some true ∧
  audio_at (run [Click 0] loaded_world) 45 = Some (DANCE_MUSIC, true, 1) ∧
  ∃ w',
    playDanceAnimation 7 (run [Click 0] loaded_world) = Ok tt w' ∧
    is_active w' 31 = Some false ∧
    audio_at w' 45 = Some (DANCE_MUSIC, true, 2) ∧
    invoked w' = invoked (run [Click 0] loaded_world) ++
                 [(31, CallFadeOut 0.5%float); (31, CallStop)].
Proof.
  split_and!; try (vm_compute; reflexivity).
  eexists. split_and!; vm_compute; reflexivity.
Qed.

(** C5, amended.  In every state the component can reach, for every index
    such that the mixer is not initialized or no action named
    ["dance_" + index] is registered, [playDanceAnimation(index)] returns
    normally; the console gets the call's log line and then the warning;
    [currentActionRef], [actionsRef] and [mixerRef] are unchanged and no
    action is activated afterwards.  It is not a no-op: the action that was
    current has received [fadeOut(0.5)] and [stop()], and the audio element
    exists and has been played once more. *)
Theorem play_missing_index w index :
  reachable w →
  mixerRef w = None ∨ actionsRef w !! danceName index = None →
  ∃ w',
    playDanceAnimation index w = Ok tt w' ∧
    console w' =
      console w ++
      [ConsoleLog ("playDanceAnimation(" +:+ JS.numeral index +:+ ")が呼び出されました");
       ConsoleWarn ("ダンスアニメーション " +:+ danceName index +:+ " は見つかりません")] ∧
    currentActionRef w' = currentActionRef w ∧
    actionsRef w' = actionsRef w ∧
    mixerRef w' = mixerRef w ∧
    idle w' ∧
    (∀ l, action_at w' l = after_stop w l) ∧
    invoked w' = invoked w ++ stop_calls w ∧
    ∃ a src lp n, audioRef w' = Some a ∧ audio_at w' a = Some (src, lp, S n).
Proof.
  intros Hr Hmiss. pose proof (reachable_controller_inv w Hr) as H.
  apply found_None in Hmiss.
  exists (played index w). split_and!.
  - by apply playDanceAnimation_run.
  - by rewrite played_console, Hmiss.
  - by rewrite played_current, Hmiss.
  - by destruct (played_refs index w).
  - by destruct (played_refs index w).
  - intros l st E. destruct (a_active st) eqn:Hact; [| done].
    pose proof (played_inv index w H) as H'.
    apply controller_inv_view in H' as (_ & _ & _ & _ & _ & S).
    pose proof (S l st E Hact) as Ec. rewrite played_current, Hmiss in Ec by done.
    rewrite played_action, Hmiss in E by done. unfold after_stop in E.
    rewrite decide_True in E by done.
    destruct (action_at w l); [| done]. injection E as <-. done.
  - intros l. by rewrite played_action, Hmiss.
  - by rewrite played_invoked, Hmiss, app_nil_r.
  - destruct (played_audio index w H) as (a & src & lp & n & ? & ? & _). eauto 6.
Qed.

Lemma play_missing_index_witness :
  reachable loaded_world ∧
  (mixerRef loaded_world = None ∨ actionsRef loaded_world !! danceName 7 = None) ∧
  ∃ w',
    playDanceAnimation 7 loaded_world = Ok tt w' ∧
    console w' =
      console loaded_world ++
      [ConsoleLog ("playDanceAnimation(" +:+ JS.numeral 7 +:+ ")が呼び出されました");
       ConsoleWarn ("ダンスアニメーション " +:+ danceName 7 +:+ " は見つかりません")] ∧
    currentActionRef w' = currentActionRef loaded_world ∧
    actionsRef w' = actionsRef loaded_world ∧
    mixerRef w' = mixerRef loaded_world ∧
    idle w' ∧
    (∀ l, action_at w' l = after_stop loaded_world l) ∧
    invoked w' = invoked loaded_world ++ stop_calls loaded_world ∧
    ∃ a src lp n, audioRef w' = Some a ∧ audio_at w' a = Some (src, lp, S n).
Proof.
  assert (mixerRef loaded_world = None ∨ actionsRef loaded_world !! danceName 7 = None) as Hm
    by (right; vm_compute; reflexivity).
  split_and!; [exact reachable_loaded_world | exact Hm |].
  exact (play_missing_index loaded_world 7 reachable_loaded_world Hm).
Defined.

(** C6.  In every state the component can reach, an activated action is
    the current one, so at most one action is playing.  For indices [i] and
    [j], different and both registered, [playDanceAnimation(i)] followed
    at once by [playDanceAnimation(j)] leaves the action of [j] current,
    activated, unpaused, enabled and looping without end
    ([LoopRepeat], [Infinity]), and no other action activated; the action of
    [i], which the first call had activated, has received [fadeOut(0.5)] and
    [stop()] in the second call and is deactivated. *)
Theorem play_two_indices w i j ai aj :
  reachable w → i ≠ j →
  actionsRef w !! danceName i = Some ai →
  actionsRef w !! danceName j = Some aj →
  (∀ l st, action_at w l = Some st → a_active st = true → currentActionRef w = Some l) ∧
  ∃ w1 w2,
    playDanceAnimation i w = Ok tt w1 ∧
    playDanceAnimation j w1 = Ok tt w2 ∧
    is_active w1 ai = Some true ∧
    currentActionRef w2 = Some aj ∧
    (∃ st, action_at w2 aj = Some st ∧
           a_active st = true ∧ a_paused st = false ∧ a_enabled st = true ∧
           a_loop st = LoopRepeat ∧ a_repetitions st = infinity) ∧
    (∀ l st, action_at w2 l = Some st → a_active st = true → l = aj) ∧
    ai ≠ aj ∧
    is_active w2 ai = Some false ∧
    invoked w2 =
      invoked w1 ++ [(ai, CallFadeOut 0.5%float); (ai, CallStop)] ++ start_calls aj.
Proof.
  intros Hr Hij Ei Ej. pose proof (reachable_controller_inv w Hr) as H.
  pose proof H as (C & A & U & R & D & S)%controller_inv_view.
  split; [exact S |].
  assert (found i w = Some ai) as Fi by (apply found_Some; split; [by eapply R | done]).
  pose proof (played_inv i w H) as H1.
  destruct (played_refs i w) as [Ea1 Em1].
  assert (found j (played i w) = Some aj) as Fj.
  { apply found_Some. rewrite Ea1, Em1. split; [by eapply R | done]. }
  assert (currentActionRef (played i w) = Some ai) as Ec1 by (by rewrite played_current, Fi).
  assert (ai ≠ aj) as Hne.
  { intros ->. apply Hij, danceName_inj. by eapply D. }
  pose proof (played_inv j _ H1) as H2.
  assert (is_Some (after_stop w ai)) as [st0 Hst0].
  { unfold after_stop. case_decide; [apply fmap_is_Some |]; by eapply A. }
  assert (action_at (played i w) ai = Some (started st0)) as Eai1
    by (by rewrite played_action, Fi, decide_True, Hst0).
  assert (is_Some (action_at (played i w) aj)) as [stj Hstj].
  { pose proof H1 as (_ & A1 & _)%controller_inv_view. eapply A1. by rewrite Ea1. }
  exists (played i w), (played j (played i w)). split_and!.
  - by apply playDanceAnimation_run.
  - by apply playDanceAnimation_run.
  - unfold is_active. by rewrite Eai1.
  - by rewrite played_current, Fj.
  - rewrite played_action, Fj, decide_True by done.
    unfold after_stop. rewrite Ec1, decide_False by congruence. rewrite Hstj.
    eexists. split_and!; reflexivity.
  - intros l st E Hact.
    pose proof H2 as (_ & _ & _ & _ & _ & S2)%controller_inv_view.
    pose proof (S2 l st E Hact) as Ec. rewrite played_current, Fj in Ec by done.
    by injection Ec.
  - done.
  - unfold is_active. rewrite played_action, Fj, decide_False by done.
    unfold after_stop. rewrite Ec1, decide_True by done. by rewrite Eai1.
  - rewrite played_invoked, Fj by done. unfold stop_calls. by rewrite Ec1.
Qed.

Lemma play_two_indices_witness :
  reachable loaded_world ∧ 0 ≠ 1 ∧
  actionsRef loaded_world !! danceName 0 = Some 31 ∧
  actionsRef loaded_world !! danceName 1 = Some 44 ∧
  (∀ l st, action_at loaded_world l = Some st → a_active st = true →
           currentActionRef loaded_world = Some l) ∧
  ∃ w1 w2,
    playDanceAnimation 0 loaded_world = Ok tt w1 ∧
    playDanceAnimation 1 w1 = Ok tt w2 ∧
    is_active w1 31 = Some true ∧
    currentActionRef w2 = Some 44 ∧
    (∃ st, action_at w2 44 = Some st ∧
           a_active st = true ∧ a_paused st = false ∧ a_enabled st = true ∧
           a_loop st = LoopRepeat ∧ a_repetitions st = infinity) ∧
    (∀ l st, action_at w2 l = Some st → a_active st = true → l = 44) ∧
    31 ≠ 44 ∧
    is_active w2 31 = Some false ∧
    invoked w2 =
      invoked w1 ++ [(31, CallFadeOut 0.5%float); (31, CallStop)] ++ start_calls 44.
Proof.
  assert (0 ≠ 1) as H01 by lia.
  assert (actionsRef loaded_world !! danceName 0 = Some 31) as E0 by (vm_compute; reflexivity).
  assert (actionsRef loaded_world !! danceName 1 = Some 44) as E1 by (vm_compute; reflexivity).
  split_and!; [exact reachable_loaded_world | exact H01 | exact E0 | exact E1 | |];
    apply (play_two_indices loaded_world 0 1 31 44 reachable_loaded_world H01 E0 E1).
Defined.

(** C7.  In every state the component can reach, for every registered
    index, [playDanceAnimation(index)] leaves the action of that index
    activated at local time zero; and so does a second call with the same
    index, whatever local time the render loop has moved the action to in
    between: the second call stops the action and calls [reset()] on it
    again. *)
Theorem play_same_index_twice w index a times :
  reachable w →
  actionsRef w !! danceName index = Some a →
  ∃ w1 w2,
    playDanceAnimation index w = Ok tt w1 ∧
    playDanceAnimation index (run (map Frame times) w1) = Ok tt w2 ∧
    a_time <$> action_at w1 a = Some 0%float ∧
    is_active w1 a = Some true ∧
    (∀ ts t, times = ts ++ [t] →
       a_time <$> action_at (run (map Frame times) w1) a = Some (t a)) ∧
    a_time <$> action_at w2 a = Some 0%float ∧
    is_active w2 a = Some true ∧
    invoked w2 =
      invoked w1 ++ [(a, CallFadeOut 0.5%float); (a, CallStop)] ++
      [(a, CallReset); (a, CallFadeIn 0.5%float); (a, CallPlay);
       (a, CallSetLoop LoopRepeat infinity)].
Proof.
  intros Hr Ea. pose proof (reachable_controller_inv w Hr) as H.
  pose proof H as (C & A & U & R & D & S)%controller_inv_view.
  assert (found index w = Some a) as F by (apply found_Some; split; [by eapply R | done]).
  assert (reachable (played index w)) as Hr1.
  { pose proof (reachable_step w (Click index) Hr) as Hs.
    cbn [handle] in Hs. by rewrite (playDanceAnimation_run index w H) in Hs. }
  set (w1 := played index w) in *.
  set (wf := run (map Frame times) w1).
  assert (reachable wf) as Hrf by (by apply reachable_run).
  pose proof (reachable_controller_inv wf Hrf) as Hf.
  destruct (frames_refs times w1) as (Eaf & Emf & Ecf & Eif & Hact).
  destruct (played_refs index w) as [Ea1 Em1].
  assert (currentActionRef w1 = Some a) as Ec1 by (unfold w1; by rewrite played_current, F).
  assert (is_Some (after_stop w a)) as [st0 Hst0].
  { unfold after_stop. case_decide; [apply fmap_is_Some |]; by eapply A. }
  assert (action_at w1 a = Some (started st0)) as E1
    by (unfold w1; by rewrite played_action, F, decide_True, Hst0).
  assert (found index wf = Some a) as Ff.
  { apply found_Some. fold wf in Eaf, Emf. rewrite Eaf, Emf. fold w1 in Ea1, Em1.
    rewrite Ea1, Em1. split; [by eapply R | done]. }
  assert (is_Some (after_stop wf a)) as [stf Hstf].
  { pose proof Hf as (_ & Af & _)%controller_inv_view.
    unfold after_stop. case_decide; [apply fmap_is_Some |]; eapply Af;
      apply (proj1 (found_Some _ _ _) Ff). }
  exists w1, (played index wf). split_and!.
  - by apply playDanceAnimation_run.
  - by apply playDanceAnimation_run.
  - by rewrite E1.
  - unfold is_active. by rewrite E1.
  - intros ts t ->. unfold wf. rewrite map_app. cbn [map]. rewrite run_snoc. cbn [handle].
    destruct (frames_refs ts w1) as (_ & Em' & _ & _ & Hact').
    pose proof (Hact' a) as Ha. unfold is_active in Ha. rewrite E1 in Ha.
    destruct (action_at (run (map Frame ts) w1) a) as [st'|] eqn:E'; [| done].
    apply (frame_time t _ a st'); [| done | by injection Ha].
    rewrite Em'. fold w1 in Em1. rewrite Em1. by eapply R.
  - rewrite played_action, Ff, decide_True, Hstf by done. done.
  - unfold is_active. rewrite played_action, Ff, decide_True, Hstf by done. done.
  - rewrite played_invoked, Ff by done. unfold stop_calls. fold wf in Ecf, Eif.
    by rewrite Ecf, Ec1, Eif.
Qed.

Lemma play_same_index_twice_witness :
  reachable loaded_world ∧
  actionsRef loaded_world !! danceName 0 = Some 31 ∧
  ∃ w1 w2,
    playDanceAnimation 0 loaded_world = Ok tt w1 ∧
    playDanceAnimation 0 (run (map Frame [fun _ => 0.25%float]) w1) = Ok tt w2 ∧
    a_time <$> action_at w1 31 = Some 0%float ∧
    is_active w1 31 = Some true ∧
    (∀ ts t, [fun _ : nat => 0.25%float] = ts ++ [t] →
       a_time <$> action_at (run (map Frame [fun _ => 0.25%float]) w1) 31 = Some (t 31)) ∧
    a_time <$> action_at w2 31 = Some 0%float ∧
    is_active w2 31 = Some true ∧
    invoked w2 =
      invoked w1 ++ [(31, CallFadeOut 0.5%float); (31, CallStop)] ++
      [(31, CallReset); (31, CallFadeIn 0.5%float); (31, CallPlay);
       (31, CallSetLoop LoopRepeat infinity)].
Proof.
  assert (actionsRef loaded_world !! danceName 0 = Some 31) as E0 by (vm_compute; reflexivity).
  split_and!; [exact reachable_loaded_world | exact E0 |].
  exact (play_same_index_twice loaded_world 0 31 [fun _ => 0.25%float]
           reachable_loaded_world E0).
Defined.

(** C8.  In every state the component can reach, at most one invocation of
    [loadModels] is suspended at an [await], and [isLoading] is set exactly
    while one is.  A call of [loadModels] while [isLoading] is set returns at
    once and changes nothing: it is not queued.  When the promise the
    invocation in flight awaits settles, either the invocation ends and
    [isLoading] is clear, or it had awaited the character file, which
    loaded, and it is now awaiting the dance file with [isLoading] still set;
    it always ends when the promise is rejected or the awaited file is the
    dance file. *)
Theorem one_load_in_flight w :
  reachable w →
  length (pending w) ≤ 1 ∧
  (isLoading w = true ↔ pending w ≠ []) ∧
  (isLoading w = true → loadModels w = Ok tt w) ∧
  ∀ k t o,
    pending w !! k = Some t →
    ((isLoading (handle (Settle k o) w) = false ∧ pending (handle (Settle k o) w) = []) ∨
     (t = AwaitCharacter ∧ (∃ g, o = Loaded g) ∧
      isLoading (handle (Settle k o) w) = true ∧
      pending (handle (Settle k o) w) = [AwaitDance])) ∧
    (t = AwaitDance ∨ (∃ message, o = Failed message) →
     isLoading (handle (Settle k o) w) = false ∧ pending (handle (Settle k o) w) = []).
Proof.
  intros Hr. pose proof (reachable_loader_inv w Hr) as H.
  split_and!.
  - destruct H as [[_ ->]|[_ [t ->]]]; simpl; lia.
  - destruct H as [[-> ->]|[-> [t ->]]]; split; done.
  - apply loadModels_busy.
  - intros k t o Hk.
    destruct H as [[_ Hp]|[Hf [t' Hp]]]; [by rewrite Hp in Hk |].
    rewrite Hp in Hk. destruct k; [| done]. injection Hk as ->.
    cbn [handle]. rewrite Hp. cbn [lookup list_lookup delete].
    change (delete 0 [t]) with (@nil task).
    pose proof (resume_loader t o (set_pending [] w)) as Hres.
    destruct Hres as [[? ?]|(-> & [g ->] & [? ?])]; [done | | ].
    + split; [by left | done].
    + split; [right; split_and!; eauto |].
      intros [?|[? ?]]; done.
Qed.

Lemma one_load_in_flight_witness :
  reachable loading_world ∧
  length (pending loading_world) ≤ 1 ∧
  (isLoading loading_world = true ↔ pending loading_world ≠ []) ∧
  (isLoading loading_world = true → loadModels loading_world = Ok tt loading_world) ∧
  ∀ k t o,
    pending loading_world !! k = Some t →
    ((isLoading (handle (Settle k o) loading_world) = false ∧
      pending (handle (Settle k o) loading_world) = []) ∨
     (t = AwaitCharacter ∧ (∃ g, o = Loaded g) ∧
      isLoading (handle (Settle k o) loading_world) = true ∧
      pending (handle (Settle k o) loading_world) = [AwaitDance])) ∧
    (t = AwaitDance ∨ (∃ message, o = Failed message) →
     isLoading (handle (Settle k o) loading_world) = false ∧
     pending (handle (Settle k o) loading_world) = []).
Proof.
  assert (reachable loading_world) as Hr by apply reachable_run, reachable_initial.
  split; [exact Hr |].
  exact (one_load_in_flight loading_world Hr).
Defined.

(** C9.  In every state the component can reach and for every index,
    registered or not, [playDanceAnimation(index)] returns normally and
    afterwards the audio element exists and has been played once more than
    before: on the first call it is created for [DANCE_MUSIC] with [loop]
    set and played once.  This happens also when no action is found for the
    index, in which case the call ends with the warning. *)
Theorem play_starts_audio w index :
  reachable w →
  ∃ w' a src lp n,
    playDanceAnimation index w = Ok tt w' ∧
    audioRef w' = Some a ∧
    audio_at w' a = Some (src, lp, S n) ∧
    match audioRef w with
    | Some a0 => a = a0 ∧ audio_at w a0 = Some (src, lp, n)
    | None => audio_at w a = None ∧ src = DANCE_MUSIC ∧ lp = true ∧ n = 0
    end ∧
    (found index w = None →
     last (console w') =
       Some (ConsoleWarn ("ダンスアニメーション " +:+ danceName index +:+ " は見つかりません")) ∧
     currentActionRef w' = currentActionRef w).
Proof.
  intros Hr. pose proof (reachable_controller_inv w Hr) as H.
  destruct (played_audio index w H) as (a & src & lp & n & Ea & Ha & Hold).
  exists (played index w), a, src, lp, n. split_and!; try done.
  - by apply playDanceAnimation_run.
  - intros F. rewrite played_console, played_current, F by done.
    split; [| done]. by rewrite last_app.
Qed.

Lemma play_starts_audio_witness :
  reachable initial ∧
  ∃ w' a src lp n,
    playDanceAnimation 0 initial = Ok tt w' ∧
    audioRef w' = Some a ∧
    audio_at w' a = Some (src, lp, S n) ∧
    match audioRef initial with
    | Some a0 => a = a0 ∧ audio_at initial a0 = Some (src, lp, n)
    | None => audio_at initial a = None ∧ src = DANCE_MUSIC ∧ lp = true ∧ n = 0
    end ∧
    (found 0 initial = None →
     last (console w') =
       Some (ConsoleWarn ("ダンスアニメーション " +:+ danceName 0 +:+ " は見つかりません")) ∧
     currentActionRef w' = currentActionRef initial).
Proof.
  split; [exact reachable_initial |].
  exact (play_starts_audio initial 0 reachable_initial).
Defined.

(** C10, the code at a failing input.  For the source track
    ["toString.quaternion"] the lookup [boneMapping["toString"]] finds the
    method inherited from [Object.prototype]; the returned clip has a track
    whose name starts with the text of that function, which is not a value
    of [boneMapping]. *)
Lemma retarget_output_prefix_not_a_bone :
  retargeted_names (dance ["toString.quaternion"]) =
    Some ["function toString() { [native code] }.quaternion"] ∧
  boneNameOf "function toString() { [native code] }.quaternion" =
    "function toString() { [native code] }" ∧
  is_value "function toString() { [native code] }" = false.
Proof. split_and!; vm_compute; reflexivity. Qed.

(** X1 (C1 without the inherited names).  For every source clip none of
    whose bone names is the name of a member of [Object.prototype], the
    returned clip has, in source order, one track for each source track
    whose bone name is a key of [boneMapping] (renamed through the table,
    with the source samples) and no other track; its track count is the
    number of source tracks whose bone name is a key. *)
Theorem retarget_tracks_of_keys w clip d :
  view_clip (heap w) clip = Some d →
  Forall (λ td, JS.inherited (boneNameOf (td_name td)) = false) (cd_tracks d) →
  ∃ clip' w' out,
    retargetAnimation clip w = Ok clip' w' ∧
    view_clip (heap w') clip' = Some out ∧
    cd_tracks out = omap retarget_by_key (cd_tracks d) ∧
    length (cd_tracks out) = length (key_tracks d).
Proof.
  intros V I. destruct (retargetAnimation_spec w clip d V) as (clip' & k & R & V' & _).
  assert (omap retarget_data (cd_tracks d) = omap retarget_by_key (cd_tracks d)) as E.
  { apply omap_ext_Forall. eapply Forall_impl; [exact I |].
    intros td. apply retarget_data_by_key. }
  eexists clip', _, _. split_and!; [exact R | exact V' | exact E |].
  cbn [cd_tracks]. rewrite E. apply omap_by_key_length.
Qed.

Lemma retarget_tracks_of_keys_witness :
  view_clip (heap (loaded scenario).1) (loaded scenario).2 = Some scenario ∧
  Forall (λ td, JS.inherited (boneNameOf (td_name td)) = false) (cd_tracks scenario) ∧
  ∃ clip' w' out,
    retargetAnimation (loaded scenario).2 (loaded scenario).1 = Ok clip' w' ∧
    view_clip (heap w') clip' = Some out ∧
    cd_tracks out = omap retarget_by_key (cd_tracks scenario) ∧
    length (cd_tracks out) = length (key_tracks scenario).
Proof.
  assert (view_clip (heap (loaded scenario).1) (loaded scenario).2 = Some scenario) as V
    by (vm_compute; reflexivity).
  assert (Forall (λ td, JS.inherited (boneNameOf (td_name td)) = false) (cd_tracks scenario))
    as I by (repeat constructor).
  split_and!; [exact V | exact I |].
  exact (retarget_tracks_of_keys (loaded scenario).1 (loaded scenario).2 scenario V I).
Defined.

(** X2 (C10 without the inherited names).  For every source clip none of
    whose bone names is the name of a member of [Object.prototype], every
    track of the returned clip has a name whose part before the first dot
    is a value of [boneMapping]; and the output tracks are the renamed
    source tracks in source order. *)
Theorem retarget_output_prefixes w clip d :
  view_clip (heap w) clip = Some d →
  Forall (λ td, JS.inherited (boneNameOf (td_name td)) = false) (cd_tracks d) →
  ∃ clip' w' out,
    retargetAnimation clip w = Ok clip' w' ∧
    view_clip (heap w') clip' = Some out ∧
    Forall (λ td, is_value (boneNameOf (td_name td)) = true) (cd_tracks out) ∧
    cd_tracks out = omap retarget_by_key (cd_tracks d).
Proof.
  intros V I. destruct (retargetAnimation_spec w clip d V) as (clip' & k & R & V' & _).
  assert (omap retarget_data (cd_tracks d) = omap retarget_by_key (cd_tracks d)) as E.
  { apply omap_ext_Forall. eapply Forall_impl; [exact I |].
    intros td. apply retarget_data_by_key. }
  eexists clip', _, _. split_and!; [exact R | exact V' | | exact E].
  cbn [cd_tracks]. rewrite E. apply omap_Forall. apply retarget_by_key_prefix.
Qed.

Lemma retarget_output_prefixes_witness :
  view_clip (heap (loaded scenario).1) (loaded scenario).2 = Some scenario ∧
  Forall (λ td, JS.inherited (boneNameOf (td_name td)) = false) (cd_tracks scenario) ∧
  ∃ clip' w' out,
    retargetAnimation (loaded scenario).2 (loaded scenario).1 = Ok clip' w' ∧
    view_clip (heap w') clip' = Some out ∧
    Forall (λ td, is_value (boneNameOf (td_name td)) = true) (cd_tracks out) ∧
    cd_tracks out = omap retarget_by_key (cd_tracks scenario).
Proof.
  assert (view_clip (heap (loaded scenario).1) (loaded scenario).2 = Some scenario) as V
    by (vm_compute; reflexivity).
  assert (Forall (λ td, JS.inherited (boneNameOf (td_name td)) = false) (cd_tracks scenario))
    as I by (repeat constructor).
  split_and!; [exact V | exact I |].
  exact (retarget_output_prefixes (loaded scenario).1 (loaded scenario).2 scenario V I).
Defined.

(** * Part V: further properties of the code *)

(** X3.  Retargeting never makes two tracks collide: for every source clip
    whose track names have the form [bone.property] (exactly one dot) and
    are pairwise different, the tracks of the returned clip have pairwise
    different names.  The table sends different bones to different bones,
    and no entry has a dot in it. *)
Theorem retarget_names_stay_distinct w clip d :
  view_clip (heap w) clip = Some d →
  Forall (λ td, two_parts (td_name td)) (cd_tracks d) →
  NoDup (map td_name (cd_tracks d)) →
  ∃ clip' w' out,
    retargetAnimation clip w = Ok clip' w' ∧
    view_clip (heap w') clip' = Some out ∧
    NoDup (map td_name (cd_tracks out)).
Proof.
  intros V F N. destruct (retargetAnimation_spec w clip d V) as (clip' & k & R & V' & _).
  eexists clip', _, _. split_and!; [exact R | exact V' |].
  cbn [cd_tracks]. rewrite retarget_data_names. apply NoDup_omap; [| done].
  intros n1 n2 m H1 H2. apply renamed_injective.
  - apply list_elem_of_fmap in H1 as (td & -> & Htd).
    exact (proj1 (Forall_forall _ _) F _ Htd).
  - apply list_elem_of_fmap in H2 as (td & -> & Htd).
    exact (proj1 (Forall_forall _ _) F _ Htd).
Qed.

Lemma retarget_names_stay_distinct_witness :
  view_clip (heap (loaded scenario).1) (loaded scenario).2 = Some scenario ∧
  Forall (λ td, two_parts (td_name td)) (cd_tracks scenario) ∧
  NoDup (map td_name (cd_tracks scenario)) ∧
  ∃ clip' w' out,
    retargetAnimation (loaded scenario).2 (loaded scenario).1 = Ok clip' w' ∧
    view_clip (heap w') clip' = Some out ∧
    NoDup (map td_name (cd_tracks out)).
Proof.
  assert (view_clip (heap (loaded scenario).1) (loaded scenario).2 = Some scenario) as V
    by (vm_compute; reflexivity).
  assert (Forall (λ td, two_parts (td_name td)) (cd_tracks scenario)) as F
    by (repeat constructor).
  assert (NoDup (map td_name (cd_tracks scenario))) as N
    by compute_done.
  split_and!; [exact V | exact F | exact N |].
  exact (retarget_names_stay_distinct (loaded scenario).1 (loaded scenario).2 scenario V F N).
Defined.









(** X8.  [processExternalAnimations] never throws, in any state: an
    exception raised while the clips are processed is caught and logged.
    When there is nothing to process (no dance clip, no model, or no mixer)
    its only effect is one warning on the console.  It never touches
    [isLoading]. *)
Theorem processExternalAnimations_never_throws w :
  ∃ w',
    processExternalAnimations w = Ok tt w' ∧
    isLoading w' = isLoading w ∧
    (danceAnimationsRef w = [] ∨ modelRef w = None ∨ mixerRef w = None →
     w' = set_console
            (console w ++ [ConsoleWarn "アニメーションの処理に必要なデータが不足しています"])
            w).
Proof.
  destruct (processExternalAnimations_returns w) as [w' R]. exists w'.
  split_and!; [exact R | |].
  - pose proof (steady_processExternalAnimations (isLoading w) (pending w) w) as H.
    rewrite R in H. by destruct H.
  - intros H. rewrite (processExternalAnimations_guard w H) in R. by injection R.
Qed.

(** X9.  Animation data is never modified.  Whatever the component does
    (mounting, load completions, [playDanceAnimation], turns of the render
    loop, the cleanup), every object of the heap that is not an action or
    the audio element stays as it is; so a clip, once it is in the heap, has
    the same name, duration, tracks, times and values ever after. *)
Theorem clips_are_never_modified w es clip d :
  view_clip (heap w) clip = Some d →
  view_clip (heap (run es w)) clip = Some d ∧
  ∀ l o, heap w !! l = Some o → is_data o = true → heap (run es w) !! l = Some o.
Proof.
  intros V. pose proof (evolves_run es w) as E. split; [| apply (ev_data _ _ E)].
  eapply view_clip_data; [apply (ev_data _ _ E) | exact V].
Qed.

Lemma clips_are_never_modified_witness :
  view_clip (heap loaded_world) 10 = Some scenario ∧
  view_clip
    (heap (run [Click 0; Frame (λ _, 0.25%float); Mount; Click 1; Unmount] loaded_world)) 10
    = Some scenario ∧
  ∀ l o, heap loaded_world !! l = Some o → is_data o = true →
         heap (run [Click 0; Frame (λ _, 0.25%float); Mount; Click 1; Unmount] loaded_world)
           !! l = Some o.
Proof.
  assert (view_clip (heap loaded_world) 10 = Some scenario) as V by (vm_compute; reflexivity).
  split; [exact V |].
  exact (clips_are_never_modified loaded_world
           [Click 0; Frame (λ _, 0.25%float); Mount; Click 1; Unmount] 10 scenario V).
Defined.

(** X10.  Nothing is dropped.  Through every sequence of events: a name
    registered in [actionsRef] stays registered; [mixerRef] and [modelRef],
    once set, stay set; the audio element, once created, is never replaced
    by another; and the console, the calls made on actions and the calls of
    [onModelLoaded] only grow.  The cleanup of the effect clears none of the
    refs. *)
Theorem nothing_is_dropped w es :
  (∀ name, is_Some (actionsRef w !! name) → is_Some (actionsRef (run es w) !! name)) ∧
  (is_Some (mixerRef w) → is_Some (mixerRef (run es w))) ∧
  (is_Some (modelRef w) → is_Some (modelRef (run es w))) ∧
  (∀ a, audioRef w = Some a → audioRef (run es w) = Some a) ∧
  console w `prefix_of` console (run es w) ∧
  invoked w `prefix_of` invoked (run es w) ∧
  modelLoaded w `prefix_of` modelLoaded (run es w).
Proof. destruct (evolves_run es w). by split_and!. Qed.

(** X11.  An action plays the same clip for ever.  Through every sequence
    of events, an action of the heap stays an action, bound to the same
    mixer and the same clip object, and the content of that clip does not
    change: the calls [fadeOut], [stop], [reset], [fadeIn], [play] and
    [setLoop], the mixer's updates and [stopAllAction] only change the
    playback state. *)
Theorem actions_keep_their_clip w es l st d :
  action_at w l = Some st →
  view_clip (heap w) (a_clip st) = Some d →
  ∃ st',
    action_at (run es w) l = Some st' ∧
    a_clip st' = a_clip st ∧
    a_mixer st' = a_mixer st ∧
    view_clip (heap (run es w)) (a_clip st') = Some d.
Proof.
  intros H V. pose proof (evolves_run es w) as E.
  destruct (ev_action _ _ E l st H) as (st' & H' & Ec & Em).
  exists st'. split_and!; [done | done | done |]. rewrite Ec.
  eapply view_clip_data; [apply (ev_data _ _ E) | exact V].
Qed.

Lemma actions_keep_their_clip_witness :
  action_at loaded_world 31 = Some (newAction 1 30) ∧
  view_clip (heap loaded_world) (a_clip (newAction 1 30)) = Some (retarget_clip scenario) ∧
  ∃ st',
    action_at (run [Click 0; Frame (λ _, 0.25%float); Click 1; Unmount] loaded_world) 31
      = Some st' ∧
    a_clip st' = a_clip (newAction 1 30) ∧
    a_mixer st' = a_mixer (newAction 1 30) ∧
    view_clip (heap (run [Click 0; Frame (λ _, 0.25%float); Click 1; Unmount] loaded_world))
      (a_clip st') = Some (retarget_clip scenario).
Proof.
  assert (action_at loaded_world 31 = Some (newAction 1 30)) as H by (vm_compute; reflexivity).
  assert (view_clip (heap loaded_world) (a_clip (newAction 1 30)) =
            Some (retarget_clip scenario)) as V by (vm_compute; reflexivity).
  split_and!; [exact H | exact V |].
  exact (actions_keep_their_clip loaded_world
           [Click 0; Frame (λ _, 0.25%float); Click 1; Unmount] 31 _ _ H V).
Defined.

(** X12.  The cleanup silences the music for good.  The cleanup of the
    effect clears the source of the audio element but leaves the element in
    [audioRef]; [playDanceAnimation] creates an element only when
    [audioRef] is empty.  So in every state the component can reach in
    which the audio element exists, once the cleanup has run the element in
    [audioRef] is the same one and its source is the empty string after
    every further sequence of events: later calls of [playDanceAnimation]
    call [play()] on an element without a source. *)
Theorem cleanup_silences_the_music w a es :
  reachable w → audioRef w = Some a →
  ∃ lp n,
    audioRef (run (Unmount :: es) w) = Some a ∧
    audio_at (run (Unmount :: es) w) a = Some (EmptyString, lp, n).
Proof.
  intros Hr Ha. pose proof (reachable_controller_inv w Hr) as [_ _ U _ _ _].
  destruct (U a Ha) as (src & lp & n & Hl).
  destruct (cleanup_audio w a src lp n Ha Hl) as [Ha1 Hl1].
  unfold run. cbn [foldl handle]. fold (run es (after (cleanup w))).
  pose proof (evolves_run es (after (cleanup w))) as E.
  destruct (ev_audio _ _ E _ _ _ _ Hl1) as (src' & lp' & n' & Hl2 & Hs & _).
  exists lp', n'. split; [by apply (ev_audioRef _ _ E) |].
  by destruct Hs as [-> | ->].
Qed.

Lemma cleanup_silences_the_music_witness :
  reachable (run [Click 0] loaded_world) ∧
  audioRef (run [Click 0] loaded_world) = Some 45 ∧
  ∃ lp n,
    audioRef (run (Unmount :: [Mount; Click 0]) (run [Click 0] loaded_world)) = Some 45 ∧
    audio_at (run (Unmount :: [Mount; Click 0]) (run [Click 0] loaded_world)) 45
      = Some (EmptyString, lp, n).
Proof.
  assert (reachable (run [Click 0] loaded_world)) as Hr
    by apply reachable_run, reachable_loaded_world.
  assert (audioRef (run [Click 0] loaded_world) = Some 45) as Ha by (vm_compute; reflexivity).
  split_and!; [exact Hr | exact Ha |].
  exact (cleanup_silences_the_music (run [Click 0] loaded_world) 45 [Mount; Click 0] Hr Ha).
Defined.



(** X14.  One report for one load.  In every state the component can
    reach and for every event: when the event ends the load in flight
    (there was a suspended invocation and there is none afterwards),
    [onModelLoaded] is called exactly once in it; in every other case it is
    not called at all.  In particular [playDanceAnimation], the render loop,
    the cleanup, and a load that goes on to the dance file report
    nothing. *)
Theorem one_report_per_load w e :
  reachable w →
  (pending w ≠ [] ∧ pending (handle e w) = [] →
   ∃ report, modelLoaded (handle e w) = modelLoaded w ++ [report]) ∧
  (pending w = [] ∨ pending (handle e w) ≠ [] →
   modelLoaded (handle e w) = modelLoaded w).
Proof.
  intros Hr. pose proof (reachable_loader_inv w Hr) as HL.
  destruct (modelLoaded_handle e w HL) as [(H1 & H2 & H3)|[H1 H2]].
  - split; [done |]. intros [?|?]; done.
  - split; [| done]. intros [? ?]. by destruct H1.
Qed.

Lemma one_report_per_load_witness :
  reachable loading_world ∧
  (pending loading_world ≠ [] ∧
   pending (handle (Settle 0 (Failed None)) loading_world) = [] →
   ∃ report,
     modelLoaded (handle (Settle 0 (Failed None)) loading_world) =
       modelLoaded loading_world ++ [report]) ∧
  (pending loading_world = [] ∨
   pending (handle (Settle 0 (Failed None)) loading_world) ≠ [] →
   modelLoaded (handle (Settle 0 (Failed None)) loading_world) = modelLoaded loading_world).
Proof.
  assert (reachable loading_world) as Hr by apply reachable_run, reachable_initial.
  split; [exact Hr |].
  exact (one_report_per_load loading_world (Settle 0 (Failed None)) Hr).
Defined.

(** X15.  How [Home] shows a failed load.  For every report
    [onModelLoaded(loaded, error)] with a non-empty [error], whatever the
    state of [Home]: the error notice shows the fixed text about missing
    model files when ["Not Found"] occurs somewhere in [error], and [error]
    itself when it does not; the status becomes ["モデル読み込みエラー"], the
    loading box is hidden, and [isModelLoaded] is not changed, so the dance
    button stays as it was. *)
Theorem home_shows_the_error captured now loaded error s :
  error ≠ EmptyString →
  let s' := Home.handleModelLoad captured now loaded (Some error) s in
  ((∃ pre post, error = pre +:+ "Not Found" +:+ post) →
   Home.errorMessage s' = Home.notFoundMessage) ∧
  ((¬ ∃ pre post, error = pre +:+ "Not Found" +:+ post) →
   Home.errorMessage s' = error) ∧
  Home.errorNotice (Home.render s') = Some (Home.Message (Home.errorMessage s')) ∧
  Home.loadingBox (Home.render s') = None ∧
  Home.loadingStatus s' = "モデル読み込みエラー" ∧
  Home.isModelLoaded s' = Home.isModelLoaded s ∧
  Home.danceDisabled (Home.render s') = Home.danceDisabled (Home.render s).
Proof.
  intros He. cbv zeta. rewrite (handleModelLoad_error _ _ _ _ _ He).
  assert (JS.truthy (JS.Str (if includes "Not Found" error
                             then Home.notFoundMessage else error)) = true) as T.
  { destruct (includes "Not Found" error); [done | by apply truthy_Str]. }
  split_and!.
  - intros H%includes_spec. cbn. by rewrite H.
  - intros H. cbn. destruct (includes "Not Found" error) eqn:E; [| done].
    by apply includes_spec in E.
  - unfold Home.render, Home.ErrorNotice. cbn [Home.errorNotice Home.errorMessage].
    by rewrite T.
  - unfold Home.render. cbn [Home.loadingBox Home.errorMessage Home.isModelLoaded].
    rewrite T. by rewrite andb_false_r.
  - done.
  - done.
  - done.
Qed.

Lemma home_shows_the_error_witness :
  "404 Not Found" ≠ EmptyString ∧
  let s' := Home.handleModelLoad false 5000 false (Some "404 Not Found") (Home.initial 0) in
  ((∃ pre post, "404 Not Found" = pre +:+ "Not Found" +:+ post) →
   Home.errorMessage s' = Home.notFoundMessage) ∧
  ((¬ ∃ pre post, "404 Not Found" = pre +:+ "Not Found" +:+ post) →
   Home.errorMessage s' = "404 Not Found") ∧
  Home.errorNotice (Home.render s') = Some (Home.Message (Home.errorMessage s')) ∧
  Home.loadingBox (Home.render s') = None ∧
  Home.loadingStatus s' = "モデル読み込みエラー" ∧
  Home.isModelLoaded s' = Home.isModelLoaded (Home.initial 0) ∧
  Home.danceDisabled (Home.render s') = Home.danceDisabled (Home.render (Home.initial 0)).
Proof.
  assert ("404 Not Found" ≠ EmptyString) as He by discriminate.
  split; [exact He |].
  exact (home_shows_the_error false 5000 false "404 Not Found" (Home.initial 0) He).
Defined.

(** X16.  A failure with an empty message is not shown.  When the
    character file fails with an [Error] whose message is the empty string,
    [loadModels] reports [onModelLoaded(false, "")]; [Home] takes the empty
    string for no error: it shows no error notice, logs a load time, and
    leaves the loading box up with an empty status and the dance button
    disabled; and when the three-second timer then fires, the box says
    ["読み込み中...(少々お待ちください)"], although no load is in flight. *)
Theorem empty_error_message_is_not_shown (start now later : Z) :
  modelLoaded (run [Mount; Settle 0 (Failed (Some EmptyString))] initial) =
    [(false, Some EmptyString)] ∧
  isLoading (run [Mount; Settle 0 (Failed (Some EmptyString))] initial) = false ∧
  Home.render
    (Home.run [Home.ModelLoad now later false (Some EmptyString)] (Home.initial start)) =
    {| Home.loadingBox := Some EmptyString; Home.errorNotice := None;
       Home.danceDisabled := true |} ∧
  Home.render
    (Home.run [Home.ModelLoad now later false (Some EmptyString); Home.TimerFires]
       (Home.initial start)) =
    {| Home.loadingBox := Some "読み込み中...(少々お待ちください)"; Home.errorNotice := None;
       Home.danceDisabled := true |} ∧
  Home.logs
    (Home.run [Home.ModelLoad now later false (Some EmptyString)] (Home.initial start)) =
    [Home.LogLoadState false (Some EmptyString);
     Home.LogText ("モデル読み込み完了時間: " +:+ pretty (now - start)%Z +:+ "ms")] ∧
  Home.reports [Home.ModelLoad now later false (Some EmptyString); Home.TimerFires] =
    modelLoaded (run [Mount; Settle 0 (Failed (Some EmptyString))] initial).
Proof. split_and!; reflexivity. Qed.



(** X18.  What [Home] never shows.  In every state of [Home]: the loading
    box and the error notice are never shown together; the error notice is
    shown exactly when [errorMessage] is not empty, and then it shows that
    message: the help text of [ErrorNotice] that names the two model files
    is never displayed; and the dance button is disabled exactly while
    [isModelLoaded] is false. *)
Theorem home_never_shows_the_help_text s :
  (Home.loadingBox (Home.render s) = None ∨ Home.errorNotice (Home.render s) = None) ∧
  Home.errorNotice (Home.render s) ≠ Some Home.Help ∧
  (Home.errorMessage s = EmptyString ∧ Home.errorNotice (Home.render s) = None ∨
   Home.errorMessage s ≠ EmptyString ∧
   Home.errorNotice (Home.render s) = Some (Home.Message (Home.errorMessage s))) ∧
  Home.danceDisabled (Home.render s) = negb (Home.isModelLoaded s).
Proof.
  unfold Home.render, Home.ErrorNotice.
  cbn [Home.loadingBox Home.errorNotice Home.danceDisabled].
  destruct (JS.truthy (JS.Str (Home.errorMessage s))) eqn:T.
  - apply truthy_Str in T as T'. rewrite andb_false_r. cbn [negb].
    split_and!; [by left | done | by right | done].
  - assert (Home.errorMessage s = EmptyString) as E.
    { destruct (Home.errorMessage s); [done | discriminate T]. }
    cbn [negb]. split_and!; [by right | done | by left | done].
Qed.

(** X19.  The late status text.  Through every history of [Home] the
    callback of the three-second timer sees the values of [isModelLoaded]
    and [errorMessage] that [Home] currently shows, because the effect
    restarts the timer whenever one of them changes.  So when the timer
    fires it changes nothing but the status text, and changes that only
    while the loading box is up: nothing loaded, no error shown. *)
Theorem late_status_only_while_loading es start :
  let s := Home.run es (Home.initial start) in
  (∀ loaded error,
     Home.loadingTimer s = Some (loaded, error) →
     loaded = Home.isModelLoaded s ∧ error = Home.errorMessage s) ∧
  Home.isModelLoaded (Home.step Home.TimerFires s) = Home.isModelLoaded s ∧
  Home.errorMessage (Home.step Home.TimerFires s) = Home.errorMessage s ∧
  (Home.loadingStatus (Home.step Home.TimerFires s) ≠ Home.loadingStatus s →
   Home.loadingBox (Home.render s) = Some (Home.loadingStatus s) ∧
   Home.loadingStatus (Home.step Home.TimerFires s) = "読み込み中...(少々お待ちください)").
Proof.
  cbv zeta. pose proof (timer_inv_run es _ (timer_inv_initial start)) as I.
  set (s := Home.run es (Home.initial start)) in *.
  split; [exact I |].
  cbn [Home.step]. unfold Home.timerFires.
  destruct (Home.loadingTimer s) as [[l e]|] eqn:Ht; [| done].
  destruct (I l e Ht) as [-> ->].
  cbn [Home.isModelLoaded Home.errorMessage Home.loadingStatus].
  split_and!; [done | done |].
  unfold Home.render. cbn [Home.loadingBox].
  destruct (negb (Home.isModelLoaded s) && negb (JS.truthy (JS.Str (Home.errorMessage s))));
    done.
Qed.

(** X20.  One render loop.  Through every sequence of effect runs,
    cleanups, attachments and detachments of the [div], animation frames,
    load completions and [playDanceAnimation] calls: at most one animation
    frame is pending, so [animate] never runs as two loops; at most one
    resize listener is registered; once the cleanup has run no frame is
    pending and no listener is left, and a frame callback that the browser
    might still deliver changes nothing; whenever React runs the effect the
    flag [isComponentMounted] is clear, so the effect returns early only
    when the [div] is missing.  The controller only goes through states that
    [reachable] describes. *)
Theorem one_render_loop es :
  let s := Scene.run es Scene.fresh in
  length (Scene.frames s) ≤ 1 ∧
  Scene.resizeListeners s ≤ 1 ∧
  (Scene.cleanupPending s = false →
   Scene.frames s = [] ∧ Scene.resizeListeners s = 0 ∧
   Scene.isComponentMounted s = false ∧
   ∀ h time, Scene.step (Scene.AnimationFrame h time) s = s) ∧
  (Scene.cleanupPending s = true → Scene.isComponentMounted s = true) ∧
  reachable (Scene.controller s).
Proof.
  cbv zeta. destruct (scene_inv_run es _ scene_inv_fresh) as [F I M G C].
  set (s := Scene.run es Scene.fresh) in *.
  split_and!.
  - destruct F as [-> | [-> _]]; cbn; lia.
  - destruct (Scene.cleanupPending s) eqn:Hp.
    + rewrite (M eq_refl). lia.
    + destruct (I eq_refl) as [_ ->]. lia.
  - intros Hp. destruct (I Hp) as [Hf Hl].
    split_and!; [done | done | by rewrite G |].
    intros h time. cbn [Scene.step]. rewrite Hf. done.
  - intros Hp. by rewrite G.
  - done.
Qed.

(** X21.  One canvas.  As long as the [div] is not detached, it holds
    exactly one canvas while an effect is in force and none once the cleanup
    has run: every run of the effect appends one canvas and its cleanup
    removes it. *)
Theorem one_canvas es :
  Forall (λ e, e ≠ Scene.Detach) es →
  Scene.canvases (Scene.run es Scene.fresh) =
    if Scene.cleanupPending (Scene.run es Scene.fresh) then 1 else 0.
Proof.
  intros F. apply (canvas_inv_run es Scene.fresh F scene_inv_fresh). by split.
Qed.

Lemma one_canvas_witness :
  Forall (λ e, e ≠ Scene.Detach)
    [Scene.RunEffect (λ _, 0%float); Scene.RunCleanup; Scene.RunEffect (λ _, 0%float)] ∧
  Scene.canvases
    (Scene.run
       [Scene.RunEffect (λ _, 0%float); Scene.RunCleanup; Scene.RunEffect (λ _, 0%float)]
       Scene.fresh) =
    if Scene.cleanupPending
         (Scene.run
            [Scene.RunEffect (λ _, 0%float); Scene.RunCleanup;
             Scene.RunEffect (λ _, 0%float)]
            Scene.fresh)
    then 1 else 0.
Proof.
  assert (Forall (λ e, e ≠ Scene.Detach)
            [Scene.RunEffect (λ _, 0%float); Scene.RunCleanup;
             Scene.RunEffect (λ _, 0%float)]) as F by (repeat constructor; discriminate).
  split; [exact F |].
  exact (one_canvas
           [Scene.RunEffect (λ _, 0%float); Scene.RunCleanup; Scene.RunEffect (λ _, 0%float)]
           F).
Defined.

(** X22.  The second variant of [playDanceAnimation] drives the mixer as
    the first.  In every state that satisfies the controller's invariant,
    both variants return normally, and after them the current action, the
    state of every action, the calls made on actions, the registered names
    and the mixer are the same.  The second variant does not touch the
    music: [audioRef] and every audio element are as before the call; and
    it logs its two lines in English. *)
Theorem second_variant_plays_alike w index :
  controller_inv w →
  ∃ w1 w2,
    playDanceAnimation index w = Ok tt w1 ∧
    playDanceAnimationV2 index w = Ok tt w2 ∧
    currentActionRef w2 = currentActionRef w1 ∧
    (∀ l, action_at w2 l = action_at w1 l) ∧
    invoked w2 = invoked w1 ∧
    actionsRef w2 = actionsRef w1 ∧
    mixerRef w2 = mixerRef w1 ∧
    audioRef w2 = audioRef w ∧
    (∀ l, audio_at w2 l = audio_at w l) ∧
    console w2 =
      console w ++
      [ConsoleLog ("playDanceAnimation(" +:+ JS.numeral index +:+ ") called");
       match found index w with
       | Some _ => ConsoleLog ("Playing dance animation " +:+ JS.numeral index)
       | None => ConsoleWarn ("Dance animation " +:+ danceName index +:+ " not found")
       end].
Proof.
  intros H. exists (played index w), (playedV2 index w).
  assert (controller_inv (called_worldV2 index w)) as H1.
  { revert H. apply (ci_modify (fun w => called_worldV2 index w)); done. }
  destruct (stop_world_inv _ H1) as [H2 I2].
  set (ws := stop_world (called_worldV2 index w)) in *.
  assert (ws = set_console (console (called_worldV2 index w)) (stop_world w)) as Ews
    by (unfold ws, called_worldV2; by rewrite stop_world_console).
  destruct (stop_world_refs w) as (Sc & Sa & Su & Sm & So).
  assert (found index ws = found index w) as Ef.
  { unfold found. rewrite Ews. cbn [mixerRef actionsRef set_console]. by rewrite Sm, Sa. }
  assert (∀ l, action_at ws l = after_stop w l) as Ea.
  { intros l. rewrite Ews. unfold action_at. cbn [heap set_console].
    apply (stop_world_action w l). }
  destruct (start_worldV2_fields index ws H2) as (Eh & Ei & Ec & Er & Em & Eu & Eo).
  split_and!.
  - by apply playDanceAnimation_run.
  - by apply playDanceAnimationV2_run.
  - unfold playedV2. fold ws. rewrite Ec, start_world_current, Ef by done.
    rewrite played_current by done. destruct (found index w); [done |].
    by rewrite Ews.
  - intros l. unfold playedV2. fold ws. unfold action_at at 1. rewrite Eh.
    fold (action_at (start_world index ws) l). rewrite played_action by done.
    destruct (found index w) as [a|] eqn:F.
    + rewrite (start_world_action index ws a l H2) by (by rewrite Ef). by rewrite !Ea.
    + rewrite start_world_missing by (by rewrite Ef). unfold action_at. cbn [heap set_console].
      apply Ea.
  - unfold playedV2. fold ws. rewrite Ei, played_invoked by done.
    destruct (found index w) as [a|] eqn:F.
    + pose proof H2 as (_ & A & _)%controller_inv_view.
      assert (found index ws = Some a) as Fs by (by rewrite Ef).
      destruct (A _ a (proj2 (proj1 (found_Some _ _ _) Fs))) as [st Hst].
      rewrite (start_world_found index ws a st Fs Hst). cbn. rewrite Ews. cbn.
      unfold stop_calls. destruct (currentActionRef w) as [c|] eqn:Ecur.
      * by rewrite (stop_world_invoked w c H Ecur), <- app_assoc.
      * unfold stop_world. by rewrite Ecur.
    + rewrite start_world_missing by (by rewrite Ef). cbn. rewrite Ews. cbn.
      rewrite app_nil_r.
      unfold stop_calls. destruct (currentActionRef w) as [c|] eqn:Ecur.
      * by rewrite (stop_world_invoked w c H Ecur).
      * unfold stop_world. rewrite Ecur. by rewrite app_nil_r.
  - unfold playedV2. fold ws. rewrite Er, Ews. cbn. rewrite Sa.
    by destruct (played_refs index w) as [-> _].
  - unfold playedV2. fold ws. rewrite Em, Ews. cbn. rewrite Sm.
    by destruct (played_refs index w) as [_ ->].
  - unfold playedV2. fold ws. rewrite Eu, Ews. cbn. exact Su.
  - intros l. unfold playedV2. fold ws. unfold audio_at at 1. rewrite Eh.
    fold (audio_at (start_world index ws) l). rewrite start_world_audio, Ews.
    unfold audio_at at 1. cbn [heap set_console]. apply stop_world_audio.
  - unfold playedV2. fold ws. rewrite Eo, Ef, Ews. cbn.
    by rewrite <- app_assoc.
Qed.

Lemma second_variant_plays_alike_witness :
  controller_inv loaded_world ∧
  ∃ w1 w2,
    playDanceAnimation 0 loaded_world = Ok tt w1 ∧
    playDanceAnimationV2 0 loaded_world = Ok tt w2 ∧
    currentActionRef w2 = currentActionRef w1 ∧
    (∀ l, action_at w2 l = action_at w1 l) ∧
    invoked w2 = invoked w1 ∧
    actionsRef w2 = actionsRef w1 ∧
    mixerRef w2 = mixerRef w1 ∧
    audioRef w2 = audioRef loaded_world ∧
    (∀ l, audio_at w2 l = audio_at loaded_world l) ∧
    console w2 =
      console loaded_world ++
      [ConsoleLog ("playDanceAnimation(" +:+ JS.numeral 0 +:+ ") called");
       match found 0 loaded_world with
       | Some _ => ConsoleLog ("Playing dance animation " +:+ JS.numeral 0)
       | None => ConsoleWarn ("Dance animation " +:+ danceName 0 +:+ " not found")
       end].
Proof.
  pose proof (reachable_controller_inv loaded_world reachable_loaded_world) as H.
  split; [exact H |].
  exact (second_variant_plays_alike loaded_world 0 H).
Defined.
